(** * Territory map: coordinate resolution, trend buckets, filters, sparklines

    A shallow embedding of [src/map.js] (class [TerritoryMap]) and the
    properties its specification states about it.

    The file has two parts.  Module [JS] models the fragment of ECMAScript
    the class relies on: strings and their methods, the Number type, the
    primitive values with their coercions, and the arithmetic and comparison
    operators.  Modules [TerritoryMap] and [Session] embed the methods of
    the class, one definition per method.  Module [Properties] proves the
    properties of the specification, module [Coverage] further properties of
    the methods. *)

From Stdlib Require Import ZArith QArith Qabs Qround Qpower Lia Lqa Ascii DecimalString.
From Stdlib Require Import Sorted Permutation.
From stdpp Require Import gmap strings list.

(* ===================================================================== *)
(** * The host language                                                    *)
(* ===================================================================== *)

Module JS.

(** ** Strings

    A JavaScript string is a sequence of UTF-16 code units.  A [string] here
    is a sequence of code units below 256 (the Latin-1 range), each [ascii]
    standing for the code unit of the same number. *)

Definition charCode (c : ascii) : Z := Z.of_N (N_of_ascii c).

(** [WhiteSpace] and [LineTerminator] of ECMAScript below 256: this is what
    [String.prototype.trim] strips and what [\s] matches. *)
Definition is_space (c : ascii) : bool :=
  let n := charCode c in
  ((9 <=? n) && (n <=? 13) || (n =? 32) || (n =? 160))%Z.

Definition lower_char (c : ascii) : ascii :=
  let n := N_of_ascii c in
  if ((65 <=? n) && (n <=? 90) || (192 <=? n) && (n <=? 222) && negb (n =? 215))%N
  then ascii_of_N (n + 32) else c.

(** [s.toLowerCase()] *)
Fixpoint toLowerCase (s : string) : string :=
  match s with
  | "" => ""
  | String c s' => String (lower_char c) (toLowerCase s')
  end.

(** [s.includes(sub)] *)
Fixpoint includes (s sub : string) : bool :=
  String.prefix sub s ||
  match s with
  | "" => false
  | String _ s' => includes s' sub
  end.

Fixpoint trimStart (s : string) : string :=
  match s with
  | "" => ""
  | String c s' => if is_space c then trimStart s' else s
  end.

(** [s.trim()] *)
Definition trim (s : string) : string :=
  String.rev (trimStart (String.rev (trimStart s))).

(** [s.replace(/[.,]/g, '')] *)
Fixpoint strip_punct (s : string) : string :=
  match s with
  | "" => ""
  | String c s' =>
      if (charCode c =? 46)%Z || (charCode c =? 44)%Z
      then strip_punct s' else String c (strip_punct s')
  end.

(** [s.replace(/\s+/g, ' ')]: every maximal run of white space becomes one
    space; [in_run] tells that the previous character was white space. *)
Fixpoint squeeze (in_run : bool) (s : string) : string :=
  match s with
  | "" => ""
  | String c s' =>
      if is_space c
      then (if in_run then squeeze true s' else String " " (squeeze true s'))
      else String c (squeeze false s')
  end.

Definition collapse_spaces (s : string) : string := squeeze false s.

(** A string is truthy when it is not empty. *)
Definition nonempty (s : string) : bool :=
  match s with "" => false | _ => true end.

(** Code-unit order of strings, as an integer sign. *)
Definition lexCompare (a b : string) : Z :=
  match String.compare a b with Lt => (-1)%Z | Eq => 0%Z | Gt => 1%Z end.

(** ** 32-bit integers

    The bitwise operators convert their operands to 32-bit integers and
    return one; [+] does not wrap. *)

Definition ToInt32 (z : Z) : Z := ((z + 2^31) mod 2^32 - 2^31)%Z.
Definition ToUint32 (z : Z) : Z := (z mod 2^32)%Z.

(** [a ^ b] *)
Definition bitxor (a b : Z) : Z := ToInt32 (Z.lxor (ToInt32 a) (ToInt32 b)).
(** [a << k], for [0 <= k < 32] *)
Definition shl (a k : Z) : Z := ToInt32 (Z.shiftl (ToInt32 a) k).
(** [a >>> 0] *)
Definition ushr0 (a : Z) : Z := ToUint32 a.

(** ** Numbers

    A Number is an IEEE 754 binary64 value.  The finite ones are represented
    by the rational they denote; there is one NaN; the sign of zero is not
    represented. *)

Inductive number : Type :=
  | NaN
  | PosInf
  | NegInf
  | Num (q : Q).

(** The unit roundoff of binary64 and the bound from which a result
    overflows to an infinity. *)
Definition unit_roundoff : Q := 1 # (2 ^ 53).
Definition overflow_threshold : Q := inject_Z (2 ^ 1024 - 2 ^ 970).
Definition tiny : Q := 1 # (2 ^ 64).
Definition huge : Q := inject_Z (2 ^ 64).

(** The rounding of an exact result to binary64 is left to the host, with
    the three facts about round-to-nearest the proofs rely on: it respects
    equality of rationals, it is exact on dyadic rationals with a 53-bit
    numerator, and its relative error is at most [2^-53] on the part of the
    normal range given by [tiny] and [huge].  The identity function (exact
    arithmetic, [Reference.exact_rounding]) is one instance, IEEE 754
    round-to-nearest ([Binary64.round64], with the laws proved in
    [JSFacts]) another. *)
Class Rounding : Type := {
  round : Q -> Q;
  round_proper : forall x y : Q, (x == y)%Q -> (round x == round y)%Q;
  round_exact : forall (z : Z) (k : positive),
      (Z.abs z <= 2 ^ 53)%Z -> (k <= 64)%positive ->
      (round (z # (2 ^ k)) == z # (2 ^ k))%Q;
  round_exactZ : forall z : Z,
      (Z.abs z <= 2 ^ 53)%Z -> (round (inject_Z z) == inject_Z z)%Q;
  round_error : forall x : Q,
      (tiny <= Qabs x)%Q -> (Qabs x <= huge)%Q ->
      (Qabs (round x - x) <= Qabs x * unit_roundoff)%Q
}.

Section Arithmetic.
Context `{Rounding}.

(** The Number of an exact real result: rounded, or an infinity when it
    overflows.  A numeric literal of the source denotes [of_exact] of its
    decimal value. *)
Definition of_exact (q : Q) : number :=
  if Qle_bool overflow_threshold (Qabs q)
  then (if Qle_bool 0 q then PosInf else NegInf)
  else Num (round q).

Definition js_neg (a : number) : number :=
  match a with
  | NaN => NaN
  | PosInf => NegInf
  | NegInf => PosInf
  | Num q => Num (- q)
  end.

(** [a + b] on Numbers *)
Definition js_add (a b : number) : number :=
  match a, b with
  | NaN, _ | _, NaN => NaN
  | PosInf, NegInf | NegInf, PosInf => NaN
  | PosInf, _ | _, PosInf => PosInf
  | NegInf, _ | _, NegInf => NegInf
  | Num x, Num y => of_exact (x + y)
  end.

(** [a - b] *)
Definition js_sub (a b : number) : number := js_add a (js_neg b).

(** The infinity of the sign of [q] times the sign [pos]; NaN for zero. *)
Definition inf_signed (pos : bool) (q : Q) : number :=
  if Qeq_bool q 0 then NaN
  else if Bool.eqb pos (Qle_bool 0 q) then PosInf else NegInf.

(** [a * b] *)
Definition js_mul (a b : number) : number :=
  match a, b with
  | NaN, _ | _, NaN => NaN
  | PosInf, PosInf | NegInf, NegInf => PosInf
  | PosInf, NegInf | NegInf, PosInf => NegInf
  | PosInf, Num y | Num y, PosInf => inf_signed true y
  | NegInf, Num y | Num y, NegInf => inf_signed false y
  | Num x, Num y => of_exact (x * y)
  end.

(** A numeric literal, and the Number of an integer that an integer
    operator ([>>>], [.length], an index) returns. *)
Definition lit (q : Q) : number := of_exact q.
Definition of_int (z : Z) : number := Num (inject_Z z).

(** [a / b]; a zero divisor counts as [+0]. *)
Definition js_div (a b : number) : number :=
  match a, b with
  | NaN, _ | _, NaN => NaN
  | (PosInf | NegInf), (PosInf | NegInf) => NaN
  | PosInf, Num y => if Qle_bool 0 y then PosInf else NegInf
  | NegInf, Num y => if Qle_bool 0 y then NegInf else PosInf
  | Num _, (PosInf | NegInf) => Num 0
  | Num x, Num y =>
      if Qeq_bool y 0 then inf_signed true x else of_exact (x / y)
  end.

End Arithmetic.

(** The order of Numbers; [None] when one of them is NaN. *)
Definition num_compare (a b : number) : option comparison :=
  match a, b with
  | NaN, _ | _, NaN => None
  | PosInf, PosInf | NegInf, NegInf => Some Eq
  | PosInf, _ | _, NegInf => Some Gt
  | NegInf, _ | _, PosInf => Some Lt
  | Num x, Num y => Some (x ?= y)%Q
  end.

(** [a >= b], [a > b], [a < b] and [a === b] on Numbers *)
Definition js_ge (a b : number) : bool :=
  match num_compare a b with Some Gt | Some Eq => true | _ => false end.
Definition js_gt (a b : number) : bool :=
  match num_compare a b with Some Gt => true | _ => false end.
Definition js_lt (a b : number) : bool :=
  match num_compare a b with Some Lt => true | _ => false end.
Definition num_eqb (a b : number) : bool :=
  match num_compare a b with Some Eq => true | _ => false end.

Definition num_isNaN (a : number) : bool :=
  match a with NaN => true | _ => false end.
Definition num_isFinite (a : number) : bool :=
  match a with Num _ => true | _ => false end.

(** [Math.min(...l)] and [Math.max(...l)] on Numbers *)
Definition min2 (a b : number) : number :=
  match num_compare a b with
  | None => NaN
  | Some Gt => b
  | Some _ => a
  end.
Definition max2 (a b : number) : number :=
  match num_compare a b with
  | None => NaN
  | Some Lt => b
  | Some _ => a
  end.
Definition Math_min (l : list number) : number := foldl min2 PosInf l.
Definition Math_max (l : list number) : number := foldl max2 NegInf l.

(** ** Values and coercions *)

Inductive value : Type :=
  | VUndefined
  | VNull
  | VBool (b : bool)
  | VNum (n : number)
  | VStr (s : string).

(** [!!v] *)
Definition truthy (v : value) : bool :=
  match v with
  | VUndefined | VNull => false
  | VBool b => b
  | VNum (Num q) => negb (Qeq_bool q 0)
  | VNum NaN => false
  | VNum _ => true
  | VStr s => nonempty s
  end.

(** [v == null] *)
Definition is_nullish (v : value) : bool :=
  match v with VUndefined | VNull => true | _ => false end.

(** [a === b] *)
Definition strict_eq (a b : value) : bool :=
  match a, b with
  | VUndefined, VUndefined | VNull, VNull => true
  | VBool x, VBool y => Bool.eqb x y
  | VNum x, VNum y => num_eqb x y
  | VStr x, VStr y => bool_decide (x = y)
  | _, _ => false
  end.

(** The decimal digits of an integer, as [String] writes them. *)
Definition Z_to_string (z : Z) : string := NilZero.string_of_int (Z.to_int z).

Definition is_integer (q : Q) : bool := Qeq_bool (inject_Z (Qfloor q)) q.

(** The library functions that read a Number in a string or write one are
    the host's: [StringToNumber] is the coercion of a string to a Number,
    [parseFloat_string] is [parseFloat] on a string,
    [NumberToString_host] is [String] on a finite Number that is not a safe
    integer, [localeCompare] is [String.prototype.localeCompare]. *)
Class Builtins : Type := {
  StringToNumber : string -> number;
  parseFloat_string : string -> number;
  NumberToString_host : Q -> string;
  localeCompare : string -> string -> Z
}.

Section Coercions.
Context `{Builtins}.

(** [String(n)] on a Number: the digits of a safe integer are its decimal
    digits. *)
Definition NumberToString (n : number) : string :=
  match n with
  | NaN => "NaN"
  | PosInf => "Infinity"
  | NegInf => "-Infinity"
  | Num q =>
      if is_integer q && Qle_bool (Qabs q) (inject_Z (2 ^ 53))
      then Z_to_string (Qfloor q)
      else NumberToString_host q
  end.

(** [String(v)], also the conversion inside a template literal *)
Definition ToString (v : value) : string :=
  match v with
  | VUndefined => "undefined"
  | VNull => "null"
  | VBool true => "true"
  | VBool false => "false"
  | VNum n => NumberToString n
  | VStr s => s
  end.

(** [Number(v)], the coercion every numeric operator applies *)
Definition ToNumber (v : value) : number :=
  match v with
  | VUndefined => NaN
  | VNull => Num 0
  | VBool true => Num 1
  | VBool false => Num 0
  | VNum n => n
  | VStr s => StringToNumber s
  end.

(** The globals [isFinite] and [isNaN] *)
Definition isFinite (v : value) : bool := num_isFinite (ToNumber v).
Definition isNaN (v : value) : bool := num_isNaN (ToNumber v).

(** [parseFloat(v)] reads a decimal literal at the start of [String(v)];
    there is none in ["undefined"], ["null"], ["true"] and ["false"]. *)
Definition parseFloat (v : value) : number :=
  match v with
  | VUndefined | VNull | VBool _ => NaN
  | VNum _ | VStr _ => parseFloat_string (ToString v)
  end.

(** [n.toFixed(1)]: the integer [m] with [m / 10] nearest to [n], the larger
    one on a tie, written with one digit after the point. *)
Definition toFixed1 (n : number) : string :=
  match n with
  | Num q =>
      if Qle_bool (inject_Z (10 ^ 21)) (Qabs q) then NumberToString n
      else
        let m := Qfloor (Qabs q * 10 + (1 # 2)) in
        (if Qle_bool 0 q then "" else "-")
          +:+ Z_to_string (m / 10) +:+ "." +:+ Z_to_string (m mod 10)
  | _ => NumberToString n
  end.

End Coercions.

(** [a > b] and [a < b] on values: two strings compare by code units,
    anything else as Numbers. *)
Section Relational.
Context `{Builtins}.

Definition value_gt (a b : value) : bool :=
  match a, b with
  | VStr x, VStr y => String.ltb y x
  | _, _ => js_gt (ToNumber a) (ToNumber b)
  end.
Definition value_lt (a b : value) : bool :=
  match a, b with
  | VStr x, VStr y => String.ltb x y
  | _, _ => js_lt (ToNumber a) (ToNumber b)
  end.

End Relational.

(** ** [Array.prototype.sort]

    The sort is stable.  With a comparison function [cmp], an element goes
    before the elements it does not compare greater than; this is the
    insertion sort that keeps equal elements in their order. *)
Section Sort.
Context {A : Type} (cmp : A -> A -> Z).

Fixpoint insert (x : A) (l : list A) : list A :=
  match l with
  | [] => [x]
  | y :: rest => if (cmp x y <=? 0)%Z then x :: l else y :: insert x rest
  end.

Definition sort (l : list A) : list A := foldr insert [] l.

(** [x] may stand before [y]. *)
Definition before (x y : A) : Prop := (cmp x y <= 0)%Z.

(** A consistent comparison function, which is what [sort] asks for and
    what [localeCompare] is required to be: of two elements one may stand
    before the other, and standing before is transitive. *)
Definition consistentComparator : Prop :=
  (forall x y, before x y \/ before y x) /\
  (forall x y z, before x y -> before y z -> before x z).

End Sort.

(** ** Round to nearest, ties to even

    The rounding of IEEE 754 binary64 on the rationals: a nonzero [x] with
    [2^e <= |x| < 2^(e+1)] goes to the nearest multiple of [2^(e-52)], a tie
    to the even one, where the exponent is not taken below [-1022] (the
    subnormal numbers share the spacing [2^-1074]).  Overflow is decided by
    [of_exact], before the rounding. *)
Module Binary64.
Local Open Scope Q_scope.

(** The exponent [e] with [2^e <= q < 2^(e+1)], for [q] positive. *)
Definition ilog2 (q : Q) : Z :=
  let e0 := (Z.log2 (Qnum q) - Z.log2 (Zpos (Qden q)))%Z in
  if Qle_bool (2 ^ e0) q then e0 else (e0 - 1)%Z.

(** The integer nearest to [m], the even one of two at a tie. *)
Definition nearest_even (m : Q) : Z :=
  let f := Qfloor m in
  match Qcompare (m - inject_Z f) (1 # 2) with
  | Lt => f
  | Gt => (f + 1)%Z
  | Eq => if Z.even f then f else (f + 1)%Z
  end.

Definition round64 (x : Q) : Q :=
  let x := Qred x in
  if Qeq_bool x 0 then 0
  else
    let e := Z.max (ilog2 (Qabs x)) (-1022) in
    let ulp := 2 ^ (e - 52) in
    Qred (inject_Z (nearest_even (x / ulp)) * ulp).

End Binary64.

(** ** A reference host

    Exact arithmetic, and the library functions on decimal and
    radix-prefixed literals.  [String] on a Number that is not a safe
    integer writes its decimal expansion, up to twenty digits after the
    point.  The examples below are evaluated with this host. *)
Module Reference.

Program Definition exact_rounding : Rounding := {| round := fun q => q |}.
Next Obligation. intros x y E. exact E. Qed.
Next Obligation. intros z k _ _. reflexivity. Qed.
Next Obligation. intros z _. reflexivity. Qed.
Next Obligation.
  intros x _ _.
  assert (E : (x - x == 0)%Q) by ring.
  rewrite E. change (Qabs 0) with 0%Q.
  apply Qmult_le_0_compat; [apply Qabs_nonneg | discriminate].
Qed.

Definition digit_of (base : Z) (c : ascii) : option Z :=
  let n := charCode c in
  let d :=
    if (48 <=? n)%Z && (n <=? 57)%Z then (n - 48)%Z
    else if (97 <=? n)%Z && (n <=? 102)%Z then (n - 87)%Z
    else if (65 <=? n)%Z && (n <=? 70)%Z then (n - 55)%Z
    else base in
  if (d <? base)%Z then Some d else None.

(** The leading digits of [s] in [base]: their value, their number, and the
    rest of [s]. *)
Fixpoint read_digits (base acc : Z) (count : nat) (s : string) : Z * nat * string :=
  match s with
  | "" => (acc, count, "")
  | String c rest =>
      match digit_of base c with
      | Some d => read_digits base (base * acc + d)%Z (S count) rest
      | None => (acc, count, s)
      end
  end.

Definition read_sign (s : string) : bool * string :=
  match s with
  | String "-" rest => (true, rest)
  | String "+" rest => (false, rest)
  | _ => (false, s)
  end.

Definition read_exponent (s : string) : Z * string :=
  match s with
  | String c rest =>
      if (charCode c =? 101)%Z || (charCode c =? 69)%Z then
        let '(neg, r1) := read_sign rest in
        let '(e, n, r2) := read_digits 10 0 0 r1 in
        match n with
        | O => (0%Z, s)
        | S _ => ((if neg then - e else e)%Z, r2)
        end
      else (0%Z, s)
  | "" => (0%Z, s)
  end.

Definition pow10 (e : Z) : Q :=
  if (0 <=? e)%Z then inject_Z (10 ^ e) else (1 / inject_Z (10 ^ (- e)))%Q.

Fixpoint string_drop (n : nat) (s : string) : string :=
  match n, s with
  | S n', String _ rest => string_drop n' rest
  | _, _ => s
  end.

(** The longest prefix of [s] that is a signed decimal literal. *)
Definition read_decimal (s : string) : option (number * string) :=
  let '(neg, s1) := read_sign s in
  if String.prefix "Infinity" s1
  then Some (if neg then NegInf else PosInf, string_drop 8 s1)
  else
    let '(ip, n1, s2) := read_digits 10 0 0 s1 in
    let '(fp, n2, s3) :=
      match s2 with
      | String "." rest => read_digits 10 0 0 rest
      | _ => (0%Z, O, s2)
      end in
    match n1, n2 with
    | O, O => None
    | _, _ =>
        let '(e, s4) := read_exponent s3 in
        let m := (inject_Z ip + inject_Z fp / inject_Z (10 ^ Z.of_nat n2))%Q in
        let q := Qred ((if neg then - m else m) * pow10 e)%Q in
        Some (@of_exact exact_rounding q, s4)
    end.

Definition read_radix (s : string) : option number :=
  match s with
  | String "0" (String c rest) =>
      let n := charCode c in
      let base :=
        if (n =? 120)%Z || (n =? 88)%Z then 16%Z
        else if (n =? 111)%Z || (n =? 79)%Z then 8%Z
        else if (n =? 98)%Z || (n =? 66)%Z then 2%Z
        else 0%Z in
      match read_digits base 0 0 rest with
      | (v, S _, "") => if (base =? 0)%Z then None else Some (@of_exact exact_rounding (inject_Z v))
      | _ => None
      end
  | _ => None
  end.

Definition plain_StringToNumber (s : string) : number :=
  let t := trim s in
  match t with
  | "" => Num 0
  | _ =>
      match read_radix t with
      | Some n => n
      | None =>
          match read_decimal t with
          | Some (n, "") => n
          | _ => NaN
          end
      end
  end.

Definition plain_parseFloat (s : string) : number :=
  match read_decimal (trimStart s) with
  | Some (n, _) => n
  | None => NaN
  end.

Fixpoint fraction_digits (fuel : nat) (r : Q) : string :=
  match fuel with
  | O => ""
  | S fuel' =>
      if Qeq_bool r 0 then ""
      else
        let d := Qfloor (r * 10) in
        Z_to_string d +:+ fraction_digits fuel' (Qred (r * 10 - inject_Z d))
  end.

Definition plain_NumberToString (q : Q) : string :=
  let a := Qabs q in
  let ip := Qfloor a in
  (if Qle_bool 0 q then "" else "-") +:+ Z_to_string ip +:+
  (if is_integer q then "" else "." +:+ fraction_digits 20 (Qred (a - inject_Z ip))).

Definition plain_builtins : Builtins := {|
  StringToNumber := plain_StringToNumber;
  parseFloat_string := plain_parseFloat;
  NumberToString_host := plain_NumberToString;
  localeCompare := lexCompare
|}.

(** A host that collates as a locale does on letters: by the letters
    first, whatever their case, so that "apr" stands before "Mar". *)
Definition folding_localeCompare (a b : string) : Z :=
  lexCompare (toLowerCase a) (toLowerCase b).

Definition collating_builtins : Builtins := {|
  StringToNumber := plain_StringToNumber;
  parseFloat_string := plain_parseFloat;
  NumberToString_host := plain_NumberToString;
  localeCompare := folding_localeCompare
|}.

End Reference.

End JS.

(* ===================================================================== *)
(** * The class [TerritoryMap]                                             *)
(* ===================================================================== *)

Module TerritoryMap.
Import JS.

(** ** Data *)

(** A point of [monthly_data]; [month] is [None] when the key is absent. *)
Record MonthlyPoint : Type := {
  month : option string;
  total_sales : value
}.

(** A location of the dataset.  [licensee], [address] and [city] are
    strings; the other fields hold whatever the document has, [VUndefined]
    when absent.  An element of [monthly_data] that is not an object is
    [None]. *)
Record Dispensary : Type := {
  licensee : string;
  address : string;
  city : string;
  region : value;
  latitude : value;
  longitude : value;
  zip : value;
  trend_direction : value;
  monthly_data : list (option MonthlyPoint)
}.

(** An entry of the geocode cache, [VUndefined] for a field it lacks.  A
    cache value that is not an object has neither field. *)
Record GeoEntry : Type := {
  lat : value;
  lng : value
}.

(** The geocode cache is an object: its own properties in the order
    [Object.keys] enumerates them. *)
Definition GeoCache : Type := list (string * GeoEntry).

(** [cache[key]].  What a key finds on [Object.prototype] alone has no
    [lat] and no [lng] and is never used: it counts as not found. *)
Fixpoint cache_get (cache : GeoCache) (key : string) : option GeoEntry :=
  match cache with
  | [] => None
  | (k, e) :: rest => if bool_decide (k = key) then Some e else cache_get rest key
  end.

(** [this.data]: [locations_data] is [this.data.locations.data], [None] when
    [locations] or its [data] is missing. *)
Record Dataset : Type := {
  locations_data : option (list Dispensary);
  dispensaries : option (list Dispensary)
}.

(** The fields of [this] the methods below read or write. *)
Record State : Type := {
  data : option Dataset;
  filteredData : list Dispensary;
  geoCache : option GeoCache;
  geoCacheNorm : option (gmap string GeoEntry)
}.

(** What [applyFilters] reads from the document: the three input values and
    [dataset.trend] of the active trend button, if there is one. *)
Record Controls : Type := {
  search : string;
  region_filter : string;
  city_filter : string;
  active_trend : option value
}.

Inductive outcome (A : Type) : Type :=
  | Return (a : A)
  | Throw (e : string).
Arguments Return {A} a.
Arguments Throw {A} e.

(** ** [loadData]: the normalized index (lines 44-52) *)

Definition norm (s : string) : string :=
  trim (collapse_spaces (strip_punct (toLowerCase (if nonempty s then s else "")))).

(** [this.geoCacheNorm[norm(key)] = this.geoCache[key]] *)
Definition index_step (idx : gmap string GeoEntry) (p : string * GeoEntry)
  : gmap string GeoEntry :=
  let '(key, e) := p in <[norm key := e]> idx.

Definition buildNormIndex (cache : GeoCache) : gmap string GeoEntry :=
  foldl index_step ∅ cache.

(** ** [seededRandom] *)

(** One turn of the loop: [h ^= c; h += (h << 1) + ... + (h << 24)]. *)
Definition hash_step (h : Z) (c : ascii) : Z :=
  let h := bitxor h (charCode c) in
  (h + ((((shl h 1 + shl h 4) + shl h 7) + shl h 8) + shl h 24))%Z.

(** [for (let i = 0; i < str.length; i++) { ... }] *)
Definition hash_loop (h : Z) (str : string) : Z :=
  foldl hash_step h (String.list_ascii_of_string str).

(** ** [getCityCoordinates]: the centroid table, as decimal literals *)
Definition getCityCoordinates : list (string * (Q * Q)) :=
  [
    ("Albuquerque", (35.0844, -106.6504));
    ("Albquerque", (35.0844, -106.6504));
    ("Santa Fe", (35.6870, -105.9378));
    ("Las Cruces", (32.3199, -106.7637));
    ("Roswell", (33.3943, -104.5230));
    ("Farmington", (36.7281, -108.2187));
    ("Clovis", (34.4048, -103.2052));
    ("Hobbs", (32.7426, -103.1372));
    ("Alamogordo", (32.8995, -105.9603));
    ("Carlsbad", (32.4207, -104.2288));
    ("Gallup", (35.5281, -108.7426));
    ("Las Vegas", (35.5939, -105.2230));
    ("Silver City", (32.7701, -108.2803));
    ("Los Alamos", (35.8781, -106.2978));
    ("Taos", (36.4073, -105.5731));
    ("Espanola", (35.9911, -106.0803));
    ("Rio Rancho", (35.2328, -106.6630));
    ("Deming", (32.2687, -107.7586));
    ("Grants", (35.1473, -107.8548));
    ("Socorro", (34.0582, -106.8906));
    ("Portales", (34.1862, -103.3538));
    ("Tucumcari", (35.1717, -103.7250));
    ("Truth or Consequences", (33.1284, -107.2528));
    ("Ruidoso", (33.3317, -105.6731));
    ("Artesia", (32.8426, -104.4028));
    ("Lovington", (32.9445, -103.3488));
    ("Belen", (34.6620, -106.7764));
    ("Los Lunas", (34.8064, -106.7331));
    ("Bernalillo", (35.3103, -106.5517));
    ("Corrales", (35.2317, -106.6142));
    ("Edgewood", (35.0654, -106.1964));
    ("Chaparral", (31.9135, -106.3839));
    ("Sunland Park", (31.7951, -106.5806));
    ("Anthony", (31.9979, -106.6011));
    ("Mesilla", (32.2723, -106.8006));
    ("Mesilla Park", (32.2840, -106.7614));
    ("Jal", (32.1126, -103.1921));
    ("Eunice", (32.4390, -103.1549));
    ("Clayton", (36.4556, -103.1893));
    ("Raton", (36.9042, -104.4394));
    ("Angel Fire", (36.4067, -105.2897));
    ("Red River", (36.7053, -105.4072));
    ("Questa", (36.7067, -105.5942));
    ("Chama", (36.9030, -106.5814));
    ("Aztec", (36.8381, -108.0009));
    ("Bloomfield", (36.7072, -107.9848));
    ("Kirtland", (36.7381, -108.3148));
    ("Cuba", (36.0311, -107.0936));
    ("Milan", (35.1750, -107.8889));
    ("White Rock", (35.8314, -106.2083));
    ("Alcalde", (36.0886, -106.0536));
    ("El Prado", (36.4406, -105.5689));
    ("Taos Ski Valley", (36.5928, -105.4467));
    ("Picuris Pueblo", (36.1892, -105.7578));
    ("Placitas", (35.3314, -106.5633));
    ("Los Ranchos", (35.1417, -106.6472));
    ("Bosque Farms", (34.8589, -106.7103));
    ("Peralta", (34.8203, -106.6931));
    ("Rio Communities", (34.6531, -106.7483));
    ("Cedar Crest", (35.1364, -106.3661));
    ("Moriarty", (35.0047, -106.0489));
    ("Estancia", (34.7592, -106.0517));
    ("Madrid", (35.2644, -106.1500));
    ("Pena Blanca", (35.5653, -106.3361));
    ("San Ysidro", (35.5214, -106.7789));
    ("Jemez Springs", (35.7739, -106.6917));
    ("Santa Rosa", (34.9381, -104.6836));
    ("Fort Sumner", (34.4725, -104.2436));
    ("Logan", (35.3586, -103.4189));
    ("Vaughn", (34.5931, -105.1703));
    ("Santa Teresa", (31.7901, -106.7019));
    ("Vado", (32.1162, -106.6603));
    ("Hatch", (32.6612, -107.1531));
    ("Arrey", (32.8292, -107.2758));
    ("Elephant Butte", (33.1470, -107.1858));
    ("Bayard", (32.7898, -108.1311));
    ("San Lorenzo", (32.8631, -108.1300));
    ("Columbus", (31.8281, -107.6411));
    ("Lordsburg", (32.3506, -108.7114));
    ("Tularosa", (33.0742, -105.9547));
    ("Cloudcroft", (32.9595, -105.7408));
    ("Ruidoso Downs", (33.3206, -105.6086));
    ("Carrizozo", (33.6431, -105.8769));
    ("Capitan", (33.5453, -105.5850));
    ("Alto", (33.3658, -105.6836));
    ("Loving", (32.2890, -103.9311));
    ("Tatum", (33.2531, -103.3155));
    ("Texico", (34.3925, -103.0497));
    ("Glenrio", (35.1856, -103.0419));
    ("Rodeo", (31.8356, -109.0311));
    ("Timberon", (32.6281, -105.6969));
    ("Yah Ta Hey", (35.6508, -108.7881));
    ("Mora", (36.0047, -105.3281));
    ("Eagle Nest", (36.5394, -105.2708))
  ]%Q.

(** The names every object inherits from [Object.prototype]: [cityCoords[c]]
    finds a truthy object under them, with no element [0] or [1]. *)
Definition Object_prototype_names : list string :=
  [ "constructor"; "__defineGetter__"; "__defineSetter__"; "hasOwnProperty";
    "__lookupGetter__"; "__lookupSetter__"; "isPrototypeOf";
    "propertyIsEnumerable"; "toString"; "valueOf"; "__proto__";
    "toLocaleString" ].

Fixpoint table_get (t : list (string * (Q * Q))) (name : string) : option (Q * Q) :=
  match t with
  | [] => None
  | (k, c) :: rest => if bool_decide (k = name) then Some c else table_get rest name
  end.

(** ** [createMiniSparkline]: the calls on the 2D context

    [Arc x y r] is [ctx.arc(x, y, r, 0, 2 * Math.PI)]. *)
Inductive canvas_op : Type :=
  | ClearRect (x y w h : number)
  | FillStyle (c : string)
  | StrokeStyle (c : string)
  | LineWidth (n : number)
  | BeginPath
  | Arc (x y r : number)
  | Fill
  | MoveTo (x y : number)
  | LineTo (x y : number)
  | Stroke.

(** What [document.getElementById(canvasId)] and [getContext('2d')] give. *)
Inductive canvas_lookup : Type :=
  | NoCanvas
  | NoContext
  | Context2D.

Section Methods.
Context `{Rounding} `{Builtins}.

Definition seededRandom (seed : string) : number :=
  let h := hash_loop (ushr0 2166136261) seed in
  js_div (of_int (ushr0 h)) (lit 4294967296).

(** ** [getStableJitter]; [scale] is [None] when the argument is omitted. *)
Definition getStableJitter (seed : string) (scale : option number) : number * number :=
  let scale := default (lit 0.01) scale in
  let r1 := seededRandom (seed +:+ ":lat") in
  let r2 := seededRandom (seed +:+ ":lng") in
  let half := js_div scale (lit 2) in
  (js_mul (js_sub r1 (lit 0.5)) scale, js_mul (js_sub r2 (lit 0.5)) scale).

(** ** [baseTrend] *)
Definition baseTrend (trend : value) : string :=
  if negb (truthy trend) then "stable"
  else
    let t := toLowerCase (ToString trend) in
    if includes t "up" then "up"
    else if includes t "down" then "down"
    else "stable".

(** ** [calculateStats]

    [stats[key]++] is [alter]: [baseTrend] returns one of the three keys of
    [stats] (lemma [baseTrend_cases]), so the key is always present. *)
Definition calculateStats (l : list Dispensary) : gmap string Z :=
  foldl (fun stats d =>
           let key := baseTrend d.(trend_direction) in
           alter Z.succ key stats)
        (<["up" := 0%Z]> (<["down" := 0%Z]> (<["stable" := 0%Z]> ∅))) l.

(** ** [applyFilters] *)

Definition dataSource (d : Dataset) : option (list Dispensary) :=
  match d.(locations_data) with
  | Some l => Some l
  | None => d.(dispensaries)
  end.

(** Lines 136-165: the four filters in turn. *)
Definition filterRecords (source : list Dispensary) (c : Controls) : list Dispensary :=
  let filtered := source in
  let searchTerm := toLowerCase c.(search) in
  let filtered :=
    if nonempty searchTerm
    then List.filter (fun d =>
           includes (toLowerCase d.(licensee)) searchTerm ||
           includes (toLowerCase d.(address)) searchTerm ||
           includes (toLowerCase d.(city)) searchTerm) filtered
    else filtered in
  let selectedRegion := c.(region_filter) in
  let filtered :=
    if nonempty selectedRegion
    then List.filter (fun d => strict_eq d.(region) (VStr selectedRegion)) filtered
    else filtered in
  let selectedCity := c.(city_filter) in
  let filtered :=
    if nonempty selectedCity
    then List.filter (fun d => bool_decide (d.(city) = selectedCity)) filtered
    else filtered in
  let trendFilter :=
    match c.(active_trend) with
    | Some t => t
    | None => VStr "all"
    end in
  let filtered :=
    if negb (strict_eq trendFilter (VStr "all"))
    then List.filter (fun d =>
           strict_eq (VStr (baseTrend d.(trend_direction))) trendFilter) filtered
    else filtered in
  filtered.

(** The method: nothing happens without [this.data]; spreading a missing
    source throws; otherwise [this.filteredData] is replaced.  The call of
    [updateDisplay] that ends the method redraws and is not modelled. *)
Definition applyFilters (st : State) (c : Controls) : outcome State :=
  match st.(data) with
  | None => Return st
  | Some d =>
      match dataSource d with
      | None => Throw "TypeError"
      | Some source =>
          Return {| data := st.(data);
                    filteredData := filterRecords source c;
                    geoCache := st.(geoCache);
                    geoCacheNorm := st.(geoCacheNorm) |}
      end
  end.

(** ** [updateMap]: the position of a marker (lines 267-336) *)

(** [cityCoords[city]] with the elements [0] and [1] of what it finds. *)
Definition cityCoords (name : string) : option (value * value) :=
  match table_get getCityCoordinates name with
  | Some (a, b) => Some (VNum (lit a), VNum (lit b))
  | None =>
      if bool_decide (name ∈ Object_prototype_names)
      then Some (VUndefined, VUndefined)
      else None
  end.

(** Lines 282-296 *)
Definition candidateKeys (d : Dispensary) : list string :=
  let addr := trim (if nonempty d.(address) then d.(address) else "") in
  let city := trim (if nonempty d.(city) then d.(city) else "") in
  let zip := d.(zip) in
  if nonempty addr && nonempty city then
    (addr +:+ ", " +:+ city) ::
    (if negb (is_nullish zip) then
       let zipStr := ToString zip in
       (addr +:+ ", " +:+ city +:+ " " +:+ zipStr) ::
       (if negb (includes zipStr ".")
        then [addr +:+ ", " +:+ city +:+ " " +:+ toFixed1 (ToNumber zip)]
        else [])
     else [])
  else [].

(** [hit && isFinite(hit.lat) && isFinite(hit.lng)], with the coordinates
    the loop then takes *)
Definition usable (hit : option GeoEntry) : option (value * value) :=
  match hit with
  | Some e =>
      if isFinite e.(lat) && isFinite e.(lng) then Some (e.(lat), e.(lng)) else None
  | None => None
  end.

(** [for (const key of candidates) { ... break; }]: the first usable hit *)
Fixpoint firstHit (lookup : string -> option GeoEntry) (keys : list string)
  : option (value * value) :=
  match keys with
  | [] => None
  | key :: rest =>
      match usable (lookup key) with
      | Some c => Some c
      | None => firstHit lookup rest
      end
  end.

Definition missing (lat lng : value) : bool := is_nullish lat || is_nullish lng.

(** Lines 271-278 *)
Definition explicitTier (d : Dispensary) (ll : value * value) : value * value :=
  if negb (is_nullish d.(latitude)) && negb (is_nullish d.(longitude)) then
    let latNum := parseFloat d.(latitude) in
    let lngNum := parseFloat d.(longitude) in
    if num_isFinite latNum && num_isFinite lngNum
    then (VNum latNum, VNum lngNum)
    else ll
  else ll.

(** Lines 281-323 *)
Definition cacheTier (st : State) (d : Dispensary) (ll : value * value) : value * value :=
  match st.(geoCache) with
  | Some cache =>
      if missing ll.1 ll.2 then
        let candidates := candidateKeys d in
        let ll :=
          match firstHit (cache_get cache) candidates with
          | Some hit => hit
          | None => ll
          end in
        match st.(geoCacheNorm) with
        | Some index =>
            if missing ll.1 ll.2 && negb (bool_decide (candidates = [])) then
              match firstHit (fun key => index !! norm key) candidates with
              | Some hit => hit
              | None => ll
              end
            else ll
        | None => ll
        end
      else ll
  | None => ll
  end.

(** [`${dispensary.address}|${dispensary.licensee}`] *)
Definition jitterSeed (d : Dispensary) : string :=
  d.(address) +:+ "|" +:+ d.(licensee).

(** Lines 326-336; [None] is the early [return] of a record that gets no
    marker. *)
Definition centroidTier (d : Dispensary) (ll : value * value) : option (value * value) :=
  if missing ll.1 ll.2 then
    match cityCoords d.(city) with
    | None => None
    | Some coords =>
        let jitter := getStableJitter (jitterSeed d) (Some (lit 0.004)) in
        Some (VNum (js_add (ToNumber coords.1) jitter.1),
              VNum (js_add (ToNumber coords.2) jitter.2))
    end
  else Some ll.

(** The [[lat, lng]] that the callback of [updateMap] gives to
    [L.circleMarker] for one record; [None] when the record gets no marker.
    The rest of the callback (style, popup, events) is not modelled. *)
Definition updateMap_position (st : State) (d : Dispensary) : option (value * value) :=
  centroidTier d (cacheTier st d (explicitTier d (VNull, VNull))).

(** ** [createMiniSparkline] *)

(** [d && d.month && d.total_sales !== undefined && d.total_sales !== null] *)
Definition validPoint (d : option MonthlyPoint) : bool :=
  match d with
  | Some p =>
      match p.(month) with Some m => nonempty m | None => false end
      && negb (strict_eq p.(total_sales) VUndefined)
      && negb (strict_eq p.(total_sales) VNull)
  | None => false
  end.

(** [d.month] and [d.total_sales] of a point that passed [validPoint] *)
Definition monthOf (d : option MonthlyPoint) : string :=
  match d with
  | Some p => default "" p.(month)
  | None => ""
  end.
Definition salesOf (d : option MonthlyPoint) : value :=
  match d with
  | Some p => p.(total_sales)
  | None => VUndefined
  end.

(** [(a, b) => a.month.localeCompare(b.month)] *)
Definition byMonth (a b : option MonthlyPoint) : Z :=
  localeCompare (monthOf a) (monthOf b).

(** [v => !isNaN(v) && v >= 0] *)
Definition plottable (v : value) : bool :=
  negb (isNaN v) && js_ge (ToNumber v) (lit 0).

(** Lines 550-553 *)
Definition sparklineValues (monthlyData : list (option MonthlyPoint)) : list value :=
  let sortedData := sort byMonth (List.filter validPoint monthlyData) in
  List.filter plottable (List.map salesOf sortedData).

Definition colors (trend : string) : string :=
  if bool_decide (trend = "up") then "#10b981"
  else if bool_decide (trend = "down") then "#ef4444"
  else "#f59e0b".

Definition createMiniSparkline (canvas : canvas_lookup)
    (monthlyData : list (option MonthlyPoint)) : list canvas_op :=
  match canvas with
  | NoCanvas | NoContext => []
  | Context2D =>
      let width := lit 100 in
      let height := lit 40 in
      let values := sparklineValues monthlyData in
      ClearRect (lit 0) (lit 0) (lit 100) (lit 40) ::
      if (length values <? 2)%nat then
        [ FillStyle "#999"; BeginPath;
          Arc (js_div width (lit 2)) (js_div height (lit 2)) (lit 3); Fill ]
      else
        let minValue := Math_min (List.map ToNumber values) in
        let maxValue := Math_max (List.map ToNumber values) in
        let range := js_sub maxValue minValue in
        if num_eqb range (lit 0) then
          [ StrokeStyle "#999"; LineWidth (lit 2); BeginPath;
            MoveTo (lit 5) (js_div height (lit 2));
            LineTo (js_sub width (lit 5)) (js_div height (lit 2)); Stroke ]
        else
          let firstValue := nth 0 values VUndefined in
          let lastValue := nth (length values - 1) values VUndefined in
          let trend :=
            if value_gt lastValue firstValue then "up"
            else if value_lt lastValue firstValue then "down"
            else "stable" in
          let padding := lit 5 in
          let drawWidth := js_sub width (js_mul padding (lit 2)) in
          let drawHeight := js_sub height (js_mul padding (lit 2)) in
          let yOf (v : value) :=
            js_add padding
              (js_sub drawHeight
                 (js_mul (js_div (js_sub (ToNumber v) minValue) range) drawHeight)) in
          [ StrokeStyle (colors trend); LineWidth (lit 2); BeginPath ] ++
          imap (fun index v =>
                  let x :=
                    js_add padding
                      (js_mul (js_div (of_int (Z.of_nat index))
                                 (js_sub (of_int (Z.of_nat (length values))) (lit 1)))
                         drawWidth) in
                  let y := yOf v in
                  match index with
                  | O => MoveTo x y
                  | S _ => LineTo x y
                  end) values ++
          [ Stroke; FillStyle (colors trend);
            BeginPath; Arc padding (yOf firstValue) (lit 2); Fill;
            BeginPath; Arc (js_add padding drawWidth) (yOf lastValue) (lit 2); Fill ]
  end.

(** ** Vocabulary of the specification *)

(** The label [baseTrend] inspects, and the bucket the specification gives
    a label. *)
Definition label (trend : value) : string := toLowerCase (ToString trend).

Definition bucket_of_label (t : string) : string :=
  if includes t "up" then "up"
  else if includes t "down" then "down"
  else "stable".

(** The number of records of [l] in the bucket [key]. *)
Definition tally (key : string) (l : list Dispensary) : Z :=
  Z.of_nat (length (List.filter
    (fun d => bool_decide (baseTrend d.(trend_direction) = key)) l)).

(** The four predicates of the filter pipeline; each passes every record
    when it is not active. *)
Definition trendFilterOf (c : Controls) : value :=
  match c.(active_trend) with
  | Some t => t
  | None => VStr "all"
  end.

Definition searchPredicate (c : Controls) (d : Dispensary) : bool :=
  let term := toLowerCase c.(search) in
  negb (nonempty term) ||
  (includes (toLowerCase d.(licensee)) term ||
   includes (toLowerCase d.(address)) term ||
   includes (toLowerCase d.(city)) term).

Definition regionPredicate (c : Controls) (d : Dispensary) : bool :=
  negb (nonempty c.(region_filter)) || strict_eq d.(region) (VStr c.(region_filter)).

Definition cityPredicate (c : Controls) (d : Dispensary) : bool :=
  negb (nonempty c.(city_filter)) || bool_decide (d.(city) = c.(city_filter)).

Definition trendPredicate (c : Controls) (d : Dispensary) : bool :=
  strict_eq (trendFilterOf c) (VStr "all") ||
  strict_eq (VStr (baseTrend d.(trend_direction))) (trendFilterOf c).

Definition keeps (c : Controls) (d : Dispensary) : bool :=
  searchPredicate c d && regionPredicate c d && cityPredicate c d && trendPredicate c d.


Definition withFiltered (st : State) (l : list Dispensary) : State :=
  {| data := st.(data); filteredData := l;
     geoCache := st.(geoCache); geoCacheNorm := st.(geoCacheNorm) |}.


(** A record has finite explicit coordinates. *)
Definition hasExplicit (d : Dispensary) : bool :=
  num_isFinite (parseFloat d.(latitude)) && num_isFinite (parseFloat d.(longitude)).

(** No candidate key of [d] has a usable entry, neither in the cache nor in
    the normalized index. *)
Definition noCacheHit (st : State) (d : Dispensary) : Prop :=
  forall cache, st.(geoCache) = Some cache ->
    Forall (fun key => usable (cache_get cache key) = None) (candidateKeys d) /\
    forall index, st.(geoCacheNorm) = Some index ->
      Forall (fun key => usable (index !! norm key) = None) (candidateKeys d).

(** The points of a series that the sparkline plots, and their months. *)
Definition goodPoint (d : option MonthlyPoint) : bool :=
  validPoint d && plottable (salesOf d).

Definition monthKeys (l : list (option MonthlyPoint)) : list string :=
  List.map monthOf (List.filter validPoint l).

(** [(a, b) => a.month] compared with [b.month] by code units. *)
Definition byMonthLex (a b : option MonthlyPoint) : Z :=
  lexCompare (monthOf a) (monthOf b).

(** The two degenerate drawings. *)
Definition centeredDot : list canvas_op :=
  [ ClearRect (lit 0) (lit 0) (lit 100) (lit 40);
    FillStyle "#999"; BeginPath;
    Arc (js_div (lit 100) (lit 2)) (js_div (lit 40) (lit 2)) (lit 3); Fill ].

Definition flatLine : list canvas_op :=
  [ ClearRect (lit 0) (lit 0) (lit 100) (lit 40);
    StrokeStyle "#999"; LineWidth (lit 2); BeginPath;
    MoveTo (lit 5) (js_div (lit 40) (lit 2));
    LineTo (js_sub (lit 100) (lit 5)) (js_div (lit 40) (lit 2)); Stroke ].

End Methods.

End TerritoryMap.

(* ===================================================================== *)
(** * Vocabulary of the further properties                                 *)
(* ===================================================================== *)

Module Views.
Import JS.

(** ** Strings as lists of code units

    The string functions of [norm] on the list of the code units of a
    string. *)

Definition is_punct (c : ascii) : bool := ((charCode c =? 46) || (charCode c =? 44))%Z.

Fixpoint squeezeL (in_run : bool) (l : list ascii) : list ascii :=
  match l with
  | [] => []
  | c :: l' =>
      if is_space c
      then (if in_run then squeezeL true l' else " "%char :: squeezeL true l')
      else c :: squeezeL false l'
  end.

Fixpoint trimStartL (l : list ascii) : list ascii :=
  match l with
  | [] => []
  | c :: l' => if is_space c then trimStartL l' else l
  end.

Definition trimL (l : list ascii) : list ascii :=
  rev (trimStartL (rev (trimStartL l))).

(** Lower case, then without '.' and ','. *)
Definition prepare (l : list ascii) : list ascii :=
  List.filter (fun c => negb (is_punct c)) (List.map lower_char l).

Definition normL (l : list ascii) : list ascii :=
  trimL (squeezeL false (prepare l)).

(** A list with no white space but single spaces, none at the head when
    [in_run]. *)
Fixpoint tidy (in_run : bool) (l : list ascii) : bool :=
  match l with
  | [] => true
  | c :: l' =>
      if is_space c
      then negb in_run && bool_decide (c = " "%char) && tidy true l'
      else tidy false l'
  end.

(** Nothing but white space. *)
Abbreviation spaces := (Forall (fun c : ascii => is_space c = true)).

Definition starts_clean (l : list ascii) : bool :=
  match l with
  | [] => true
  | c :: _ => negb (is_space c)
  end.


Definition strictlyBefore (a b : string) : Prop := String.le a b /\ a <> b.

(** ** FNV-1a on 32 bits

    The hash of Fowler, Noll and Vo: for every code unit, exclusive or, then
    the product with the prime 16777619 modulo [2^32]. *)
Definition fnv_prime : Z := 16777619.
Definition fnv_offset_basis : Z := 2166136261.
Definition fnv1a_step (h : Z) (c : ascii) : Z :=
  ((Z.lxor h (charCode c) * fnv_prime) mod 2 ^ 32)%Z.
Definition fnv1a (s : string) : Z :=
  foldl fnv1a_step fnv_offset_basis (String.list_ascii_of_string s).

(** A Number that is the integer [z]. *)
Definition integral (n : number) (z : Z) : Prop :=
  exists q, n = Num q /\ (q == inject_Z z)%Q.

End Views.

(* ===================================================================== *)
(** * The class [TerritoryMap]: loading, the selects, the marker style     *)
(* ===================================================================== *)

Module Session.
Import JS TerritoryMap.

(** ** The constructor: the fields before [init] runs (lines 7-13) *)
Definition constructor : State :=
  {| data := None; filteredData := []; geoCache := None; geoCacheNorm := None |}.

(** ** [loadData]

    What a [fetch] gives: the promise rejects with an error of the given
    message, or it resolves to a response with its [ok], its [status] and
    what its [json()] gives, the parsed document or a rejection with a
    message.  The main document is taken to be a JSON object.  The cache
    document is any JSON value: [Some] of its own enumerable properties, in
    the order [Object.keys] gives them, when it is truthy (an object, or
    an array or a string with its indices as keys; a number or [true] has
    no property), and [None] when it is falsy: [null], [false], [0] or the
    empty string. *)
Inductive fetched (A : Type) : Type :=
  | Rejected (message : string)
  | Response (ok : bool) (status : Z) (body : outcome A).
Arguments Rejected {A} message.
Arguments Response {A} ok status body.

(** Lines 39-59: the inner [try].  A rejected [fetch], a response that is
    not [ok] and a body that does not parse leave the two fields.  A parsed
    document is stored, the index is set to [{}] and then filled from the
    keys of the document; a falsy document has no keys ([Object.keys(null)]
    throws, into the inner [catch]), so that the cache is falsy, [None]
    here, and the index is empty. *)
Definition loadCache (st : State) (geo : fetched (option GeoCache)) : State :=
  match geo with
  | Response true _ (Return (Some cache)) =>
      {| data := st.(data); filteredData := st.(filteredData);
         geoCache := Some cache; geoCacheNorm := Some (buildNormIndex cache) |}
  | Response true _ (Return None) =>
      {| data := st.(data); filteredData := st.(filteredData);
         geoCache := None; geoCacheNorm := Some ∅ |}
  | _ => st
  end.

(** [showError(message)]: the text of the results line *)
Definition showError (message : string) : string := "Error: " +:+ message.

(** The method: the state it leaves, and the text [showError] wrote if the
    outer [catch] ran. *)
Definition loadData (st : State) (main : fetched Dataset)
    (geo : fetched (option GeoCache)) : State * option string :=
  let failed (st : State) (message : string) :=
    (st, Some (showError ("Failed to load dispensary data: " +:+ message))) in
  match main with
  | Rejected message => failed st message
  | Response false status _ =>
      failed st ("HTTP error! status: " +:+ Z_to_string status)
  | Response true _ (Throw message) => failed st message
  | Response true _ (Return document) =>
      let st := {| data := Some document; filteredData := st.(filteredData);
                   geoCache := st.(geoCache); geoCacheNorm := st.(geoCacheNorm) |} in
      let st := loadCache st geo in
      match document.(locations_data) with
      | Some l => (withFiltered st l, None)
      | None =>
          match document.(dispensaries) with
          | Some l => (withFiltered st l, None)
          | None => failed st "No dispensary locations found in data"
          end
      end
  end.

(** ** [populateFilters] *)

(** [[...new Set(l)]]: the elements of [l], each at its first place *)
Definition uniqueInOrder (l : list string) : list string :=
  foldl (fun seen x => if bool_decide (x ∈ seen) then seen else seen ++ [x]) [] l.

(** [city => city && city.trim() !== ''] *)
Definition namedCity (c : string) : bool :=
  nonempty c && negb (bool_decide (trim c = "")).

(** Lines 119-121; [sort()] without a comparison function orders strings
    by their code units. *)
Definition cityOptions (source : list Dispensary) : list string :=
  sort lexCompare (List.filter namedCity (uniqueInOrder (List.map city source))).

(** The options appended to the region select and to the city select;
    [regions] is [this.data.regions], [None] when it is missing.  The region
    options are in place when the missing source throws. *)
Definition populateFilters (st : State) (regions : option (list string))
  : list string * outcome (list string) :=
  match st.(data) with
  | None => ([], Return [])
  | Some d =>
      (default [] regions,
       match dataSource d with
       | Some source => Return (cityOptions source)
       | None => Throw "TypeError"
       end)
  end.

Section Style.
Context `{Rounding} `{Builtins}.

(** ** [updateMap]: the radius of a marker (lines 346-351) *)
Definition markerRadius (avg_monthly_sales : value) : number :=
  let minRadius := lit 4 in
  let maxRadius := lit 15 in
  let salesRange := lit 1000000 in
  let radius :=
    js_add minRadius
      (js_mul (js_div (ToNumber avg_monthly_sales) salesRange)
              (js_sub maxRadius minRadius)) in
  Math_min [maxRadius; Math_max [minRadius; radius]].

(** ** [createMiniSparkline]: the parts of the line

    The coordinates of a vertex (lines 601-602), for [count] plotted
    values. *)
Definition sparklineX (count index : nat) : number :=
  js_add (lit 5)
    (js_mul (js_div (of_int (Z.of_nat index))
                    (js_sub (of_int (Z.of_nat count)) (lit 1)))
            (js_sub (lit 100) (js_mul (lit 5) (lit 2)))).

Definition sparklineY (minValue range : number) (v : value) : number :=
  js_add (lit 5)
    (js_sub (js_sub (lit 40) (js_mul (lit 5) (lit 2)))
       (js_mul (js_div (js_sub (ToNumber v) minValue) range)
               (js_sub (lit 40) (js_mul (lit 5) (lit 2))))).

(** Lines 604-608 *)
Definition sparklineVertex (count : nat) (minValue range : number)
    (index : nat) (v : value) : canvas_op :=
  match index with
  | O => MoveTo (sparklineX count index) (sparklineY minValue range v)
  | S _ => LineTo (sparklineX count index) (sparklineY minValue range v)
  end.

(** The color of the line (lines 581-591) *)
Definition sparklineColor (values : list value) : string :=
  let firstValue := nth 0 values VUndefined in
  let lastValue := nth (length values - 1) values VUndefined in
  colors (if value_gt lastValue firstValue then "up"
          else if value_lt lastValue firstValue then "down"
          else "stable").

End Style.

Definition isLineTo (op : canvas_op) : Prop := exists x y, op = LineTo x y.

(** ** Vocabulary *)

(** [d] without its explicit coordinates. *)
Definition withoutCoordinates (d : Dispensary) : Dispensary :=
  {| licensee := d.(licensee); address := d.(address); city := d.(city);
     region := d.(region); latitude := VUndefined; longitude := VUndefined;
     zip := d.(zip); trend_direction := d.(trend_direction);
     monthly_data := d.(monthly_data) |}.


(** The city select alone is set. *)
Definition selecting (name : string) : Controls :=
  {| search := ""; region_filter := ""; city_filter := name; active_trend := None |}.

(** No filter is active. *)
Definition inactive : Controls :=
  {| search := ""; region_filter := ""; city_filter := ""; active_trend := None |}.

(** The index belongs to the cache: it is the one [loadData] builds from
    the cache when there is one, and it is missing or empty when there is
    none. *)
Definition indexed (st : State) : Prop :=
  match st.(geoCache) with
  | Some cache => st.(geoCacheNorm) = Some (buildNormIndex cache)
  | None => st.(geoCacheNorm) = None \/ st.(geoCacheNorm) = Some ∅
  end.

End Session.

(* ===================================================================== *)
(** * Sample inputs                                                        *)
(* ===================================================================== *)

Module Samples.
Import JS JS.Reference TerritoryMap.

Definition record (addr town : string) (la lo z : value) : Dispensary :=
  {| licensee := "Acme"; address := addr; city := town; region := VStr "North";
     latitude := la; longitude := lo; zip := z;
     trend_direction := VStr "strong_up"; monthly_data := [] |}.

Definition entry (a b : Q) : GeoEntry :=
  {| lat := VNum (Num a); lng := VNum (Num b) |}.

(** The state after [loadData] got the cache, or did not. *)
Definition state (cache : option GeoCache) : State :=
  {| data := None; filteredData := [];
     geoCache := cache; geoCacheNorm := option_map buildNormIndex cache |}.

Definition point (m : string) (v : value) : option MonthlyPoint :=
  Some {| month := Some m; total_sales := v |}.

(** A record with explicit coordinates, given as strings. *)
Definition located : Dispensary :=
  record "12 Main St" "Santa Fe" (VStr "35.5") (VStr "-106.25") VUndefined.

(** Records without coordinates: zip 87507, zip 87501, a ZIP+4 string, and
    an address of three spaces. *)
Definition unlocated : Dispensary :=
  record "12 Main St" "Santa Fe" VUndefined VNull (VNum (of_int 87507)).
Definition zipPlusFour : Dispensary :=
  record "12 Main St" "Santa Fe" VUndefined VUndefined (VStr "87507-1234").
Definition blankAddress : Dispensary :=
  record "   " "Santa Fe" VUndefined VUndefined (VNum (of_int 87507)).

Definition decoyCache : GeoCache :=
  [ ("12 Main St, Santa Fe", entry 1 2) ].


Definition decimalZipCache : GeoCache :=
  [ ("12 Main St, Santa Fe 87507.0", entry 35.6 (-105.9)) ].


Definition southern : Dispensary :=
  {| licensee := "Mesa"; address := "4 Elm St"; city := "Las Cruces";
     region := VStr "South"; latitude := VUndefined; longitude := VUndefined;
     zip := VUndefined; trend_direction := VStr "down"; monthly_data := [] |}.

Definition loaded : State :=
  {| data := Some {| locations_data := Some [unlocated; southern];
                     dispensaries := None |};
     filteredData := []; geoCache := None; geoCacheNorm := None |}.


Definition onePoint : list (option MonthlyPoint) :=
  [ point "2025-01" (VNum (Num 500)) ].
Definition constantSeries : list (option MonthlyPoint) :=
  [ point "2025-02" (VNum (Num 500)); point "2025-01" (VNum (Num 500));
    point "2025-03" (VNum (Num 500)) ].
Definition infiniteSeries : list (option MonthlyPoint) :=
  [ point "2025-01" (VNum PosInf); point "2025-02" (VNum PosInf) ].
Definition negativeSeries : list (option MonthlyPoint) :=
  [ point "2025-01" (VNum (Num (-5))); point "2025-02" (VNum (Num 700)) ].

(** Three months out of order, the middle one with negative sales. *)
Definition unorderedSeries : list (option MonthlyPoint) :=
  [ point "2025-03" (VNum (Num 700)); point "2025-02" (VNum (Num (-5)));
    point "2025-01" (VNum (Num 500)) ].

(** Months by name: in code units "Mar" is before "apr", in a locale
    "apr" is before "Mar". *)
Definition namedMonths : list (option MonthlyPoint) :=
  [ point "Mar" (VNum (Num 200)); point "apr" (VNum (Num 100)) ].

End Samples.

(** Inputs of the further properties. *)
Module MoreSamples.
Import JS JS.Reference TerritoryMap Session Samples.


(** A latitude that parses and a longitude that does not. *)
Definition halfLocated : Dispensary :=
  record "12 Main St" "Santa Fe" (VStr "35.5") (VStr "west") VUndefined.

(** A record of a city that the centroid table does not have. *)
Definition elsewhere : Dispensary :=
  record "1 Rim Rd" "Grand Canyon" VUndefined VUndefined VUndefined.

Definition searching : Controls :=
  {| search := "MAIN"; region_filter := ""; city_filter := ""; active_trend := None |}.

Definition trending (t : value) : Controls :=
  {| search := ""; region_filter := ""; city_filter := ""; active_trend := Some t |}.

(** A cache that writes the key of [unlocated] in capitals, with a dot. *)
Definition shoutedCache : GeoCache :=
  [ ("12 MAIN ST., SANTA FE", entry 35.6 (-105.9)) ].

(** A document with neither [locations] nor [dispensaries]. *)
Definition emptyDocument : Dataset :=
  {| locations_data := None; dispensaries := None |}.

Definition risingSeries : list (option MonthlyPoint) :=
  [ point "2025-01" (VNum (Num 500)); point "2025-02" (VNum (Num 700)) ].
Definition risingSeriesReversed : list (option MonthlyPoint) :=
  [ point "2025-02" (VNum (Num 700)); point "2025-01" (VNum (Num 500)) ].

End MoreSamples.

(* ===================================================================== *)
(** * Facts about the host language                                        *)
(* ===================================================================== *)

Module JSFacts.
Import JS.

Section Arith.
Context `{Rounding}.

Lemma Qle_bool_false (x y : Q) : (y < x)%Q -> Qle_bool x y = false.
Proof.
  intros L. destruct (Qle_bool x y) eqn:E; [|reflexivity].
  apply Qle_bool_iff in E. apply Qlt_not_le in L. contradiction.
Qed.

Lemma Qeq_bool_false (x y : Q) : ~ (x == y)%Q -> Qeq_bool x y = false.
Proof.
  intros N. destruct (Qeq_bool x y) eqn:E; [|reflexivity].
  apply Qeq_bool_eq in E. contradiction.
Qed.

Lemma of_exact_finite (q : Q) :
  (Qabs q < overflow_threshold)%Q -> of_exact q = Num (round q).
Proof. intros L. unfold of_exact. rewrite (Qle_bool_false _ _ L). reflexivity. Qed.

Lemma huge_lt_overflow : (huge < overflow_threshold)%Q.
Proof. reflexivity. Qed.

Lemma of_exact_bounded (q : Q) :
  (Qabs q <= huge)%Q -> of_exact q = Num (round q).
Proof.
  intros L. apply of_exact_finite.
  eapply Qle_lt_trans; [exact L | exact huge_lt_overflow].
Qed.

Lemma Qabs_inject_Z (z : Z) : Qabs (inject_Z z) = inject_Z (Z.abs z).
Proof. reflexivity. Qed.

Lemma lit_int (z : Z) :
  (Z.abs z <= 2 ^ 53)%Z ->
  exists q, lit (inject_Z z) = Num q /\ (q == inject_Z z)%Q.
Proof.
  intros B. exists (round (inject_Z z)). split.
  - apply of_exact_bounded. rewrite Qabs_inject_Z. unfold huge.
    rewrite <- Zle_Qle. lia.
  - apply round_exactZ. exact B.
Qed.

End Arith.

Section RoundingFacts.
Context `{Rounding}.



Lemma round_zero (x : Q) : (x == 0)%Q -> (round x == 0)%Q.
Proof.
  intros E. rewrite (round_proper _ _ E). apply (round_exactZ 0). lia.
Qed.




End RoundingFacts.

Section SortFacts.
Context {A : Type} (cmp : A -> A -> Z).

Local Abbreviation before := (before cmp).

Lemma insert_perm (x : A) (l : list A) : Permutation (insert cmp x l) (x :: l).
Proof.
  induction l as [|y l IH]; simpl; [reflexivity|].
  destruct (cmp x y <=? 0)%Z; [reflexivity|].
  rewrite IH. apply perm_swap.
Qed.

Lemma sort_perm (l : list A) : Permutation (sort cmp l) l.
Proof.
  induction l as [|x l IH]; simpl; [reflexivity|].
  rewrite insert_perm. constructor. exact IH.
Qed.

Lemma insert_head (x : A) (l : list A) :
  Forall (before x) l -> insert cmp x l = x :: l.
Proof.
  intros F. destruct F as [|y l B _]; [reflexivity|].
  simpl. unfold before in B. apply Z.leb_le in B. rewrite B. reflexivity.
Qed.

Hypothesis total : forall x y, before x y \/ before y x.
Hypothesis trans : forall x y z, before x y -> before y z -> before x z.

Lemma insert_sorted (x : A) (l : list A) :
  StronglySorted before l -> StronglySorted before (insert cmp x l).
Proof.
  induction 1 as [|y l S IH F]; simpl.
  - constructor; constructor.
  - destruct (Z.leb_spec (cmp x y) 0) as [L|G].
    + constructor; [constructor; assumption|].
      constructor; [exact L|].
      eapply Forall_impl; [exact F|]. intros z. apply trans. exact L.
    + constructor; [exact IH|].
      rewrite (insert_perm x l). constructor; [|exact F].
      destruct (total x y) as [B|B]; [unfold before in B; lia | exact B].
Qed.

Lemma sort_sorted (l : list A) : StronglySorted before (sort cmp l).
Proof.
  induction l as [|x l IH]; simpl; [constructor|].
  apply insert_sorted. exact IH.
Qed.

Lemma filter_insert (p : A -> bool) (x : A) (l : list A) :
  StronglySorted before l ->
  List.filter p (insert cmp x l) =
    if p x then insert cmp x (List.filter p l) else List.filter p l.
Proof.
  induction 1 as [|y l S IH F].
  - simpl. destruct (p x); reflexivity.
  - simpl insert. destruct (Z.leb_spec (cmp x y) 0) as [L|G].
    + change (List.filter p (x :: y :: l))
        with (if p x then x :: List.filter p (y :: l) else List.filter p (y :: l)).
      destruct (p x); [|reflexivity].
      symmetry. apply insert_head.
      apply List.Forall_forall. intros z Hz. apply filter_In in Hz. destruct Hz as [Hz _].
      destruct Hz as [<-|Hz]; [exact L|].
      rewrite List.Forall_forall in F. exact (trans _ _ _ L (F z Hz)).
    + simpl List.filter. rewrite IH.
      destruct (p x), (p y); try reflexivity.
      simpl insert. destruct (Z.leb_spec (cmp x y) 0); [lia | reflexivity].
Qed.

Lemma filter_sort (p : A -> bool) (l : list A) :
  List.filter p (sort cmp l) = sort cmp (List.filter p l).
Proof.
  induction l as [|x l IH]; [reflexivity|].
  simpl sort. rewrite filter_insert by apply sort_sorted.
  rewrite IH. simpl List.filter. destruct (p x); reflexivity.
Qed.

End SortFacts.

Section SortExt.
Context {A : Type} (cmp1 cmp2 : A -> A -> Z).

Lemma insert_ext_in (x : A) (l : list A) :
  (forall y, In y l -> (cmp1 x y <=? 0)%Z = (cmp2 x y <=? 0)%Z) ->
  insert cmp1 x l = insert cmp2 x l.
Proof.
  induction l as [|y l IH]; intros E; [reflexivity|].
  simpl. rewrite (E y (or_introl eq_refl)).
  destruct (cmp2 x y <=? 0)%Z; [reflexivity|].
  f_equal. apply IH. intros z Hz. apply E. right. exact Hz.
Qed.

Lemma sort_ext_in (l : list A) :
  (forall x y, In x l -> In y l -> (cmp1 x y <=? 0)%Z = (cmp2 x y <=? 0)%Z) ->
  sort cmp1 l = sort cmp2 l.
Proof.
  induction l as [|x l IH]; intros E; [reflexivity|].
  simpl. rewrite IH.
  - apply insert_ext_in. intros y Hy. apply E; [left; reflexivity|].
    right. apply (Permutation_in _ (sort_perm cmp2 l)). exact Hy.
  - intros a b Ha Hb. apply E; right; assumption.
Qed.

End SortExt.

Lemma lexCompare_le (a b : string) : (lexCompare a b <= 0)%Z <-> String.le a b.
Proof.
  unfold lexCompare, String.le, String.leb.
  destruct (String.compare a b); simpl; split; intros; try lia; try exact I; try contradiction.
Qed.

Lemma lexCompare_consistent : consistentComparator lexCompare.
Proof.
  split.
  - intros x y. unfold before. rewrite !lexCompare_le. apply (total String.le).
  - intros x y z. unfold before. rewrite !lexCompare_le. apply transitivity.
Qed.

(** The collation by letters is consistent too. *)
Lemma folding_consistent : consistentComparator Reference.folding_localeCompare.
Proof.
  destruct lexCompare_consistent as [T R]. split.
  - intros x y. apply T.
  - intros x y z. apply R.
Qed.

(** ** Binary64 rounding satisfies the laws of [Rounding] *)

Section Binary64Facts.
Import Binary64.
Local Open Scope Q_scope.

Lemma two_nonzero : ~ 2 == 0.
Proof. discriminate. Qed.

Lemma pow2_pos (e : Z) : 0 < 2 ^ e.
Proof. apply Qpower_0_lt. reflexivity. Qed.

Lemma pow2_add (a b : Z) : 2 ^ (a + b) == 2 ^ a * 2 ^ b.
Proof. apply Qpower_plus. exact two_nonzero. Qed.

Lemma pow2_Z (a : Z) : (0 <= a)%Z -> 2 ^ a == inject_Z (2 ^ a).
Proof. intros A. rewrite (Zpower_Qpower 2 a A). reflexivity. Qed.

Lemma pow2_succ (a : Z) : 2 ^ (a + 1) == 2 * 2 ^ a.
Proof. rewrite pow2_add. change (2 ^ 1) with 2. ring. Qed.

Lemma pow2_lt_inv (a b : Z) : 2 ^ a < 2 ^ b -> (a < b)%Z.
Proof. intros L. apply (Qpower_lt_compat_l_inv 2); [exact L | reflexivity]. Qed.

Lemma pow2_le (a b : Z) : (a <= b)%Z -> 2 ^ a <= 2 ^ b.
Proof. intros L. apply Qpower_le_compat_l; [exact L | discriminate]. Qed.

Lemma ilog2_spec (q : Q) : 0 < q -> 2 ^ ilog2 q <= q /\ q < 2 ^ (ilog2 q + 1).
Proof.
  intros Pq. unfold ilog2. destruct q as [n d]. cbn [Qnum Qden].
  assert (Hn : (0 < n)%Z) by (unfold Qlt in Pq; simpl in Pq; lia).
  set (a := Z.log2 n). set (b := Z.log2 (Z.pos d)).
  destruct (Z.log2_spec n Hn) as [A1 A2]. fold a in A1, A2.
  destruct (Z.log2_spec (Z.pos d) ltac:(lia)) as [B1 B2]. fold b in B1, B2.
  assert (A0 : (0 <= a)%Z) by apply Z.log2_nonneg.
  assert (B0 : (0 <= b)%Z) by apply Z.log2_nonneg.
  set (N := inject_Z n). set (D := inject_Z (Z.pos d)).
  assert (QD : (n # d) * D == N).
  { unfold D, N, Qeq, Qmult, inject_Z. simpl. lia. }
  assert (PA1 : 2 ^ a <= N).
  { rewrite (pow2_Z a A0). unfold N. rewrite <- Zle_Qle. exact A1. }
  assert (PA2 : N < 2 * 2 ^ a).
  { rewrite <- pow2_succ, (pow2_Z (a + 1)) by lia. unfold N.
    rewrite <- Zlt_Qlt. exact A2. }
  assert (PB1 : 2 ^ b <= D).
  { rewrite (pow2_Z b B0). unfold D. rewrite <- Zle_Qle. exact B1. }
  assert (PB2 : D < 2 * 2 ^ b).
  { rewrite <- pow2_succ, (pow2_Z (b + 1)) by lia. unfold D.
    rewrite <- Zlt_Qlt. exact B2. }
  pose proof (pow2_pos a) as Pa. pose proof (pow2_pos b) as Pb.
  pose proof (pow2_pos (a - b)) as Pe.
  assert (E : 2 ^ (a - b) * 2 ^ b == 2 ^ a).
  { rewrite <- pow2_add. replace (a - b + b)%Z with a by lia. reflexivity. }
  assert (DP : 0 < D) by lra.
  destruct (Qle_bool (2 ^ (a - b)) (n # d)) eqn:C.
  - apply Qle_bool_iff in C. split; [exact C|].
    rewrite pow2_succ.
    destruct (Qlt_le_dec (n # d) (2 * 2 ^ (a - b))) as [L|G]; [exact L|].
    exfalso.
    assert (2 * 2 ^ (a - b) * D <= (n # d) * D) by (apply Qmult_le_compat_r; lra).
    assert (2 * 2 ^ (a - b) * 2 ^ b <= 2 * 2 ^ (a - b) * D)
      by (apply Qmult_le_l; lra).
    lra.
  - assert (C' : (n # d) < 2 ^ (a - b)).
    { apply Qnot_le_lt. intros L. apply Qle_bool_iff in L. congruence. }
    replace (a - b - 1 + 1)%Z with (a - b)%Z by lia. split; [|exact C'].
    pose proof (pow2_pos (a - b - 1)) as Pm.
    assert (Em : 2 ^ (a - b) == 2 * 2 ^ (a - b - 1)).
    { rewrite <- pow2_succ. replace (a - b - 1 + 1)%Z with (a - b)%Z by lia. reflexivity. }
    destruct (Qlt_le_dec (n # d) (2 ^ (a - b - 1))) as [L|G]; [|exact G].
    exfalso.
    assert ((n # d) * D <= 2 ^ (a - b - 1) * D) by (apply Qmult_le_compat_r; lra).
    assert (2 ^ (a - b - 1) * D < 2 ^ (a - b - 1) * (2 * 2 ^ b))
      by (apply Qmult_lt_l; lra).
    assert (2 ^ (a - b - 1) * (2 * 2 ^ b) == 2 ^ a) by (rewrite <- E, Em; ring).
    lra.
Qed.

Lemma nearest_even_near (m : Q) : Qabs (inject_Z (nearest_even m) - m) <= 1 # 2.
Proof.
  unfold nearest_even.
  pose proof (Qfloor_le m) as F1. pose proof (Qlt_floor m) as F2.
  rewrite inject_Z_plus in F2. change (inject_Z 1) with 1 in F2.
  set (f := Qfloor m) in *.
  apply Qabs_Qle_condition.
  destruct (Qcompare (m - inject_Z f) (1 # 2)) eqn:C.
  - apply Qeq_alt in C. destruct (Z.even f).
    + lra.
    + rewrite inject_Z_plus. change (inject_Z 1) with 1. lra.
  - apply Qlt_alt in C. lra.
  - apply Qgt_alt in C. rewrite inject_Z_plus. change (inject_Z 1) with 1. lra.
Qed.

Lemma nearest_even_int (m : Q) (w : Z) : m == inject_Z w -> nearest_even m = w.
Proof.
  intros E. unfold nearest_even.
  rewrite (Qfloor_comp _ _ E), Qfloor_Z.
  assert (C : Qcompare (m - inject_Z w) (1 # 2) = Lt).
  { rewrite <- Qlt_alt. lra. }
  rewrite C. reflexivity.
Qed.

Lemma round64_proper (x y : Q) : x == y -> round64 x == round64 y.
Proof.
  intros E. unfold round64. rewrite (Qred_complete _ _ E). reflexivity.
Qed.

(** Away from zero and above the subnormal range, the result is the nearest
    multiple of the unit in the last place. *)
Lemma round64_normal (x : Q) :
  ~ x == 0 -> 2 ^ (-1022) <= Qabs x ->
  let e := ilog2 (Qabs (Qred x)) in
  2 ^ e <= Qabs x /\ Qabs x < 2 ^ (e + 1) /\
  round64 x == inject_Z (nearest_even (Qred x / 2 ^ (e - 52))) * 2 ^ (e - 52).
Proof.
  intros NZ L e.
  assert (R : Qred x == x) by apply Qred_correct.
  assert (PA : 0 < Qabs (Qred x)).
  { rewrite R. destruct (Qlt_le_dec 0 (Qabs x)) as [P|P]; [exact P|].
    exfalso. apply NZ. apply Qabs_Qle_condition in P. lra. }
  destruct (ilog2_spec _ PA) as [S1 S2]. fold e in S1, S2.
  rewrite R in S1, S2. split; [exact S1|]. split; [exact S2|].
  unfold round64. cbv zeta.
  assert (Z0 : Qeq_bool (Qred x) 0 = false).
  { destruct (Qeq_bool (Qred x) 0) eqn:C; [|reflexivity].
    apply Qeq_bool_eq in C. rewrite R in C. contradiction. }
  rewrite Z0. fold e.
  assert (M : Z.max e (-1022) = e).
  { apply Z.max_l.
    assert (2 ^ (-1022) < 2 ^ (e + 1)) by lra.
    apply pow2_lt_inv in H. lia. }
  rewrite M. apply Qred_correct.
Qed.

Lemma round64_error (x : Q) :
  1 # (2 ^ 64) <= Qabs x -> Qabs x <= inject_Z (2 ^ 64) ->
  Qabs (round64 x - x) <= Qabs x * (1 # (2 ^ 53)).
Proof.
  intros L U.
  assert (T : 2 ^ (-64) == 1 # (2 ^ 64)) by reflexivity.
  assert (NZ : ~ x == 0).
  { intros E. rewrite E in L. change (Qabs 0) with 0 in L.
    revert L. apply Qlt_not_le. reflexivity. }
  assert (L' : 2 ^ (-1022) <= Qabs x).
  { eapply Qle_trans; [|exact L]. rewrite <- T. apply pow2_le. lia. }
  destruct (round64_normal x NZ L') as (S1 & S2 & E).
  set (e := ilog2 (Qabs (Qred x))) in *.
  set (ulp := 2 ^ (e - 52)) in *.
  pose proof (pow2_pos (e - 52)) as Pu. fold ulp in Pu.
  set (k := nearest_even (Qred x / ulp)) in *.
  pose proof (nearest_even_near (Qred x / ulp)) as K. fold k in K.
  assert (R : Qred x == x) by apply Qred_correct.
  assert (D : round64 x - x == (inject_Z k - Qred x / ulp) * ulp).
  { rewrite E, R. field. lra. }
  rewrite D, Qabs_Qmult, (Qabs_pos ulp) by lra.
  assert (Eu : ulp * 2 ^ 53 == 2 * 2 ^ e).
  { unfold ulp. rewrite <- pow2_add, <- pow2_succ.
    replace (e - 52 + 53)%Z with (e + 1)%Z by lia. reflexivity. }
  assert (P53 : 2 ^ 53 == inject_Z (2 ^ 53)) by (apply pow2_Z; lia).
  assert (U53 : (1 # (2 ^ 53)) * 2 ^ 53 == 1).
  { rewrite P53. reflexivity. }
  pose proof (pow2_pos 53) as P53p. pose proof (pow2_pos e) as Pe.
  set (u := 1 # (2 ^ 53)) in *.
  assert (Up : 0 < u) by reflexivity.
  assert (Hu : ulp == 2 * 2 ^ e * u).
  { transitivity (ulp * (u * 2 ^ 53)).
    - rewrite U53. ring.
    - rewrite <- Eu. ring. }
  assert (K' : Qabs (inject_Z k - Qred x / ulp) * ulp <= (1 # 2) * ulp)
    by (apply Qmult_le_compat_r; lra).
  assert (X : 2 ^ e * u <= Qabs x * u) by (apply Qmult_le_compat_r; lra).
  lra.
Qed.

Lemma Qabs_scaled (z : Z) (j : Z) :
  Qabs (inject_Z z * 2 ^ j) == inject_Z (Z.abs z) * 2 ^ j.
Proof.
  pose proof (pow2_pos j) as P.
  rewrite Qabs_Qmult, (Qabs_pos (2 ^ j)) by lra.
  apply Qmult_comp; [|reflexivity].
  unfold Qabs, inject_Z. reflexivity.
Qed.

(** A significand below [2^53] at an exponent the format has is kept. *)
Lemma round64_scaled (x : Q) (z j : Z) :
  x == inject_Z z * 2 ^ j -> (Z.abs z < 2 ^ 53)%Z -> (-1074 <= j)%Z ->
  round64 x == x.
Proof.
  intros E B J.
  assert (R : Qred x == x) by apply Qred_correct.
  unfold round64. cbv zeta.
  destruct (Qeq_bool (Qred x) 0) eqn:Z0.
  { apply Qeq_bool_eq in Z0. rewrite <- R. symmetry. exact Z0. }
  assert (NZ : ~ Qred x == 0).
  { intros C. apply Qeq_bool_iff in C. congruence. }
  assert (Pz : (0 < Z.abs z)%Z).
  { destruct (Z.eq_dec z 0%Z) as [->|]; [|lia].
    exfalso. apply NZ. rewrite R, E. ring. }
  assert (PA : 0 < Qabs (Qred x)).
  { destruct (Qlt_le_dec 0 (Qabs (Qred x))) as [P|P]; [exact P|].
    exfalso. apply NZ. apply Qabs_Qle_condition in P. lra. }
  destruct (ilog2_spec _ PA) as [S1 _].
  set (a := ilog2 (Qabs (Qred x))) in *.
  assert (A : Qabs (Qred x) == inject_Z (Z.abs z) * 2 ^ j).
  { rewrite R, E. apply Qabs_scaled. }
  pose proof (pow2_pos j) as Pj.
  assert (La : (a < 53 + j)%Z).
  { apply pow2_lt_inv. rewrite pow2_add.
    assert (P53 : 2 ^ 53 == inject_Z (2 ^ 53)) by (apply pow2_Z; lia).
    rewrite P53.
    assert (I : inject_Z (Z.abs z) < inject_Z (2 ^ 53)) by (rewrite <- Zlt_Qlt; exact B).
    assert (M : inject_Z (Z.abs z) * 2 ^ j < inject_Z (2 ^ 53) * 2 ^ j)
      by (apply Qmult_lt_compat_r; assumption).
    lra. }
  set (e := Z.max a (-1022)).
  assert (Le : (0 <= 52 + j - e)%Z) by lia.
  set (d := (52 + j - e)%Z) in *.
  pose proof (pow2_pos (e - 52)) as Pu.
  assert (Ej : 2 ^ j == 2 ^ d * 2 ^ (e - 52)).
  { rewrite <- pow2_add. replace (d + (e - 52))%Z with j by lia. reflexivity. }
  assert (Ed : 2 ^ d == inject_Z (2 ^ d)) by (apply pow2_Z; exact Le).
  assert (Q : Qred x / 2 ^ (e - 52) == inject_Z (z * 2 ^ d)).
  { rewrite R, E, Ej, inject_Z_mult, <- Ed. field. lra. }
  rewrite (nearest_even_int _ _ Q), Qred_correct, inject_Z_mult, <- Ed, E, Ej.
  ring.
Qed.

Lemma round64_dyadic (x : Q) (z j : Z) :
  x == inject_Z z * 2 ^ j -> (Z.abs z <= 2 ^ 53)%Z -> (-1074 <= j)%Z ->
  round64 x == x.
Proof.
  intros E B J.
  destruct (Z.eq_dec (Z.abs z) (2 ^ 53)%Z) as [T|T].
  - assert (D : (z = 2 * (z / 2))%Z).
    { destruct (Z.abs_eq_or_opp z) as [A|A]; rewrite A in T.
      - rewrite T. reflexivity.
      - assert (z = - 2 ^ 53)%Z as -> by lia. reflexivity. }
    apply (round64_scaled x (z / 2) (j + 1)).
    + rewrite E, pow2_succ. rewrite D at 1. rewrite inject_Z_mult.
      change (inject_Z 2) with 2. ring.
    + destruct (Z.abs_eq_or_opp z) as [A|A]; rewrite A in T.
      * rewrite T. reflexivity.
      * assert (z = - 2 ^ 53)%Z as -> by lia. reflexivity.
    + lia.
  - apply (round64_scaled x z j); [exact E | lia | exact J].
Qed.

Lemma round64_exact (z : Z) (k : positive) :
  (Z.abs z <= 2 ^ 53)%Z -> (k <= 64)%positive ->
  round64 (z # (2 ^ k)) == z # (2 ^ k).
Proof.
  intros B K. apply (round64_dyadic _ z (- Z.pos k)); [|exact B|lia].
  assert (P : 2 ^ Z.pos k == inject_Z (Z.pos (2 ^ k))).
  { rewrite pow2_Z by lia. rewrite Pos2Z.inj_pow. reflexivity. }
  pose proof (pow2_pos (Z.pos k)) as Pk.
  assert (I : 2 ^ (- Z.pos k) == / 2 ^ Z.pos k) by apply Qpower_opp.
  rewrite I, P. unfold Qeq, Qmult, Qinv, inject_Z. simpl. lia.
Qed.

Lemma round64_exactZ (z : Z) :
  (Z.abs z <= 2 ^ 53)%Z -> round64 (inject_Z z) == inject_Z z.
Proof.
  intros B. apply (round64_dyadic _ z 0); [|exact B|lia].
  change (2 ^ 0) with 1. ring.
Qed.

End Binary64Facts.

(** IEEE 754 round-to-nearest as a host rounding. *)
Definition binary64_rounding : Rounding := {|
  round := Binary64.round64;
  round_proper := round64_proper;
  round_exact := round64_exact;
  round_exactZ := round64_exactZ;
  round_error := round64_error
|}.

End JSFacts.

(* ===================================================================== *)
(** * Properties of the class                                              *)
(* ===================================================================== *)

Module Properties.
Import JS TerritoryMap Session JSFacts.

Section Hash.
Context `{Rounding} `{Builtins}.

Lemma ushr0_range (z : Z) : (0 <= ushr0 z < 2 ^ 32)%Z.
Proof. unfold ushr0, ToUint32. apply Z.mod_pos_bound. lia. Qed.

Lemma ToInt32_range (z : Z) : (- 2 ^ 31 <= ToInt32 z < 2 ^ 31)%Z.
Proof.
  unfold ToInt32. pose proof (Z.mod_pos_bound (z + 2 ^ 31) (2 ^ 32) ltac:(lia)). lia.
Qed.

(** Every value the loop of [seededRandom] holds is an integer below
    [2^34] in magnitude: the Number arithmetic of the source is exact on
    them. *)
Lemma hash_step_bound (h : Z) (c : ascii) : (Z.abs (hash_step h c) < 2 ^ 34)%Z.
Proof.
  unfold hash_step, bitxor, shl. cbv zeta.
  set (x := Z.lxor _ _).
  pose proof (ToInt32_range x).
  pose proof (ToInt32_range (Z.shiftl (ToInt32 (ToInt32 x)) 1)).
  pose proof (ToInt32_range (Z.shiftl (ToInt32 (ToInt32 x)) 4)).
  pose proof (ToInt32_range (Z.shiftl (ToInt32 (ToInt32 x)) 7)).
  pose proof (ToInt32_range (Z.shiftl (ToInt32 (ToInt32 x)) 8)).
  pose proof (ToInt32_range (Z.shiftl (ToInt32 (ToInt32 x)) 24)).
  lia.
Qed.

Lemma hash_loop_bound (str : string) (h : Z) :
  (Z.abs h < 2 ^ 34)%Z -> (Z.abs (hash_loop h str) < 2 ^ 34)%Z.
Proof.
  unfold hash_loop. generalize (String.list_ascii_of_string str). intros l. revert h.
  induction l as [|c rest IH]; intros h B; [exact B|].
  simpl foldl. apply IH. apply hash_step_bound.
Qed.

Lemma seededRandom_value (seed : string) :
  exists q, seededRandom seed = Num q /\
            (q == ushr0 (hash_loop (ushr0 2166136261) seed) # (2 ^ 32))%Q.
Proof.
  unfold seededRandom. set (u := ushr0 (hash_loop _ seed)).
  pose proof (ushr0_range (hash_loop (ushr0 2166136261) seed)) as U. fold u in U.
  destruct (lit_int 4294967296) as (b & Eb & Hb); [lia|].
  change (lit 4294967296) with (lit (inject_Z 4294967296)). rewrite Eb.
  unfold js_div, of_int.
  assert (Q1 : (inject_Z u / b == u # (2 ^ 32))%Q).
  { rewrite Hb. unfold Qdiv, Qinv, Qmult, Qeq, inject_Z. simpl. lia. }
  rewrite Qeq_bool_false.
  2:{ rewrite Hb. discriminate. }
  exists (round (inject_Z u / b)). split.
  - apply of_exact_bounded. rewrite Q1.
    unfold Qabs, Qle, huge. simpl. lia.
  - rewrite (round_proper _ _ Q1). apply round_exact; lia.
Qed.

Lemma seededRandom_range (seed : string) :
  exists q, seededRandom seed = Num q /\ (0 <= q)%Q /\ (q < 1)%Q.
Proof.
  destruct (seededRandom_value seed) as (q & E & V).
  exists q. split; [exact E|]. rewrite V.
  pose proof (ushr0_range (hash_loop (ushr0 2166136261) seed)) as U.
  unfold Qle, Qlt. simpl. lia.
Qed.

End Hash.

Section Jitter.
Context `{Rounding} `{Builtins}.


Lemma js_sub_Num (x y : Q) : js_sub (Num x) (Num y) = of_exact (x + - y).
Proof. reflexivity. Qed.





End Jitter.

Section Resolution.
Context `{Rounding} `{Builtins}.

Lemma firstHit_none (lookup : string -> option GeoEntry) (keys : list string) :
  Forall (fun key => usable (lookup key) = None) keys -> firstHit lookup keys = None.
Proof.
  induction 1 as [|key keys E _ IH]; [reflexivity|].
  simpl. rewrite E. exact IH.
Qed.

Lemma firstHit_first (lookup : string -> option GeoEntry)
    (pre : list string) (key : string) (post : list string) (c : value * value) :
  Forall (fun k => usable (lookup k) = None) pre ->
  usable (lookup key) = Some c ->
  firstHit lookup (pre ++ key :: post) = Some c.
Proof.
  intros P K. induction P as [|k pre E _ IH]; simpl.
  - rewrite K. reflexivity.
  - rewrite E. exact IH.
Qed.

Lemma usable_finite (e : GeoEntry) (x y : Q) :
  e.(lat) = VNum (Num x) -> e.(lng) = VNum (Num y) ->
  usable (Some e) = Some (VNum (Num x), VNum (Num y)).
Proof. intros L G. unfold usable. rewrite L, G. reflexivity. Qed.

Lemma parseFloat_not_nullish (v : value) (q : Q) :
  parseFloat v = Num q -> is_nullish v = false.
Proof. destruct v; simpl; congruence. Qed.

Lemma explicitTier_finite (d : Dispensary) (a b : Q) :
  parseFloat d.(latitude) = Num a -> parseFloat d.(longitude) = Num b ->
  explicitTier d (VNull, VNull) = (VNum (Num a), VNum (Num b)).
Proof.
  intros A B. unfold explicitTier.
  rewrite (parseFloat_not_nullish _ _ A), (parseFloat_not_nullish _ _ B), A, B.
  reflexivity.
Qed.

Lemma explicitTier_none (d : Dispensary) :
  hasExplicit d = false -> explicitTier d (VNull, VNull) = (VNull, VNull).
Proof.
  unfold hasExplicit, explicitTier. intros ->.
  destruct (negb _ && negb _); reflexivity.
Qed.

Lemma cacheTier_skip (st : State) (d : Dispensary) (ll : value * value) :
  missing ll.1 ll.2 = false -> cacheTier st d ll = ll.
Proof.
  intros M. unfold cacheTier. rewrite M. destruct (geoCache st); reflexivity.
Qed.

Lemma cacheTier_noHit (st : State) (d : Dispensary) :
  noCacheHit st d -> cacheTier st d (VNull, VNull) = (VNull, VNull).
Proof.
  intros N. unfold cacheTier.
  destruct (geoCache st) as [cache|] eqn:C; [|reflexivity].
  destruct (N cache C) as [E I]. simpl missing. cbv iota.
  rewrite (firstHit_none _ _ E).
  destruct (geoCacheNorm st) as [index|] eqn:X; [|reflexivity].
  simpl missing. simpl andb.
  destruct (negb _); [|reflexivity].
  rewrite (firstHit_none _ _ (I index eq_refl)). reflexivity.
Qed.




Lemma cityCoords_table (name : string) (a b : Q) :
  table_get getCityCoordinates name = Some (a, b) ->
  cityCoords name = Some (VNum (lit a), VNum (lit b)).
Proof. intros E. unfold cityCoords. rewrite E. reflexivity. Qed.

(** C1.  A record whose latitude and longitude both parse to finite
    Numbers gets exactly these two Numbers as its marker position, whatever
    the geocode cache, the normalized index and the other fields of the
    state and of the record hold. *)
Theorem tier_priority (st : State) (d : Dispensary) (a b : Q) :
  parseFloat d.(latitude) = Num a ->
  parseFloat d.(longitude) = Num b ->
  updateMap_position st d = Some (VNum (Num a), VNum (Num b)).
Proof.
  intros A B. unfold updateMap_position.
  rewrite (explicitTier_finite d a b A B), cacheTier_skip by reflexivity.
  reflexivity.
Qed.



End Resolution.

Section Keys.
Context `{Rounding} `{Builtins}.

Lemma or_empty (s : string) : (if nonempty s then s else "") = s.
Proof. destruct s; reflexivity. Qed.

Lemma nonempty_true (s : string) : s <> "" -> nonempty s = true.
Proof. destruct s; [congruence | reflexivity]. Qed.

Lemma digits_no_dot (u : Decimal.uint) :
  includes (NilEmpty.string_of_uint u) "." = false.
Proof. induction u; simpl; try assumption; reflexivity. Qed.

Lemma Z_to_string_no_dot (z : Z) : includes (Z_to_string z) "." = false.
Proof.
  unfold Z_to_string, NilZero.string_of_int.
  destruct (Z.to_int z) as [u|u]; unfold NilZero.string_of_uint.
  - destruct u; try reflexivity; apply (digits_no_dot (_ u)).
  - destruct u; try reflexivity.
    all: change (includes (String "-" (NilEmpty.string_of_uint ?d)) ".")
      with (includes (NilEmpty.string_of_uint d) "."); apply digits_no_dot.
Qed.

Lemma NumberToString_int (z : Z) :
  (Z.abs z <= 2 ^ 53)%Z -> NumberToString (of_int z) = Z_to_string z.
Proof.
  intros B. unfold NumberToString, of_int, is_integer.
  rewrite Qfloor_Z.
  assert (E1 : Qeq_bool (inject_Z z) (inject_Z z) = true) by (apply Qeq_eq_bool; reflexivity).
  assert (E2 : Qle_bool (Qabs (inject_Z z)) (inject_Z (2 ^ 53)) = true).
  { apply Qle_bool_iff. rewrite Qabs_inject_Z, <- Zle_Qle. exact B. }
  rewrite E1, E2. reflexivity.
Qed.

Lemma toFixed1_int (z : Z) :
  (0 <= z <= 2 ^ 53)%Z -> toFixed1 (of_int z) = Z_to_string z +:+ ".0".
Proof.
  intros B. unfold toFixed1, of_int.
  assert (E1 : Qle_bool (inject_Z (10 ^ 21)) (Qabs (inject_Z z)) = false).
  { apply Qle_bool_false. rewrite Qabs_inject_Z, <- Zlt_Qlt. lia. }
  assert (E2 : Qle_bool 0 (inject_Z z) = true).
  { apply Qle_bool_iff. change 0%Q with (inject_Z 0). rewrite <- Zle_Qle. lia. }
  assert (E3 : Qfloor (Qabs (inject_Z z) * 10 + (1 # 2)) = (10 * z)%Z).
  { rewrite Qabs_inject_Z, Z.abs_eq by lia.
    unfold Qfloor, Qmult, Qplus, inject_Z. simpl Qnum. simpl Qden.
    symmetry. apply (Z.div_unique _ _ _ 1); lia. }
  rewrite E1, E2, E3.
  replace (10 * z / 10)%Z with z by (rewrite Z.mul_comm, Z.div_mul; lia).
  replace ((10 * z) mod 10)%Z with 0%Z.
  2:{ symmetry. rewrite Z.mul_comm. apply Z.mod_mul. lia. }
  reflexivity.
Qed.

Lemma digit_length (r : Z) : (0 <= r < 10)%Z -> String.length (Z_to_string r) = 1%nat.
Proof.
  intros B.
  assert (C : (r = 0 \/ r = 1 \/ r = 2 \/ r = 3 \/ r = 4 \/ r = 5 \/ r = 6 \/
               r = 7 \/ r = 8 \/ r = 9)%Z) by lia.
  repeat (destruct C as [->|C]; [reflexivity|]). subst r. reflexivity.
Qed.

(** [toFixed(1)] of a finite Number below [10^21] has exactly one digit
    after its only point. *)
Lemma toFixed1_shape (q : Q) :
  (Qabs q < inject_Z (10 ^ 21))%Q ->
  exists whole digit : string,
    toFixed1 (Num q) = whole +:+ "." +:+ digit /\
    String.length digit = 1%nat /\
    includes whole "." = false /\ includes digit "." = false.
Proof.
  intros B. unfold toFixed1. rewrite (Qle_bool_false _ _ B).
  set (m := Qfloor (Qabs q * 10 + (1 # 2))).
  exists ((if Qle_bool 0 q then "" else "-") +:+ Z_to_string (m / 10)),
         (Z_to_string (m mod 10)).
  split; [destruct (Qle_bool 0 q); reflexivity|].
  split; [apply digit_length; apply Z.mod_pos_bound; lia|].
  split; [|apply Z_to_string_no_dot].
  destruct (Qle_bool 0 q).
  - apply Z_to_string_no_dot.
  - change (includes ("-" +:+ Z_to_string (m / 10)) ".")
      with (includes (Z_to_string (m / 10)) "."). apply Z_to_string_no_dot.
Qed.

Lemma candidateKeys_three (d : Dispensary) :
  trim d.(address) <> "" -> trim d.(city) <> "" ->
  is_nullish d.(zip) = false ->
  includes (ToString d.(zip)) "." = false ->
  candidateKeys d =
    [ trim d.(address) +:+ ", " +:+ trim d.(city);
      trim d.(address) +:+ ", " +:+ trim d.(city) +:+ " " +:+ ToString d.(zip);
      trim d.(address) +:+ ", " +:+ trim d.(city) +:+ " " +:+ toFixed1 (ToNumber d.(zip)) ].
Proof.
  intros A C Z D. unfold candidateKeys.
  rewrite !or_empty, (nonempty_true _ A), (nonempty_true _ C), Z, D. reflexivity.
Qed.

Lemma exact_third_key (st : State) (d : Dispensary) (cache : GeoCache)
    (k1 k2 k3 : string) (e : GeoEntry) (x y : Q) :
  candidateKeys d = [k1; k2; k3] ->
  hasExplicit d = false ->
  st.(geoCache) = Some cache ->
  usable (cache_get cache k1) = None ->
  usable (cache_get cache k2) = None ->
  cache_get cache k3 = Some e ->
  e.(lat) = VNum (Num x) -> e.(lng) = VNum (Num y) ->
  updateMap_position st d = Some (VNum (Num x), VNum (Num y)).
Proof.
  intros K E C U1 U2 G La Ln. unfold updateMap_position.
  assert (F : firstHit (cache_get cache) [k1; k2; k3] = Some (VNum (Num x), VNum (Num y))).
  { simpl. rewrite U1, U2, G, (usable_finite e x y La Ln). reflexivity. }
  rewrite (explicitTier_none d E). unfold cacheTier. rewrite C, K, F.
  destruct (geoCacheNorm st); reflexivity.
Qed.

End Keys.

Section Index.
Context `{Rounding} `{Builtins}.




Lemma cacheTier_normalized (st : State) (d : Dispensary) (cache : GeoCache)
    (index : gmap string GeoEntry)
    (pre : list string) (key : string) (post : list string) (e : GeoEntry) (x y : Q) :
  st.(geoCache) = Some cache ->
  st.(geoCacheNorm) = Some index ->
  candidateKeys d = pre ++ key :: post ->
  Forall (fun k => usable (cache_get cache k) = None) (candidateKeys d) ->
  Forall (fun k => usable (index !! norm k) = None) pre ->
  index !! norm key = Some e ->
  e.(lat) = VNum (Num x) -> e.(lng) = VNum (Num y) ->
  cacheTier st d (VNull, VNull) = (VNum (Num x), VNum (Num y)).
Proof.
  intros C X K N P G La Ln. unfold cacheTier. rewrite C, X.
  rewrite (firstHit_none _ _ N). rewrite K.
  rewrite (firstHit_first (fun k => index !! norm k) pre key post
             (VNum (Num x), VNum (Num y)) P).
  2:{ rewrite G. exact (usable_finite e x y La Ln). }
  simpl missing. cbv iota.
  rewrite bool_decide_eq_false_2; [reflexivity|].
  destruct pre; discriminate.
Qed.

Lemma position_of_cacheTier (st : State) (d : Dispensary) (x y : Q) :
  hasExplicit d = false ->
  cacheTier st d (VNull, VNull) = (VNum (Num x), VNum (Num y)) ->
  updateMap_position st d = Some (VNum (Num x), VNum (Num y)).
Proof.
  intros E C. unfold updateMap_position.
  rewrite (explicitTier_none d E), C. reflexivity.
Qed.

End Index.


Section Trend.
Context `{Rounding} `{Builtins}.

Lemma Qeq_bool_zero_floor (q : Q) : Qeq_bool q 0 = true -> Qfloor q = 0%Z.
Proof.
  intros E. apply Qeq_bool_eq in E. rewrite (Qfloor_comp _ _ E). reflexivity.
Qed.

Lemma NumberToString_zero (q : Q) :
  Qeq_bool q 0 = true -> NumberToString (Num q) = "0".
Proof.
  intros E. pose proof (Qeq_bool_zero_floor q E) as F.
  apply Qeq_bool_eq in E.
  unfold NumberToString, is_integer. rewrite F.
  assert (E1 : Qeq_bool (inject_Z 0) q = true).
  { apply Qeq_eq_bool. rewrite E. reflexivity. }
  assert (E2 : Qle_bool (Qabs q) (inject_Z (2 ^ 53)) = true).
  { apply Qle_bool_iff. rewrite E. discriminate. }
  rewrite E1, E2. reflexivity.
Qed.

Lemma baseTrend_label (trend : value) : baseTrend trend = bucket_of_label (label trend).
Proof.
  unfold baseTrend, bucket_of_label, label.
  destruct trend as [| |[|]|[| | |q]|s]; try reflexivity.
  - simpl truthy. destruct (Qeq_bool q 0) eqn:E; [|reflexivity].
    simpl negb. cbv iota. unfold ToString. rewrite (NumberToString_zero q E). reflexivity.
  - destruct s; reflexivity.
Qed.

Lemma baseTrend_cases (trend : value) :
  baseTrend trend = "up" \/ baseTrend trend = "down" \/ baseTrend trend = "stable".
Proof.
  rewrite baseTrend_label. unfold bucket_of_label.
  destruct (includes _ "up"); [auto|]. destruct (includes _ "down"); auto.
Qed.

Lemma tally_step (m : gmap string Z) (l : list Dispensary) (key : string) (n : Z) :
  m !! key = Some n ->
  foldl (fun stats d => alter Z.succ (baseTrend d.(trend_direction)) stats) m l !! key
  = Some (n + tally key l)%Z.
Proof.
  revert m n. induction l as [|d l IH]; intros m n Hm.
  - simpl. rewrite Hm. f_equal. unfold tally. simpl. lia.
  - simpl foldl. unfold tally. simpl List.filter.
    destruct (bool_decide_reflect (baseTrend (trend_direction d) = key)) as [E|E].
    + rewrite (IH _ (Z.succ n)).
      * f_equal. unfold tally. simpl length. lia.
      * rewrite E, lookup_alter_eq, Hm. reflexivity.
    + rewrite (IH _ n).
      * reflexivity.
      * rewrite lookup_alter_ne by exact E. exact Hm.
Qed.

Lemma calculateStats_tally (l : list Dispensary) (key : string) :
  key = "up" \/ key = "down" \/ key = "stable" ->
  calculateStats l !! key = Some (tally key l).
Proof.
  intros K. unfold calculateStats.
  rewrite (tally_step _ l key 0%Z).
  - f_equal.
  - destruct K as [->|[->| ->]]; reflexivity.
Qed.

Lemma tally_total (l : list Dispensary) :
  (tally "up" l + tally "down" l + tally "stable" l = Z.of_nat (length l))%Z.
Proof.
  unfold tally. induction l as [|d l IH]; [reflexivity|].
  simpl List.filter.
  destruct (baseTrend_cases (trend_direction d)) as [E|[E|E]]; rewrite E;
    simpl bool_decide; cbn [length]; lia.
Qed.

End Trend.

Section Filters.
Context `{Rounding} `{Builtins}.

Lemma filter_if {A : Type} (b : bool) (f : A -> bool) (l : list A) :
  (if b then List.filter f l else l) = List.filter (fun x => negb b || f x) l.
Proof.
  destruct b; simpl; [reflexivity|].
  induction l as [|x l IH]; simpl; congruence.
Qed.

Lemma filter_twice {A : Type} (f g : A -> bool) (l : list A) :
  List.filter f (List.filter g l) = List.filter (fun x => g x && f x) l.
Proof.
  induction l as [|x l IH]; simpl; [reflexivity|].
  destruct (g x); simpl; [destruct (f x)|]; congruence.
Qed.

Lemma filterRecords_keeps (source : list Dispensary) (c : Controls) :
  filterRecords source c = List.filter (keeps c) source.
Proof.
  unfold filterRecords. cbv zeta. fold (trendFilterOf c).
  rewrite !filter_if, !filter_twice.
  apply filter_ext. intros d.
  unfold keeps, searchPredicate, regionPredicate, cityPredicate, trendPredicate.
  rewrite negb_involutive, !andb_assoc. reflexivity.
Qed.





End Filters.

Section Determinism.
Context `{Rounding} `{Builtins}.

(** C3.  Equal arguments give equal jitter pairs and equal random values,
    and the random value of every seed is a Number in [0, 1). *)
Theorem jitter_determinism (seed seed' : string) (scale scale' : option number) :
  seed = seed' -> scale = scale' ->
  getStableJitter seed scale = getStableJitter seed' scale' /\
  seededRandom seed = seededRandom seed' /\
  exists q, seededRandom seed = Num q /\ (0 <= q)%Q /\ (q < 1)%Q.
Proof.
  intros <- <-. split; [reflexivity|]. split; [reflexivity|].
  apply seededRandom_range.
Qed.

End Determinism.

Section TrendClaims.
Context `{Rounding} `{Builtins}.

(** C7.  [baseTrend] buckets a value by its lower-cased label: "up" when
    the label contains "up", else "down" when it contains "down", else
    "stable"; the named labels and the absent and empty ones fall as the
    specification says; and [calculateStats] counts, under each of the three
    keys, the records that [baseTrend] puts there. *)
Theorem coarse_bucket_mapping :
  (forall trend : value,
      baseTrend trend =
        if includes (label trend) "up" then "up"
        else if includes (label trend) "down" then "down"
        else "stable") /\
  baseTrend (VStr "strong_up") = "up" /\
  baseTrend (VStr "up") = "up" /\
  baseTrend (VStr "strong_down") = "down" /\
  baseTrend (VStr "down") = "down" /\
  baseTrend (VStr "insufficient_data") = "stable" /\
  baseTrend (VStr "stable") = "stable" /\
  baseTrend VUndefined = "stable" /\
  baseTrend VNull = "stable" /\
  baseTrend (VStr "") = "stable" /\
  (forall l : list Dispensary,
      calculateStats l !! "up" = Some (tally "up" l) /\
      calculateStats l !! "down" = Some (tally "down" l) /\
      calculateStats l !! "stable" = Some (tally "stable" l)).
Proof.
  split; [exact baseTrend_label|].
  repeat (split; [reflexivity|]).
  intros l. repeat split; apply calculateStats_tally; auto.
Qed.

(** C9.  [baseTrend] gives every value, the missing, empty and unrecognized
    ones included, one of the three buckets; the three counts of
    [calculateStats] are present, and they add up to the number of
    records. *)
Theorem trend_count_partition :
  (forall trend : value,
      baseTrend trend = "up" \/ baseTrend trend = "down" \/ baseTrend trend = "stable") /\
  (forall l : list Dispensary,
      exists up down stable : Z,
        calculateStats l !! "up" = Some up /\
        calculateStats l !! "down" = Some down /\
        calculateStats l !! "stable" = Some stable /\
        (0 <= up)%Z /\ (0 <= down)%Z /\ (0 <= stable)%Z /\
        (up + down + stable)%Z = Z.of_nat (length l)).
Proof.
  split; [exact baseTrend_cases|]. intros l.
  exists (tally "up" l), (tally "down" l), (tally "stable" l).
  repeat split; try (apply calculateStats_tally; auto);
    try (unfold tally; lia).
  apply tally_total.
Qed.

End TrendClaims.

Section Sparkline.
Context `{Rounding} `{Builtins}.

Lemma lit_zero : exists z, lit 0 = Num z /\ (z == 0)%Q.
Proof. exact (lit_int 0 ltac:(lia)). Qed.

Lemma num_eqb_Qeq (a b : Q) : (a == b)%Q -> num_eqb (Num a) (Num b) = true.
Proof.
  intros E. unfold num_eqb, num_compare.
  apply Qeq_alt in E. rewrite E. reflexivity.
Qed.

Lemma js_ge_negative (q : Q) : (q < 0)%Q -> js_ge (Num q) (lit 0) = false.
Proof.
  intros L. destruct lit_zero as (z & -> & Z).
  unfold js_ge, num_compare.
  assert (C : (q ?= z)%Q = Lt) by (apply Qlt_alt; rewrite Z; exact L).
  rewrite C. reflexivity.
Qed.

(** A finite maximum equal to the minimum gives the range zero. *)
Lemma range_zero (m n : Q) :
  (m == n)%Q -> num_eqb (js_sub (Num m) (Num n)) (lit 0) = true.
Proof.
  intros E. destruct lit_zero as (z & -> & Z). rewrite js_sub_Num.
  assert (D : (m + - n == 0)%Q) by (rewrite E; ring).
  rewrite of_exact_bounded by (rewrite D; discriminate).
  apply num_eqb_Qeq. rewrite (round_zero _ D), Z. reflexivity.
Qed.

Lemma createMiniSparkline_dot (series : list (option MonthlyPoint)) :
  (length (sparklineValues series) < 2)%nat ->
  createMiniSparkline Context2D series = centeredDot.
Proof.
  intros L. unfold createMiniSparkline. cbv zeta.
  apply Nat.ltb_lt in L. rewrite L. reflexivity.
Qed.

Lemma createMiniSparkline_flat (series : list (option MonthlyPoint)) :
  (2 <= length (sparklineValues series))%nat ->
  num_eqb (js_sub (Math_max (List.map ToNumber (sparklineValues series)))
                  (Math_min (List.map ToNumber (sparklineValues series))))
          (lit 0) = true ->
  createMiniSparkline Context2D series = flatLine.
Proof.
  intros L R. unfold createMiniSparkline. cbv zeta.
  assert (L' : (length (sparklineValues series) <? 2)%nat = false)
    by (apply Nat.ltb_ge; exact L).
  rewrite L', R. reflexivity.
Qed.

(** An exact integer result is that integer. *)
Lemma of_exact_int (q : Q) (z : Z) :
  (q == inject_Z z)%Q -> (Z.abs z <= 2 ^ 53)%Z ->
  exists r, of_exact q = Num r /\ (r == inject_Z z)%Q.
Proof.
  intros E B. exists (round q). split.
  - apply of_exact_bounded. rewrite E, Qabs_inject_Z. unfold huge.
    rewrite <- Zle_Qle. lia.
  - rewrite (round_proper _ _ E). apply round_exactZ. exact B.
Qed.

Lemma canvas_geometry :
  exists cx cy p q : Q,
    js_div (lit 100) (lit 2) = Num cx /\ (cx == 50)%Q /\
    js_div (lit 40) (lit 2) = Num cy /\ (cy == 20)%Q /\
    lit 5 = Num p /\ (p == 5)%Q /\
    js_sub (lit 100) (lit 5) = Num q /\ (q == 95)%Q.
Proof.
  destruct (lit_int 100 ltac:(lia)) as (w & Ew & Hw).
  destruct (lit_int 40 ltac:(lia)) as (h & Eh & Hh).
  destruct (lit_int 2 ltac:(lia)) as (two & E2 & H2).
  destruct (lit_int 5 ltac:(lia)) as (p & Ep & Hp).
  change (lit 100) with (lit (inject_Z 100)). change (lit 40) with (lit (inject_Z 40)).
  change (lit 2) with (lit (inject_Z 2)). change (lit 5) with (lit (inject_Z 5)).
  rewrite Ew, Eh, E2, Ep. unfold js_div. rewrite js_sub_Num.
  rewrite (Qeq_bool_false two 0) by (rewrite H2; discriminate).
  destruct (of_exact_int (w / two) 50) as (cx & Ex & Hx); [rewrite Hw, H2; reflexivity | lia |].
  destruct (of_exact_int (h / two) 20) as (cy & Ey & Hy); [rewrite Hh, H2; reflexivity | lia |].
  destruct (of_exact_int (w + - p) 95) as (q & Eq & Hq); [rewrite Hw, Hp; reflexivity | lia |].
  exists cx, cy, p, q. rewrite Ex, Ey, Eq. repeat split; assumption.
Qed.

Lemma filter_length_perm {A : Type} (f : A -> bool) (l l' : list A) :
  Permutation l l' -> length (List.filter f l) = length (List.filter f l').
Proof.
  induction 1 as [|x l l' _ IH|x y l|l l' l'' _ IH1 _ IH2]; simpl.
  - reflexivity.
  - destruct (f x); simpl; congruence.
  - destruct (f x), (f y); reflexivity.
  - congruence.
Qed.

Lemma sparklineValues_length (series : list (option MonthlyPoint)) :
  length (sparklineValues series) = length (List.filter goodPoint series).
Proof.
  unfold sparklineValues. cbv zeta.
  rewrite filter_map_swap, length_map.
  rewrite (filter_length_perm _ _ _ (sort_perm byMonth _)).
  rewrite filter_twice. reflexivity.
Qed.

Lemma goodPoint_negative (d : option MonthlyPoint) (q : Q) :
  salesOf d = VNum (Num q) -> (q < 0)%Q -> goodPoint d = false.
Proof.
  intros S L. unfold goodPoint, plottable. rewrite S. simpl ToNumber.
  rewrite (js_ge_negative q L), !andb_false_r. reflexivity.
Qed.

Lemma strict_eq_undefined (v : value) : strict_eq v VUndefined = false <-> v <> VUndefined.
Proof. destruct v; simpl; split; congruence. Qed.

Lemma strict_eq_null (v : value) : strict_eq v VNull = false <-> v <> VNull.
Proof. destruct v; simpl; split; congruence. Qed.

Lemma nonempty_iff (s : string) : nonempty s = true <-> s <> "".
Proof. destruct s; simpl; split; congruence. Qed.

Lemma goodPoint_spec (d : option MonthlyPoint) :
  goodPoint d = true <->
  exists p m, d = Some p /\ p.(month) = Some m /\ m <> "" /\
              p.(total_sales) <> VUndefined /\ p.(total_sales) <> VNull /\
              isNaN p.(total_sales) = false /\
              js_ge (ToNumber p.(total_sales)) (lit 0) = true.
Proof.
  unfold goodPoint, validPoint, plottable. split.
  - destruct d as [p|]; [|discriminate]. simpl salesOf.
    destruct (month p) as [m|] eqn:M; [|discriminate].
    rewrite !andb_true_iff, !negb_true_iff, nonempty_iff, strict_eq_undefined, strict_eq_null.
    intros [[[? ?] ?] [? ?]]. exists p, m. repeat split; assumption.
  - intros (p & m & -> & M & N & U & L & I & G). simpl salesOf. rewrite M.
    rewrite !andb_true_iff, !negb_true_iff, nonempty_iff, strict_eq_undefined, strict_eq_null.
    repeat split; assumption.
Qed.

Lemma byMonth_before (a b : option MonthlyPoint) :
  before byMonthLex a b <-> String.le (monthOf a) (monthOf b).
Proof. apply lexCompare_le. Qed.

Lemma byMonthLex_total (a b : option MonthlyPoint) :
  before byMonthLex a b \/ before byMonthLex b a.
Proof. rewrite !byMonth_before. apply (total String.le). Qed.

Lemma byMonthLex_trans (a b c : option MonthlyPoint) :
  before byMonthLex a b -> before byMonthLex b c -> before byMonthLex a c.
Proof. rewrite !byMonth_before. apply transitivity. Qed.

Lemma sparklineValues_lex (series : list (option MonthlyPoint)) :
  (forall a b, In a (monthKeys series) -> In b (monthKeys series) ->
     (localeCompare a b <=? 0)%Z = (lexCompare a b <=? 0)%Z) ->
  sparklineValues series =
    List.map salesOf (sort byMonthLex (List.filter goodPoint series)).
Proof.
  intros E. unfold sparklineValues. cbv zeta.
  rewrite (sort_ext_in byMonth byMonthLex).
  2:{ intros x y Hx Hy. apply E; apply in_map; assumption. }
  rewrite filter_map_swap. f_equal.
  rewrite (filter_sort byMonthLex byMonthLex_total byMonthLex_trans).
  rewrite filter_twice. reflexivity.
Qed.

Lemma filter_perm {A : Type} (f : A -> bool) (l l' : list A) :
  Permutation l l' -> Permutation (List.filter f l) (List.filter f l').
Proof.
  induction 1 as [|x l l' P IH|x y l|l l' l'' P1 IH1 P2 IH2]; simpl.
  - constructor.
  - destruct (f x); [constructor|]; exact IH.
  - destruct (f x), (f y); try reflexivity. apply perm_swap.
  - exact (Permutation_trans IH1 IH2).
Qed.

Lemma goodPoint_filter (l : list (option MonthlyPoint)) :
  List.filter goodPoint (List.filter validPoint l) = List.filter goodPoint l.
Proof.
  rewrite filter_twice. apply filter_ext. intros d.
  unfold goodPoint. destruct (validPoint d); reflexivity.
Qed.

(** The values come from the points that pass both filters, in the order
    the sort gave the points. *)
Lemma sparklineValues_plotted (series : list (option MonthlyPoint)) :
  sparklineValues series =
    List.map salesOf
      (List.filter goodPoint (sort byMonth (List.filter validPoint series))).
Proof.
  unfold sparklineValues. cbv zeta. rewrite filter_map_swap. f_equal.
  apply filter_ext_in. intros d I.
  apply (Permutation_in _ (sort_perm byMonth _)) in I.
  apply filter_In in I as [_ V]. unfold goodPoint. rewrite V. reflexivity.
Qed.

Lemma plotted_perm (series : list (option MonthlyPoint)) :
  Permutation (List.filter goodPoint (sort byMonth (List.filter validPoint series)))
              (List.filter goodPoint series).
Proof.
  rewrite <- (goodPoint_filter series). apply filter_perm, sort_perm.
Qed.

Lemma byMonth_consistent :
  consistentComparator localeCompare -> consistentComparator byMonth.
Proof.
  intros [T R]. split.
  - intros x y. apply T.
  - intros x y z. apply R.
Qed.

(** With a consistent comparison the sort and the second filter commute. *)
Lemma plotted_sorted (series : list (option MonthlyPoint)) :
  consistentComparator localeCompare ->
  List.filter goodPoint (sort byMonth (List.filter validPoint series)) =
    sort byMonth (List.filter goodPoint series).
Proof.
  intros C. destruct (byMonth_consistent C) as [T R].
  rewrite (filter_sort byMonth T R). rewrite goodPoint_filter. reflexivity.
Qed.

Lemma plotted_lex (series : list (option MonthlyPoint)) :
  (forall a b, In a (monthKeys series) -> In b (monthKeys series) ->
     (localeCompare a b <=? 0)%Z = (lexCompare a b <=? 0)%Z) ->
  List.filter goodPoint (sort byMonth (List.filter validPoint series)) =
    sort byMonthLex (List.filter goodPoint series).
Proof.
  intros E. rewrite (sort_ext_in byMonth byMonthLex).
  2:{ intros x y Hx Hy. apply E; apply in_map; assumption. }
  rewrite (filter_sort byMonthLex byMonthLex_total byMonthLex_trans).
  rewrite goodPoint_filter. reflexivity.
Qed.

(** The drawing of at least two values with a range that is not zero: one
    vertex for each value. *)
Lemma createMiniSparkline_polyline (series : list (option MonthlyPoint)) :
  let values := sparklineValues series in
  let minValue := Math_min (List.map ToNumber values) in
  let range := js_sub (Math_max (List.map ToNumber values)) minValue in
  (2 <= length values)%nat ->
  num_eqb range (lit 0) = false ->
  createMiniSparkline Context2D series =
    [ ClearRect (lit 0) (lit 0) (lit 100) (lit 40);
      StrokeStyle (sparklineColor values); LineWidth (lit 2); BeginPath ] ++
    imap (sparklineVertex (length values) minValue range) values ++
    [ Stroke; FillStyle (sparklineColor values);
      BeginPath;
      Arc (lit 5) (sparklineY minValue range (nth 0 values VUndefined)) (lit 2); Fill;
      BeginPath;
      Arc (js_add (lit 5) (js_sub (lit 100) (js_mul (lit 5) (lit 2))))
          (sparklineY minValue range (nth (length values - 1) values VUndefined))
          (lit 2);
      Fill ].
Proof.
  intros values minValue range L R.
  unfold createMiniSparkline. fold values. cbv zeta. fold minValue. fold range.
  assert (C : (length values <? 2)%nat = false) by (apply Nat.ltb_ge; exact L).
  rewrite C, R. reflexivity.
Qed.

End Sparkline.

Section CacheClaims.
Context `{Rounding} `{Builtins}.

(** C5, amended.  When the trimmed address and the trimmed city are not
    empty and the zip is present, has no '.' in its string and is numeric
    (a finite Number below 10^21), the candidate keys are, in order, the
    three keys built from the trimmed address and city: alone, with
    [String(zip)], and with [Number(zip).toFixed(1)], which has exactly one
    digit after its point; for a zip that is a non-negative safe integer
    [z] the last two keys end in the digits of [z] and in these digits
    followed by ".0".  A record with no finite explicit coordinates then
    takes exactly the coordinates of the cache entry under the third key
    when these are finite Numbers and the first two keys have no usable
    entry. *)
Theorem postal_code_tolerance (st : State) (d : Dispensary) (cache : GeoCache)
    (e : GeoEntry) (q x y : Q) :
  let addr := trim d.(address) in
  let town := trim d.(city) in
  let k1 := addr +:+ ", " +:+ town in
  let k2 := addr +:+ ", " +:+ town +:+ " " +:+ ToString d.(zip) in
  let k3 := addr +:+ ", " +:+ town +:+ " " +:+ toFixed1 (Num q) in
  addr <> "" -> town <> "" ->
  is_nullish d.(zip) = false ->
  includes (ToString d.(zip)) "." = false ->
  ToNumber d.(zip) = Num q ->
  (Qabs q < inject_Z (10 ^ 21))%Q ->
  candidateKeys d = [k1; k2; k3] /\
  (exists whole digit : string,
      toFixed1 (Num q) = whole +:+ "." +:+ digit /\
      String.length digit = 1%nat /\
      includes whole "." = false /\ includes digit "." = false) /\
  (forall z : Z, (0 <= z <= 2 ^ 53)%Z -> d.(zip) = VNum (of_int z) ->
     k2 = addr +:+ ", " +:+ town +:+ " " +:+ Z_to_string z /\
     k3 = addr +:+ ", " +:+ town +:+ " " +:+ Z_to_string z +:+ ".0") /\
  (hasExplicit d = false ->
   st.(geoCache) = Some cache ->
   usable (cache_get cache k1) = None ->
   usable (cache_get cache k2) = None ->
   cache_get cache k3 = Some e ->
   e.(lat) = VNum (Num x) -> e.(lng) = VNum (Num y) ->
   updateMap_position st d = Some (VNum (Num x), VNum (Num y))).
Proof.
  intros addr town k1 k2 k3 A T Z D N B.
  pose proof (candidateKeys_three d A T Z D) as K. rewrite N in K.
  split; [exact K|]. split; [exact (toFixed1_shape q B)|]. split.
  - intros z Bz E. unfold k2, k3. rewrite E in N |- *.
    change (ToString (VNum (of_int z))) with (NumberToString (of_int z)).
    injection N as <-. change (Num (inject_Z z)) with (of_int z).
    rewrite NumberToString_int by lia. rewrite toFixed1_int by exact Bz.
    split; reflexivity.
  - intros E C U1 U2 G La Ln.
    exact (exact_third_key st d cache k1 k2 k3 e x y K E C U1 U2 G La Ln).
Qed.


End CacheClaims.

Section SparklineClaims.
Context `{Rounding} `{Builtins}.

(** The degenerate drawings.  With fewer than two plotted values, the
    empty series included, the drawing is one dot at (width/2, height/2) =
    (50, 20).  With at least two plotted values whose maximum and minimum
    are finite and equal, the range is zero and the drawing is one segment
    at height height/2 = 20 from x = padding = 5 to x = width - padding =
    95. *)
Theorem sparkline_degeneracy (series : list (option MonthlyPoint)) (m n : Q) :
  let values := sparklineValues series in
  ((length values < 2)%nat -> createMiniSparkline Context2D series = centeredDot) /\
  createMiniSparkline Context2D [] = centeredDot /\
  ((2 <= length values)%nat ->
   Math_max (List.map ToNumber values) = Num m ->
   Math_min (List.map ToNumber values) = Num n ->
   (m == n)%Q ->
   createMiniSparkline Context2D series = flatLine) /\
  (exists cx cy p q : Q,
      js_div (lit 100) (lit 2) = Num cx /\ (cx == 50)%Q /\
      js_div (lit 40) (lit 2) = Num cy /\ (cy == 20)%Q /\
      lit 5 = Num p /\ (p == 5)%Q /\
      js_sub (lit 100) (lit 5) = Num q /\ (q == 95)%Q).
Proof.
  intros values. split; [|split; [|split]].
  - apply createMiniSparkline_dot.
  - reflexivity.
  - intros L Mx Mn E. apply createMiniSparkline_flat; [exact L|].
    fold values. rewrite Mx, Mn. apply range_zero. exact E.
  - exact canvas_geometry.
Qed.

(** C10, amended.  For every series, the plotted values are the
    [total_sales] of the points that have a non-empty month and a
    [total_sales] that is not undefined, not null, not NaN and at least 0,
    each point once, in the order in which the sort by [localeCompare] of
    the months leaves them.  With a consistent [localeCompare] this is the
    ascending order of the months by [localeCompare], the order of the
    series kept among equal months; where [localeCompare] agrees with the
    code-unit order on the months of the series it is the ascending
    code-unit order.  The drawing is made of these values: the centered dot
    for fewer than two, the flat line for a range of zero, and otherwise
    one vertex for each value, in their order.  A negative [total_sales] is
    never plotted, and a series of two points with a negative value draws
    the centered dot. *)
Theorem negative_sales_exclusion (series : list (option MonthlyPoint)) :
  let plotted :=
    List.filter goodPoint (sort byMonth (List.filter validPoint series)) in
  let values := List.map salesOf plotted in
  let minValue := Math_min (List.map ToNumber values) in
  let range := js_sub (Math_max (List.map ToNumber values)) minValue in
  sparklineValues series = values /\
  Permutation plotted (List.filter goodPoint series) /\
  (forall d, goodPoint d = true <->
     exists p mo, d = Some p /\ p.(month) = Some mo /\ mo <> "" /\
                  p.(total_sales) <> VUndefined /\ p.(total_sales) <> VNull /\
                  isNaN p.(total_sales) = false /\
                  js_ge (ToNumber p.(total_sales)) (lit 0) = true) /\
  (forall d q, salesOf d = VNum (Num q) -> (q < 0)%Q -> goodPoint d = false) /\
  (consistentComparator localeCompare ->
   plotted = sort byMonth (List.filter goodPoint series) /\
   StronglySorted
     (fun p q => (localeCompare (monthOf p) (monthOf q) <= 0)%Z) plotted) /\
  ((forall a b, In a (monthKeys series) -> In b (monthKeys series) ->
      (localeCompare a b <=? 0)%Z = (lexCompare a b <=? 0)%Z) ->
   plotted = sort byMonthLex (List.filter goodPoint series) /\
   StronglySorted (fun p q => String.le (monthOf p) (monthOf q)) plotted) /\
  ((length values < 2)%nat -> createMiniSparkline Context2D series = centeredDot) /\
  ((2 <= length values)%nat -> num_eqb range (lit 0) = true ->
   createMiniSparkline Context2D series = flatLine) /\
  ((2 <= length values)%nat -> num_eqb range (lit 0) = false ->
   createMiniSparkline Context2D series =
     [ ClearRect (lit 0) (lit 0) (lit 100) (lit 40);
       StrokeStyle (sparklineColor values); LineWidth (lit 2); BeginPath ] ++
     imap (sparklineVertex (length values) minValue range) values ++
     [ Stroke; FillStyle (sparklineColor values);
       BeginPath;
       Arc (lit 5) (sparklineY minValue range (nth 0 values VUndefined)) (lit 2); Fill;
       BeginPath;
       Arc (js_add (lit 5) (js_sub (lit 100) (js_mul (lit 5) (lit 2))))
           (sparklineY minValue range (nth (length values - 1) values VUndefined))
           (lit 2);
       Fill ]) /\
  (forall a b q, salesOf a = VNum (Num q) \/ salesOf b = VNum (Num q) ->
     (q < 0)%Q -> createMiniSparkline Context2D [a; b] = centeredDot).
Proof.
  intros plotted values minValue range.
  assert (V : sparklineValues series = values) by apply sparklineValues_plotted.
  subst minValue range. rewrite <- V. clear V.
  split; [reflexivity|]. split; [apply plotted_perm|].
  split; [exact goodPoint_spec|]. split; [exact goodPoint_negative|].
  split; [|split; [|split; [|split; [|split]]]].
  - intros C. split; [apply plotted_sorted; exact C|].
    unfold plotted. rewrite (plotted_sorted series C).
    destruct (byMonth_consistent C) as [T R].
    exact (sort_sorted byMonth T R _).
  - intros E. split; [apply plotted_lex; exact E|].
    unfold plotted. rewrite (plotted_lex series E).
    pose proof (sort_sorted byMonthLex byMonthLex_total byMonthLex_trans
                  (List.filter goodPoint series)) as S.
    induction S as [|a l S IH F]; constructor; [exact IH|].
    eapply Forall_impl; [exact F|]. intros b. apply byMonth_before.
  - apply createMiniSparkline_dot.
  - apply createMiniSparkline_flat.
  - apply createMiniSparkline_polyline.
  - intros a b q S L. apply createMiniSparkline_dot.
    rewrite sparklineValues_length. simpl List.filter.
    destruct S as [S|S]; rewrite (goodPoint_negative _ q S L).
    + destruct (goodPoint b); simpl; lia.
    + destruct (goodPoint a); simpl; lia.
Qed.

End SparklineClaims.

(** ** The claims at concrete inputs, with the reference host *)

Section Examples.
Import JS.Reference Samples.
#[local] Existing Instance exact_rounding.
#[local] Existing Instance plain_builtins.

Lemma tier_priority_witness :
  updateMap_position (state (Some decoyCache)) located =
    Some (VNum (Num (71 # 2)), VNum (Num (-425 # 4))).
Proof.
  apply (tier_priority (state (Some decoyCache)) located (71 # 2) (-425 # 4));
    vm_compute; reflexivity.
Defined.



Lemma postal_code_tolerance_witness :
  candidateKeys unlocated =
    [ "12 Main St, Santa Fe"; "12 Main St, Santa Fe 87507";
      "12 Main St, Santa Fe 87507.0" ] /\
  updateMap_position (state (Some decimalZipCache)) unlocated =
    Some (VNum (Num 35.6), VNum (Num (-105.9))).
Proof.
  destruct (postal_code_tolerance (state (Some decimalZipCache)) unlocated
              decimalZipCache (entry 35.6 (-105.9)) 87507 35.6%Q (-105.9)%Q)
    as (K & _ & _ & R); try reflexivity; try discriminate.
  split; [exact K|]. apply R; reflexivity.
Defined.

Lemma postal_code_counterexample :
  (address zipPlusFour <> "" /\ city zipPlusFour <> "" /\
   includes (ToString (zip zipPlusFour)) "." = false /\
   candidateKeys zipPlusFour =
     [ "12 Main St, Santa Fe"; "12 Main St, Santa Fe 87507-1234";
       "12 Main St, Santa Fe NaN" ]) /\
  (address blankAddress <> "" /\ city blankAddress <> "" /\
   includes (ToString (zip blankAddress)) "." = false /\
   candidateKeys blankAddress = []).
Proof.
  repeat split; try discriminate; vm_compute; reflexivity.
Qed.


Lemma sparkline_degeneracy_witness :
  createMiniSparkline Context2D onePoint = centeredDot /\
  createMiniSparkline Context2D constantSeries = flatLine.
Proof.
  split.
  - destruct (sparkline_degeneracy onePoint 0 0) as (D & _).
    apply D. vm_compute. lia.
  - destruct (sparkline_degeneracy constantSeries 500 500) as (_ & _ & F & _).
    apply F; try reflexivity. vm_compute. lia.
Defined.

(** C8.  A series of two points with [total_sales] Infinity: both values
    are plotted and the maximum equals the minimum, but the range,
    Infinity - Infinity, is NaN and not 0; the drawing is the general line
    with every y NaN, and not the flat segment at height/2. *)
Lemma sparkline_infinite_series :
  sparklineValues infiniteSeries = [VNum PosInf; VNum PosInf] /\
  num_eqb (Math_max (List.map ToNumber (sparklineValues infiniteSeries)))
          (Math_min (List.map ToNumber (sparklineValues infiniteSeries))) = true /\
  createMiniSparkline Context2D infiniteSeries =
    [ ClearRect (Num 0) (Num 0) (Num 100) (Num 40);
      StrokeStyle "#f59e0b"; LineWidth (Num 2); BeginPath;
      MoveTo (Num 5) NaN; LineTo (Num 95) NaN; Stroke;
      FillStyle "#f59e0b"; BeginPath; Arc (Num 5) NaN (Num 2); Fill;
      BeginPath; Arc (Num 95) NaN (Num 2); Fill ] /\
  createMiniSparkline Context2D infiniteSeries <> flatLine.
Proof.
  split; [reflexivity|]. split; [reflexivity|]. split; [vm_compute; reflexivity|].
  vm_compute. discriminate.
Qed.

End Examples.

(** ** The jitter claims in binary64

    The same host with IEEE 754 rounding: the position of the sample record
    and the random value of its seed, to the last bit. *)

Section Binary64Examples.
Import JS.Reference Samples.
#[local] Existing Instance binary64_rounding.
#[local] Existing Instance plain_builtins.


Lemma jitter_determinism_witness :
  getStableJitter "12 Main St|Acme" (Some (lit 0.004)) =
    getStableJitter "12 Main St|Acme" (Some (lit 0.004)) /\
  seededRandom "12 Main St|Acme:lat" = seededRandom "12 Main St|Acme:lat" /\
  exists q, seededRandom "12 Main St|Acme:lat" = Num q /\ (0 <= q)%Q /\ (q < 1)%Q.
Proof.
  destruct (jitter_determinism "12 Main St|Acme" "12 Main St|Acme"
              (Some (lit 0.004)) (Some (lit 0.004)) eq_refl eq_refl) as (J & _ & _).
  destruct (jitter_determinism "12 Main St|Acme:lat" "12 Main St|Acme:lat"
              None None eq_refl eq_refl) as (_ & S & R).
  split; [exact J|]. split; [exact S | exact R].
Defined.

(** The hash of the seed is 3876616927, and the literals 0.004 and 0.01 are
    the binary64 numbers nearest to them. *)
Lemma seededRandom_binary64 :
  seededRandom "12 Main St|Acme:lat" = Num (3876616927 # 4294967296) /\
  lit 0.004 = Num (1152921504606847 # 288230376151711744) /\
  lit 0.01 = Num (5764607523034235 # 576460752303423488).
Proof. repeat split; vm_compute; reflexivity. Qed.

Lemma negative_sales_exclusion_witness :
  sparklineValues negativeSeries = [VNum (Num 700)] /\
  createMiniSparkline Context2D negativeSeries = centeredDot /\
  sparklineValues unorderedSeries = [VNum (Num 500); VNum (Num 700)] /\
  createMiniSparkline Context2D unorderedSeries =
    [ ClearRect (Num 0) (Num 0) (Num 100) (Num 40);
      StrokeStyle "#10b981"; LineWidth (Num 2); BeginPath;
      MoveTo (Num 5) (Num 35); LineTo (Num 95) (Num 5); Stroke;
      FillStyle "#10b981"; BeginPath; Arc (Num 5) (Num 35) (Num 2); Fill;
      BeginPath; Arc (Num 95) (Num 5) (Num 2); Fill ].
Proof.
  destruct (negative_sales_exclusion negativeSeries)
    as (V & _ & _ & _ & _ & _ & D & _).
  destruct (negative_sales_exclusion unorderedSeries)
    as (V' & _ & _ & _ & S & _ & _ & _ & P & _).
  destruct (S lexCompare_consistent) as [E _].
  split; [rewrite V; vm_compute; reflexivity|].
  split; [apply D; vm_compute; lia|].
  split; [rewrite V', E; vm_compute; reflexivity|].
  rewrite P; [vm_compute; reflexivity | vm_compute; lia | vm_compute; reflexivity].
Defined.

End Binary64Examples.

(** ** The order of the months under a collation by letters *)

Section CollationExamples.
Import JS.Reference Samples.
#[local] Existing Instance binary64_rounding.
#[local] Existing Instance collating_builtins.

(** With months by name and a consistent collation by letters, the code
    plots 100 and then 200, a rising line, and the ascending code-unit
    order of the months gives 200 and then 100. *)
Lemma lexical_order_counterexample :
  consistentComparator localeCompare /\
  List.filter goodPoint namedMonths = namedMonths /\
  sparklineValues namedMonths = [VNum (Num 100); VNum (Num 200)] /\
  List.map monthOf
    (List.filter goodPoint (sort byMonth (List.filter validPoint namedMonths))) =
    ["apr"; "Mar"] /\
  ~ String.le "apr" "Mar" /\
  List.map salesOf (sort byMonthLex (List.filter goodPoint namedMonths)) =
    [VNum (Num 200); VNum (Num 100)] /\
  sparklineValues namedMonths <>
    List.map salesOf (sort byMonthLex (List.filter goodPoint namedMonths)) /\
  createMiniSparkline Context2D namedMonths =
    [ ClearRect (Num 0) (Num 0) (Num 100) (Num 40);
      StrokeStyle "#10b981"; LineWidth (Num 2); BeginPath;
      MoveTo (Num 5) (Num 35); LineTo (Num 95) (Num 5); Stroke;
      FillStyle "#10b981"; BeginPath; Arc (Num 5) (Num 35) (Num 2); Fill;
      BeginPath; Arc (Num 95) (Num 5) (Num 2); Fill ].
Proof.
  split; [exact folding_consistent|].
  split; [vm_compute; reflexivity|]. split; [vm_compute; reflexivity|].
  split; [vm_compute; reflexivity|]. split; [vm_compute; intros []|].
  split; [vm_compute; reflexivity|]. split; [vm_compute; discriminate|].
  vm_compute. reflexivity.
Qed.

End CollationExamples.

End Properties.

(* ===================================================================== *)
(** * Further properties of the class                                      *)
(* ===================================================================== *)

Module Coverage.
Import JS TerritoryMap JSFacts Properties Views Session.

(** ** Strings and their lists of code units *)

Section Views.
Local Abbreviation L := String.list_ascii_of_string.

Lemma L_inj (s t : string) : L s = L t -> s = t.
Proof.
  intros E. rewrite <- (String.string_of_list_ascii_of_string s),
    <- (String.string_of_list_ascii_of_string t), E. reflexivity.
Qed.

Lemma L_toLowerCase (s : string) : L (toLowerCase s) = List.map lower_char (L s).
Proof. induction s as [|c s IH]; simpl; [reflexivity|]. rewrite IH. reflexivity. Qed.

Lemma L_strip_punct (s : string) :
  L (strip_punct s) = List.filter (fun c => negb (is_punct c)) (L s).
Proof.
  induction s as [|c s IH]; simpl; [reflexivity|]. unfold is_punct at 1.
  destruct ((charCode c =? 46)%Z || (charCode c =? 44)%Z); simpl; rewrite IH; reflexivity.
Qed.

Lemma L_squeeze (b : bool) (s : string) : L (squeeze b s) = squeezeL b (L s).
Proof.
  revert b. induction s as [|c s IH]; intros b; simpl; [reflexivity|].
  destruct (is_space c); [destruct b|]; simpl; rewrite IH; reflexivity.
Qed.

Lemma L_trimStart (s : string) : L (trimStart s) = trimStartL (L s).
Proof.
  induction s as [|c s IH]; simpl; [reflexivity|].
  destruct (is_space c); [exact IH | reflexivity].
Qed.

Lemma L_rev_app (s acc : string) : L (String.rev_app s acc) = rev (L s) ++ L acc.
Proof.
  revert acc. induction s as [|c s IH]; intros acc; simpl; [reflexivity|].
  rewrite IH. simpl. rewrite <- app_assoc. reflexivity.
Qed.

Lemma L_rev (s : string) : L (String.rev s) = rev (L s).
Proof. unfold String.rev. rewrite L_rev_app. simpl. apply app_nil_r. Qed.

Lemma L_trim (s : string) : L (trim s) = trimL (L s).
Proof. unfold trim, trimL. rewrite L_rev, L_trimStart, L_rev, L_trimStart. reflexivity. Qed.

Lemma L_norm (s : string) : L (norm s) = normL (L s).
Proof.
  unfold norm, normL, prepare, collapse_spaces.
  rewrite or_empty, L_trim, L_squeeze, L_strip_punct, L_toLowerCase. reflexivity.
Qed.

Lemma L_app (a b : string) : L (a +:+ b) = L a ++ L b.
Proof.
  induction a as [|c a IH]; [reflexivity|].
  change (L (String c (a +:+ b)) = c :: L a ++ L b). simpl. rewrite IH. reflexivity.
Qed.

End Views.

Section ListFacts.

Lemma lower_char_idem (c : ascii) : lower_char (lower_char c) = lower_char c.
Proof. destruct c as [[] [] [] [] [] [] [] []]; reflexivity. Qed.

Lemma lower_char_space (c : ascii) : is_space (lower_char c) = is_space c.
Proof. destruct c as [[] [] [] [] [] [] [] []]; reflexivity. Qed.

Lemma lower_char_punct (c : ascii) : is_punct (lower_char c) = is_punct c.
Proof. destruct c as [[] [] [] [] [] [] [] []]; reflexivity. Qed.

Lemma space_not_punct (c : ascii) : is_space c = true -> is_punct c = false.
Proof. destruct c as [[] [] [] [] [] [] [] []]; vm_compute; congruence. Qed.

Lemma space_lower (c : ascii) : is_space c = true -> lower_char c = c.
Proof. destruct c as [[] [] [] [] [] [] [] []]; vm_compute; congruence. Qed.

(** *** [squeezeL] and [tidy] *)

Lemma squeezeL_tidy (b : bool) (l : list ascii) : tidy b (squeezeL b l) = true.
Proof.
  revert b. induction l as [|c l IH]; intros b; simpl; [reflexivity|].
  destruct (is_space c) eqn:E.
  - destruct b; [apply IH|]. simpl. rewrite ?bool_decide_eq_true_2 by reflexivity. apply IH.
  - simpl. rewrite E. apply IH.
Qed.

Lemma tidy_fix (b : bool) (l : list ascii) : tidy b l = true -> squeezeL b l = l.
Proof.
  revert b. induction l as [|c l IH]; intros b; simpl; [reflexivity|].
  destruct (is_space c).
  - rewrite !andb_true_iff, negb_true_iff, bool_decide_eq_true.
    intros [[-> ->] T]. rewrite (IH true T). reflexivity.
  - intros T. rewrite (IH false T). reflexivity.
Qed.

Lemma tidy_trimStart (b : bool) (l : list ascii) :
  tidy b l = true -> tidy false (trimStartL l) = true.
Proof.
  revert b. induction l as [|c l IH]; intros b; simpl; [reflexivity|].
  destruct (is_space c) eqn:E.
  - rewrite !andb_true_iff. intros [_ T]. exact (IH true T).
  - intros T. simpl. rewrite E. exact T.
Qed.

Lemma tidy_app_l (b : bool) (l1 l2 : list ascii) :
  tidy b (l1 ++ l2) = true -> tidy b l1 = true.
Proof.
  revert b. induction l1 as [|c l1 IH]; intros b; simpl; [reflexivity|].
  destruct (is_space c).
  - rewrite !andb_true_iff. intros [X T]. split; [exact X|]. exact (IH true T).
  - apply IH.
Qed.

(** *** [trimStartL] and [trimL] *)

Lemma trimStartL_suffix (l : list ascii) :
  exists w, l = w ++ trimStartL l /\ Forall (fun c => is_space c = true) w.
Proof.
  induction l as [|c l (w & E & F)]; simpl.
  - exists []. split; [reflexivity | constructor].
  - destruct (is_space c) eqn:C.
    + exists (c :: w). split; [simpl; rewrite <- E; reflexivity|].
      constructor; assumption.
    + exists []. split; [reflexivity | constructor].
Qed.

Lemma trimStartL_clean (l : list ascii) : starts_clean (trimStartL l) = true.
Proof.
  induction l as [|c l IH]; simpl; [reflexivity|].
  destruct (is_space c) eqn:C; [exact IH|]. simpl. rewrite C. reflexivity.
Qed.

Lemma trimStartL_fix (l : list ascii) : starts_clean l = true -> trimStartL l = l.
Proof.
  destruct l as [|c l]; simpl; [reflexivity|].
  destruct (is_space c); [discriminate | reflexivity].
Qed.

Lemma trimStartL_spaces (w l : list ascii) :
  Forall (fun c => is_space c = true) w -> trimStartL (w ++ l) = trimStartL l.
Proof.
  induction 1 as [|c w C F IH]; simpl; [reflexivity|]. rewrite C. exact IH.
Qed.

(** [trimL l] is [l] without a run of white space at each end. *)
Lemma trimL_end (l : list ascii) :
  exists w1, trimStartL l = trimL l ++ w1 /\ Forall (fun c => is_space c = true) w1.
Proof.
  unfold trimL.
  destruct (trimStartL_suffix (rev (trimStartL l))) as (w & E & F).
  exists (rev w). split; [|apply Forall_rev; exact F].
  rewrite <- rev_app_distr, <- E, rev_involutive. reflexivity.
Qed.

Lemma trimL_decompose (l : list ascii) :
  exists w0 w1, l = w0 ++ trimL l ++ w1 /\
                Forall (fun c => is_space c = true) w0 /\
                Forall (fun c => is_space c = true) w1.
Proof.
  destruct (trimStartL_suffix l) as (w0 & E0 & F0).
  destruct (trimL_end l) as (w1 & E1 & F1).
  exists w0, w1. split; [|split; assumption].
  rewrite <- E1. exact E0.
Qed.

Lemma trimL_clean (l : list ascii) :
  starts_clean (trimL l) = true /\ starts_clean (rev (trimL l)) = true.
Proof.
  split.
  - destruct (trimL_end l) as (w1 & E & F).
    pose proof (trimStartL_clean l) as C. rewrite E in C.
    destruct (trimL l) as [|c t]; [reflexivity | exact C].
  - unfold trimL. rewrite rev_involutive. apply trimStartL_clean.
Qed.

Lemma trimL_fix (l : list ascii) :
  starts_clean l = true -> starts_clean (rev l) = true -> trimL l = l.
Proof.
  intros A B. unfold trimL.
  rewrite (trimStartL_fix l A), (trimStartL_fix (rev l) B). apply rev_involutive.
Qed.

Lemma trimL_idem (l : list ascii) : trimL (trimL l) = trimL l.
Proof. destruct (trimL_clean l) as [A B]. exact (trimL_fix _ A B). Qed.

Lemma trimL_Forall (P : ascii -> Prop) (l : list ascii) : Forall P l -> Forall P (trimL l).
Proof.
  intros F. destruct (trimL_decompose l) as (w0 & w1 & E & _ & _).
  rewrite E in F. apply Forall_app in F as [_ F]. apply Forall_app in F as [F _]. exact F.
Qed.

Lemma trimL_tidy (b : bool) (l : list ascii) : tidy b l = true -> tidy false (trimL l) = true.
Proof.
  intros T. apply (tidy_trimStart b) in T.
  destruct (trimL_end l) as (w1 & E & _). rewrite E in T.
  exact (tidy_app_l false _ _ T).
Qed.

Lemma squeezeL_Forall (P : ascii -> Prop) (b : bool) (l : list ascii) :
  P " "%char -> Forall P l -> Forall P (squeezeL b l).
Proof.
  intros Sp F. revert b. induction F as [|c l Pc F IH]; intros b; simpl; [constructor|].
  destruct (is_space c); [destruct b|]; try constructor; auto.
Qed.

Lemma filter_Forall_keep {A : Type} (P : A -> Prop) (f : A -> bool) (l : list A) :
  Forall P l -> Forall P (List.filter f l).
Proof.
  induction 1 as [|x l Px F IH]; simpl; [constructor|].
  destruct (f x); [constructor; assumption | exact IH].
Qed.

Lemma filter_Forall_true {A : Type} (f : A -> bool) (l : list A) :
  Forall (fun x => f x = true) (List.filter f l).
Proof.
  induction l as [|x l IH]; simpl; [constructor|].
  destruct (f x) eqn:E; [constructor; assumption | exact IH].
Qed.

Lemma filter_fix {A : Type} (f : A -> bool) (l : list A) :
  Forall (fun x => f x = true) l -> List.filter f l = l.
Proof.
  induction 1 as [|x l Px F IH]; simpl; [reflexivity|]. rewrite Px, IH. reflexivity.
Qed.

Lemma map_fix {A : Type} (f : A -> A) (l : list A) :
  Forall (fun x => f x = x) l -> List.map f l = l.
Proof.
  induction 1 as [|x l Px F IH]; simpl; [reflexivity|]. rewrite Px, IH. reflexivity.
Qed.

(** *** The canonical form *)

Lemma normL_lower (l : list ascii) : Forall (fun c => lower_char c = c) (normL l).
Proof.
  unfold normL, prepare. apply trimL_Forall, squeezeL_Forall; [reflexivity|].
  apply filter_Forall_keep. apply List.Forall_map.
  apply List.Forall_forall. intros c _. apply lower_char_idem.
Qed.

Lemma normL_punct (l : list ascii) : Forall (fun c => negb (is_punct c) = true) (normL l).
Proof.
  unfold normL, prepare. apply trimL_Forall, squeezeL_Forall; [reflexivity|].
  apply filter_Forall_true.
Qed.

Lemma normL_tidy (l : list ascii) : tidy false (normL l) = true.
Proof. unfold normL. apply (trimL_tidy false), squeezeL_tidy. Qed.

Lemma normL_idem (l : list ascii) : normL (normL l) = normL l.
Proof.
  unfold normL at 1. unfold prepare.
  rewrite (map_fix _ _ (normL_lower l)), (filter_fix _ _ (normL_punct l)),
    (tidy_fix _ _ (normL_tidy l)).
  unfold normL. apply trimL_idem.
Qed.

(** *** What the canonical form ignores *)

Lemma prepare_app (a b : list ascii) : prepare (a ++ b) = prepare a ++ prepare b.
Proof. unfold prepare. rewrite List.map_app, List.filter_app. reflexivity. Qed.

Lemma prepare_spaces (w : list ascii) : spaces w -> prepare w = w.
Proof.
  unfold prepare. induction 1 as [|c w C F IH]; simpl; [reflexivity|].
  rewrite lower_char_punct, (space_not_punct c C), (space_lower c C). simpl.
  f_equal. exact IH.
Qed.

Lemma prepare_lower (l : list ascii) : prepare (List.map lower_char l) = prepare l.
Proof.
  unfold prepare. rewrite List.map_map. f_equal. apply List.map_ext, lower_char_idem.
Qed.

Lemma trimStartL_all (w : list ascii) : spaces w -> trimStartL w = [].
Proof. intros F. rewrite <- (app_nil_r w). apply (trimStartL_spaces w [] F). Qed.

Lemma squeezeL_run (w l : list ascii) :
  spaces w -> squeezeL true (w ++ l) = squeezeL true l.
Proof. induction 1 as [|c w C F IH]; simpl; [reflexivity|]. rewrite C. exact IH. Qed.

Lemma squeezeL_one (b : bool) (w l : list ascii) :
  spaces w -> w <> [] -> squeezeL b (w ++ l) = squeezeL b (" "%char :: l).
Proof.
  intros F N. destruct F as [|c w C F]; [contradiction|].
  simpl. rewrite C, (squeezeL_run w l F). reflexivity.
Qed.

Lemma squeezeL_inner (b : bool) (x w y : list ascii) :
  spaces w -> w <> [] ->
  squeezeL b (x ++ w ++ y) = squeezeL b (x ++ " "%char :: y).
Proof.
  intros F N. revert b. induction x as [|c x IH]; intros b.
  - simpl app. apply squeezeL_one; assumption.
  - simpl. destruct (is_space c); [destruct b|]; rewrite IH; reflexivity.
Qed.

Lemma squeezeL_end (b : bool) (l w : list ascii) :
  spaces w -> exists z, squeezeL b (l ++ w) = squeezeL b l ++ z /\ spaces z.
Proof.
  intros F. revert b. induction l as [|c l IH]; intros b.
  - exists (squeezeL b w). split; [reflexivity|].
    apply squeezeL_Forall; [reflexivity | exact F].
  - simpl. destruct (is_space c); [destruct b|].
    + apply IH.
    + destruct (IH true) as (z & E & Fz). exists z. rewrite E. split; [reflexivity | exact Fz].
    + destruct (IH false) as (z & E & Fz). exists z. rewrite E. split; [reflexivity | exact Fz].
Qed.

Lemma trimStartL_squeeze (b : bool) (l : list ascii) :
  trimStartL (squeezeL b l) = trimStartL (squeezeL false l).
Proof.
  destruct l as [|c l]; [reflexivity|]. simpl.
  destruct (is_space c) eqn:C; [destruct b|]; reflexivity.
Qed.

Lemma trimL_start (x y : list ascii) : trimStartL x = trimStartL y -> trimL x = trimL y.
Proof. unfold trimL. intros ->. reflexivity. Qed.

Lemma trimL_trailing (y z : list ascii) : spaces z -> trimL (y ++ z) = trimL y.
Proof.
  intros F. unfold trimL.
  destruct (trimStartL_suffix y) as (w0 & E & F0).
  destruct (trimStartL y) as [|c t] eqn:T.
  - rewrite app_nil_r in E. subst w0.
    rewrite (trimStartL_all (y ++ z)); [reflexivity|].
    apply Forall_app. split; assumption.
  - pose proof (trimStartL_clean y) as C. rewrite T in C. simpl in C.
    rewrite E at 1. rewrite <- app_assoc, (trimStartL_spaces w0 _ F0).
    assert (S : trimStartL ((c :: t) ++ z) = (c :: t) ++ z).
    { simpl. destruct (is_space c); [discriminate | reflexivity]. }
    rewrite S, rev_app_distr, (trimStartL_spaces (rev z)); [reflexivity|].
    apply Forall_rev. exact F.
Qed.

Lemma trimL_empty (w : list ascii) : trimL w = [] <-> spaces w.
Proof.
  split.
  - intros E. destruct (trimL_decompose w) as (w0 & w1 & D & F0 & F1).
    rewrite E in D. rewrite D. apply Forall_app. split; assumption.
  - intros F. unfold trimL. rewrite (trimStartL_all w F). reflexivity.
Qed.

Lemma normL_leading (w l : list ascii) : spaces w -> normL (w ++ l) = normL l.
Proof.
  intros F. unfold normL.
  rewrite prepare_app, (prepare_spaces w F).
  destruct w as [|c w]; [reflexivity|].
  apply trimL_start.
  rewrite (squeezeL_one false (c :: w) (prepare l) F ltac:(discriminate)).
  simpl. apply trimStartL_squeeze.
Qed.

Lemma normL_trailing (l w : list ascii) : spaces w -> normL (l ++ w) = normL l.
Proof.
  intros F. unfold normL.
  rewrite prepare_app, (prepare_spaces w F).
  destruct (squeezeL_end false (prepare l) w F) as (z & E & Fz).
  rewrite E. apply trimL_trailing. exact Fz.
Qed.

Lemma normL_inner (a w b : list ascii) :
  spaces w -> w <> [] -> normL (a ++ w ++ b) = normL (a ++ " "%char :: b).
Proof.
  intros F N. unfold normL.
  rewrite !prepare_app, (prepare_spaces w F).
  change (" "%char :: b) with ([" "%char] ++ b). rewrite prepare_app.
  change (prepare [" "%char]) with [" "%char].
  rewrite (squeezeL_inner false (prepare a) w (prepare b) F N). reflexivity.
Qed.

Lemma normL_punctuation (a b : list ascii) (c : ascii) :
  is_punct c = true -> normL (a ++ c :: b) = normL (a ++ b).
Proof.
  intros P. unfold normL.
  rewrite !prepare_app. do 2 f_equal. f_equal.
  unfold prepare. simpl. rewrite lower_char_punct, P. reflexivity.
Qed.

End ListFacts.

Section NormTheorems.
Local Abbreviation L := String.list_ascii_of_string.

(** X6.  The canonical form of a key is a fixed point of [norm] and of each
    of its four steps: it is in lower case, has no '.' and no ',', has no
    white space but single spaces, and none at either end. *)
Theorem norm_canonical (s : string) :
  norm (norm s) = norm s /\
  toLowerCase (norm s) = norm s /\
  strip_punct (norm s) = norm s /\
  collapse_spaces (norm s) = norm s /\
  trim (norm s) = norm s.
Proof.
  split; [|split; [|split; [|split]]]; apply L_inj.
  - rewrite !L_norm. apply normL_idem.
  - rewrite L_toLowerCase, L_norm. apply map_fix, normL_lower.
  - rewrite L_strip_punct, L_norm. apply filter_fix, normL_punct.
  - unfold collapse_spaces. rewrite L_squeeze, L_norm. apply tidy_fix, normL_tidy.
  - rewrite L_trim, L_norm. unfold normL. apply trimL_idem.
Qed.

Lemma trim_empty_spaces (w : string) : trim w = "" -> spaces (L w).
Proof. intros E. apply trimL_empty. rewrite <- L_trim, E. reflexivity. Qed.

(** X7.  [norm] ignores a '.' or a ',' anywhere in the key, the case of the
    letters, white space around the key, and the length and the kind of a
    run of white space inside it. *)
Theorem norm_insensitive (a b w w' : string) :
  norm (a +:+ "." +:+ b) = norm (a +:+ b) /\
  norm (a +:+ "," +:+ b) = norm (a +:+ b) /\
  norm (toLowerCase a) = norm a /\
  (trim w = "" -> trim w' = "" -> norm (w +:+ a +:+ w') = norm a) /\
  (trim w = "" -> w <> "" -> norm (a +:+ w +:+ b) = norm (a +:+ " " +:+ b)).
Proof.
  split; [|split; [|split; [|split]]].
  - apply L_inj. rewrite !L_norm, !L_app. apply (normL_punctuation _ _ "."%char). reflexivity.
  - apply L_inj. rewrite !L_norm, !L_app. apply (normL_punctuation _ _ ","%char). reflexivity.
  - apply L_inj. rewrite !L_norm, L_toLowerCase. unfold normL.
    rewrite prepare_lower. reflexivity.
  - intros W W'. apply L_inj. rewrite !L_norm, !L_app.
    rewrite (normL_leading _ _ (trim_empty_spaces w W)).
    apply normL_trailing, trim_empty_spaces, W'.
  - intros W N. apply L_inj. rewrite !L_norm, !L_app.
    apply normL_inner; [exact (trim_empty_spaces w W)|].
    destruct w; [contradiction | discriminate].
Qed.

End NormTheorems.
(** ** [seededRandom] is FNV-1a *)

Section Fnv.
Context `{Rounding} `{Builtins}.
Local Open Scope Z_scope.

Lemma ToInt32_mod (z : Z) : ToInt32 z mod 2 ^ 32 = z mod 2 ^ 32.
Proof.
  unfold ToInt32.
  rewrite Zminus_mod, Zmod_mod, <- Zminus_mod.
  f_equal. lia.
Qed.

Lemma lxor_mod (a b : Z) (n : Z) : 0 <= n ->
  Z.lxor a b mod 2 ^ n = Z.lxor (a mod 2 ^ n) (b mod 2 ^ n).
Proof.
  intros N. apply Z.bits_inj'. intros i I.
  rewrite Z.lxor_spec. rewrite !Z.testbit_mod_pow2 by lia.
  rewrite Z.lxor_spec. destruct (i <? n); simpl; reflexivity.
Qed.

Lemma charCode_range (c : ascii) : 0 <= charCode c < 256.
Proof.
  unfold charCode. pose proof (N_ascii_bounded c). lia.
Qed.

Lemma lxor_range (a b : Z) (n : Z) : 0 <= n ->
  0 <= a < 2 ^ n -> 0 <= b < 2 ^ n -> 0 <= Z.lxor a b < 2 ^ n.
Proof.
  intros N A B.
  assert (E : Z.lxor a b mod 2 ^ n = Z.lxor a b).
  { rewrite lxor_mod by exact N. rewrite !Z.mod_small by lia. reflexivity. }
  rewrite <- E. apply Z.mod_pos_bound. lia.
Qed.

Lemma shl_mod (h k : Z) : 0 <= k -> shl h k mod 2 ^ 32 = (h * 2 ^ k) mod 2 ^ 32.
Proof.
  intros K. unfold shl. rewrite ToInt32_mod, Z.shiftl_mul_pow2 by exact K.
  rewrite Zmult_mod, ToInt32_mod, <- Zmult_mod. reflexivity.
Qed.

Lemma bitxor_mod (h : Z) (c : ascii) :
  bitxor h (charCode c) mod 2 ^ 32 = Z.lxor (h mod 2 ^ 32) (charCode c).
Proof.
  unfold bitxor. rewrite ToInt32_mod, lxor_mod, !ToInt32_mod by lia.
  pose proof (charCode_range c).
  rewrite (Z.mod_small (charCode c)) by lia. reflexivity.
Qed.

Lemma hash_step_fnv (h : Z) (c : ascii) :
  ushr0 (hash_step h c) = fnv1a_step (ushr0 h) c.
Proof.
  unfold hash_step, fnv1a_step, ushr0, ToUint32, fnv_prime. cbv zeta.
  set (x := bitxor h (charCode c)).
  rewrite <- bitxor_mod. fold x.
  rewrite Zmult_mod, Zmod_mod, <- Zmult_mod.
  assert (S1 := shl_mod x 1 ltac:(lia)).
  assert (S4 := shl_mod x 4 ltac:(lia)).
  assert (S7 := shl_mod x 7 ltac:(lia)).
  assert (S8 := shl_mod x 8 ltac:(lia)).
  assert (S24 := shl_mod x 24 ltac:(lia)).
  rewrite Zplus_mod, (Zplus_mod _ (shl x 24)), (Zplus_mod _ (shl x 8)),
    (Zplus_mod _ (shl x 7)), (Zplus_mod (shl x 1)).
  rewrite S1, S4, S7, S8, S24.
  rewrite <- (Zplus_mod (x * 2 ^ 1)), <- (Zplus_mod _ (x * 2 ^ 7)),
    <- (Zplus_mod _ (x * 2 ^ 8)), <- (Zplus_mod _ (x * 2 ^ 24)), <- Zplus_mod.
  f_equal. lia.
Qed.

Lemma hash_loop_fnv (l : list ascii) (h : Z) :
  ushr0 (foldl hash_step h l) = foldl fnv1a_step (ushr0 h) l.
Proof.
  revert h. induction l as [|c rest IH]; intros h; [reflexivity|].
  simpl foldl. rewrite IH, hash_step_fnv. reflexivity.
Qed.

(** The value of [seededRandom] and its numerator. *)
Lemma seededRandom_fnv_value (seed : string) :
  (0 <= fnv1a seed < 2 ^ 32) /\
  exists q, seededRandom seed = Num q /\ (q == fnv1a seed # (2 ^ 32))%Q.
Proof.
  pose proof (hash_loop_fnv (String.list_ascii_of_string seed) (ushr0 2166136261)) as E.
  change (ushr0 (hash_loop (ushr0 2166136261) seed) = fnv1a seed) in E.
  split.
  - rewrite <- E. apply ushr0_range.
  - destruct (seededRandom_value seed) as (q & S & V).
    exists q. split; [exact S|]. rewrite V, E. reflexivity.
Qed.

Lemma fnv_prime_inverse : (fnv_prime * 899433627) mod 2 ^ 32 = 1.
Proof. reflexivity. Qed.

Lemma mul_prime_inj (a b : Z) :
  0 <= a < 2 ^ 32 -> 0 <= b < 2 ^ 32 ->
  (a * fnv_prime) mod 2 ^ 32 = (b * fnv_prime) mod 2 ^ 32 -> a = b.
Proof.
  intros A B E.
  assert (I : forall x, 0 <= x < 2 ^ 32 ->
            (((x * fnv_prime) mod 2 ^ 32) * 899433627) mod 2 ^ 32 = x).
  { intros x X. rewrite Zmult_mod_idemp_l, <- Z.mul_assoc, Zmult_mod,
      fnv_prime_inverse, Z.mul_1_r, Zmod_mod. apply Z.mod_small. exact X. }
  rewrite <- (I a A), <- (I b B), E. reflexivity.
Qed.

Lemma fnv1a_step_range (h : Z) (c : ascii) : 0 <= fnv1a_step h c < 2 ^ 32.
Proof. unfold fnv1a_step. apply Z.mod_pos_bound. lia. Qed.

Lemma fnv1a_fold_range (l : list ascii) (h : Z) :
  0 <= h < 2 ^ 32 -> 0 <= foldl fnv1a_step h l < 2 ^ 32.
Proof.
  revert h. induction l as [|c rest IH]; intros h R; [exact R|].
  simpl. apply IH, fnv1a_step_range.
Qed.

Lemma charCode_inj (c1 c2 : ascii) : charCode c1 = charCode c2 -> c1 = c2.
Proof.
  unfold charCode. intros E. apply N2Z.inj in E.
  rewrite <- (ascii_N_embedding c1), <- (ascii_N_embedding c2), E. reflexivity.
Qed.

Lemma lxor_code_range (h : Z) (c : ascii) :
  0 <= h < 2 ^ 32 -> 0 <= Z.lxor h (charCode c) < 2 ^ 32.
Proof.
  intros R. pose proof (charCode_range c). apply lxor_range; lia.
Qed.

(** One turn is injective in the accumulator and in the character. *)
Lemma fnv1a_step_inj_h (h1 h2 : Z) (c : ascii) :
  0 <= h1 < 2 ^ 32 -> 0 <= h2 < 2 ^ 32 ->
  fnv1a_step h1 c = fnv1a_step h2 c -> h1 = h2.
Proof.
  intros R1 R2 E. unfold fnv1a_step in E.
  apply mul_prime_inj in E; try (apply lxor_code_range; assumption).
  apply (f_equal (fun x => Z.lxor x (charCode c))) in E.
  rewrite !Z.lxor_assoc, !Z.lxor_nilpotent, !Z.lxor_0_r in E. exact E.
Qed.

Lemma fnv1a_step_inj_c (h : Z) (c1 c2 : ascii) :
  0 <= h < 2 ^ 32 ->
  fnv1a_step h c1 = fnv1a_step h c2 -> c1 = c2.
Proof.
  intros R E. unfold fnv1a_step in E.
  apply mul_prime_inj in E; try (apply lxor_code_range; assumption).
  apply (f_equal (Z.lxor h)) in E.
  rewrite <- !Z.lxor_assoc, !Z.lxor_nilpotent, !Z.lxor_0_l in E.
  apply charCode_inj. exact E.
Qed.

Lemma fnv1a_fold_inj (l : list ascii) (h1 h2 : Z) :
  0 <= h1 < 2 ^ 32 -> 0 <= h2 < 2 ^ 32 ->
  foldl fnv1a_step h1 l = foldl fnv1a_step h2 l -> h1 = h2.
Proof.
  revert h1 h2. induction l as [|c rest IH]; intros h1 h2 R1 R2 E; [exact E|].
  simpl in E. apply IH in E; try apply fnv1a_step_range.
  exact (fnv1a_step_inj_h h1 h2 c R1 R2 E).
Qed.

Lemma fnv1a_substitution (pre post : string) (c1 c2 : ascii) :
  fnv1a (pre +:+ String c1 post) = fnv1a (pre +:+ String c2 post) -> c1 = c2.
Proof.
  unfold fnv1a. rewrite !L_app. simpl String.list_ascii_of_string.
  rewrite !foldl_app. simpl foldl.
  set (h := foldl fnv1a_step fnv_offset_basis (String.list_ascii_of_string pre)).
  assert (R : 0 <= h < 2 ^ 32).
  { apply fnv1a_fold_range. unfold fnv_offset_basis. lia. }
  intros E. apply fnv1a_fold_inj in E; try apply fnv1a_step_range.
  exact (fnv1a_step_inj_c h c1 c2 R E).
Qed.

(** X14.  The integer that [seededRandom] divides by [2^32] is the 32-bit
    FNV-1a hash of the seed: the shifts of the loop add up to the product
    with the prime 16777619 modulo [2^32]. *)
Theorem seededRandom_is_fnv1a (seed : string) :
  ushr0 (hash_loop (ushr0 2166136261) seed) = fnv1a seed /\
  (0 <= fnv1a seed < 2 ^ 32) /\
  exists q, seededRandom seed = Num q /\ (q == fnv1a seed # (2 ^ 32))%Q.
Proof.
  assert (E : ushr0 (hash_loop (ushr0 2166136261) seed) = fnv1a seed).
  { unfold hash_loop. rewrite hash_loop_fnv. reflexivity. }
  split; [exact E|]. split.
  - rewrite <- E. apply ushr0_range.
  - destruct (seededRandom_value seed) as (q & S & V).
    exists q. split; [exact S|]. rewrite V, E. reflexivity.
Qed.

(** X15.  Two seeds that differ in one code unit, at the same place, never
    have the same random value. *)
Theorem seededRandom_substitution (pre post : string) (c1 c2 : ascii) :
  c1 <> c2 ->
  seededRandom (pre +:+ String c1 post) <> seededRandom (pre +:+ String c2 post).
Proof.
  intros N E. apply N.
  destruct (seededRandom_fnv_value (pre +:+ String c1 post)) as (R1 & q1 & S1 & V1).
  destruct (seededRandom_fnv_value (pre +:+ String c2 post)) as (R2 & q2 & S2 & V2).
  rewrite S1, S2 in E. injection E as E. subst q2.
  apply (fnv1a_substitution pre post).
  rewrite V1 in V2. unfold Qeq in V2. simpl in V2. lia.
Qed.

End Fnv.

(** ** The jitter separates co-located records *)

Section Separation.
Context `{Rounding} `{Builtins}.






End Separation.

(** ** The normalized index *)

Section Index.
Context `{Rounding} `{Builtins}.

Lemma buildNormIndex_snoc (l : GeoCache) (k : string) (e : GeoEntry) :
  buildNormIndex (l ++ [(k, e)]) = <[norm k := e]> (buildNormIndex l).
Proof. unfold buildNormIndex. rewrite foldl_app. reflexivity. Qed.

Lemma index_sound (cache : GeoCache) (n : string) (e : GeoEntry) :
  buildNormIndex cache !! n = Some e -> exists k, In (k, e) cache /\ norm k = n.
Proof.
  induction cache as [|[k e'] l IH] using rev_ind.
  - unfold buildNormIndex. simpl. rewrite lookup_empty. discriminate.
  - rewrite buildNormIndex_snoc. intros E.
    destruct (decide (norm k = n)) as [<-|N].
    + rewrite lookup_insert_eq in E. injection E as ->.
      exists k. split; [apply in_or_app; right; left; reflexivity | reflexivity].
    + rewrite lookup_insert_ne in E by exact N.
      destruct (IH E) as (k0 & I & Nk). exists k0. split; [|exact Nk].
      apply in_or_app. left. exact I.
Qed.

Lemma index_complete (cache : GeoCache) (k : string) (e : GeoEntry) :
  In (k, e) cache -> is_Some (buildNormIndex cache !! norm k).
Proof.
  induction cache as [|[k' e'] l IH] using rev_ind; [contradiction|].
  rewrite buildNormIndex_snoc. intros I.
  destruct (decide (norm k' = norm k)) as [E|N].
  - rewrite E, lookup_insert_eq. eexists. reflexivity.
  - rewrite lookup_insert_ne by exact N. apply IH.
    apply in_app_or in I as [I|[I|[]]]; [exact I|].
    injection I as -> ->. contradiction.
Qed.

Lemma index_exact (cache : GeoCache) (k : string) (e : GeoEntry) :
  NoDup (List.map (fun p => norm p.1) cache) ->
  In (k, e) cache -> buildNormIndex cache !! norm k = Some e.
Proof.
  induction cache as [|[k' e'] l IH] using rev_ind; [contradiction|].
  rewrite buildNormIndex_snoc, List.map_app. simpl. intros D I.
  apply NoDup_app in D as (D1 & D2 & _).
  apply in_app_or in I as [I|[I|[]]].
  - rewrite lookup_insert_ne; [exact (IH D1 I)|].
    intros E. apply (D2 (norm k)).
    + apply (in_map (fun p => norm p.1) l (k, e)) in I. apply list_elem_of_In. exact I.
    + rewrite E. left.
  - injection I as -> ->. apply lookup_insert_eq.
Qed.

Lemma cache_get_In (cache : GeoCache) (k : string) (e : GeoEntry) :
  cache_get cache k = Some e -> In (k, e) cache.
Proof.
  induction cache as [|[k' e'] l IH]; simpl; [discriminate|].
  case_bool_decide as E.
  - intros [= ->]. left. rewrite E. reflexivity.
  - intros G. right. exact (IH G).
Qed.

Lemma cache_get_exact (cache : GeoCache) (k : string) (e : GeoEntry) :
  NoDup (List.map (fun p => norm p.1) cache) ->
  In (k, e) cache -> cache_get cache k = Some e.
Proof.
  induction cache as [|[k' e'] l IH]; simpl; [contradiction|].
  intros D I. apply NoDup_cons in D as [D1 D2].
  case_bool_decide as E.
  - destruct I as [I|I]; [injection I as _ ->; reflexivity|].
    exfalso. apply D1. subst k'.
    apply list_elem_of_In. exact (in_map (fun p => norm p.1) l (k, e) I).
  - destruct I as [I|I]; [injection I as -> _; contradiction|]. exact (IH D2 I).
Qed.

(** X4.  The normalized index holds nothing but entries of the cache, each
    under the canonical form of its key; every key of the cache is found
    under its canonical form, whatever key of this form is looked up; and
    when no two keys of the cache share a canonical form, the index gives
    for a key what the cache gives. *)
Theorem index_round_trip (cache : GeoCache) :
  (forall n e, buildNormIndex cache !! n = Some e ->
     exists k, In (k, e) cache /\ norm k = n) /\
  (forall k e k', In (k, e) cache -> norm k' = norm k ->
     is_Some (buildNormIndex cache !! norm k')) /\
  (NoDup (List.map (fun p => norm p.1) cache) ->
   forall k e, cache_get cache k = Some e ->
     buildNormIndex cache !! norm k = Some e).
Proof.
  split; [|split].
  - apply index_sound.
  - intros k e k' I ->. exact (index_complete cache k e I).
  - intros D k e G. apply index_exact; [exact D|]. exact (cache_get_In cache k e G).
Qed.

End Index.

Section Position.
Context `{Rounding} `{Builtins}.

Lemma cacheTier_no_keys (st : State) (d : Dispensary) (ll : value * value) :
  candidateKeys d = [] -> cacheTier st d ll = ll.
Proof.
  intros K. unfold cacheTier. rewrite K.
  destruct (geoCache st); [|reflexivity].
  destruct (missing ll.1 ll.2) eqn:M; [|reflexivity].
  simpl firstHit. cbv iota. cbv zeta.
  destruct (geoCacheNorm st); [|reflexivity].
  rewrite bool_decide_eq_true_2 by reflexivity. rewrite andb_false_r. reflexivity.
Qed.

Lemma candidateKeys_blank (d : Dispensary) :
  trim d.(address) = "" \/ trim d.(city) = "" -> candidateKeys d = [].
Proof.
  intros B. unfold candidateKeys. rewrite !or_empty.
  destruct B as [-> | ->]; simpl; rewrite ?andb_false_r; reflexivity.
Qed.

(** X18.  A record with a blank address or a blank city has no candidate
    key: its position is the same in every state, the one of the explicit
    and the centroid tiers alone. *)
Theorem blank_address_skips_cache (st st' : State) (d : Dispensary) :
  trim d.(address) = "" \/ trim d.(city) = "" ->
  updateMap_position st d = updateMap_position st' d /\
  updateMap_position st d = centroidTier d (explicitTier d (VNull, VNull)).
Proof.
  intros B. pose proof (candidateKeys_blank d B) as K.
  unfold updateMap_position. rewrite !(cacheTier_no_keys _ d _ K). split; reflexivity.
Qed.

(** X19.  Explicit coordinates of which one is not a finite number count for
    nothing: the record resolves as if it had neither. *)
Theorem partial_coordinates_ignored (st : State) (d : Dispensary) :
  hasExplicit d = false ->
  updateMap_position st d = updateMap_position st (withoutCoordinates d).
Proof.
  intros E. unfold updateMap_position.
  rewrite (explicitTier_none d E).
  assert (X : explicitTier (withoutCoordinates d) (VNull, VNull) = (VNull, VNull)) by reflexivity.
  rewrite X. reflexivity.
Qed.

(** X17.  A record whose city is in the centroid table gets a marker in
    every state.  A record without finite explicit coordinates and without
    a usable cache entry gets none exactly when its city is no property of
    the table. *)
Theorem marker_existence (st : State) (d : Dispensary) :
  (forall a b, table_get getCityCoordinates d.(city) = Some (a, b) ->
     exists p, updateMap_position st d = Some p) /\
  (hasExplicit d = false -> noCacheHit st d ->
   (updateMap_position st d = None <->
    table_get getCityCoordinates d.(city) = None /\
    d.(city) ∉ Object_prototype_names)).
Proof.
  split.
  - intros a b T. unfold updateMap_position, centroidTier.
    rewrite (cityCoords_table _ a b T).
    destruct (missing _ _); eexists; reflexivity.
  - intros E N. unfold updateMap_position.
    rewrite (explicitTier_none d E), (cacheTier_noHit st d N).
    unfold centroidTier, cityCoords. simpl missing. cbv iota.
    destruct (table_get getCityCoordinates (city d)) as [[a b]|].
    + split; [discriminate | intros [? _]; discriminate].
    + case_bool_decide as P.
      * split; [discriminate | intros [_ ?]; contradiction].
      * split; [intros _; split; [reflexivity | exact P] | reflexivity].
Qed.

End Position.

(** ** Filters and counts *)

Section FilterFacts.
Context `{Rounding} `{Builtins}.






Lemma strict_eq_VStr (s : string) (v : value) : strict_eq (VStr s) v = true <-> v = VStr s.
Proof.
  destruct v; simpl; try (split; [discriminate | congruence]).
  rewrite bool_decide_eq_true. split; congruence.
Qed.

(** X10.  An active trend button whose [data-trend] is none of "all", "up",
    "down" and "stable", a missing attribute included, empties the list. *)
Theorem unknown_trend_filters_everything (source : list Dispensary) (c : Controls)
    (t : value) :
  c.(active_trend) = Some t ->
  t <> VStr "all" -> t <> VStr "up" -> t <> VStr "down" -> t <> VStr "stable" ->
  filterRecords source c = [].
Proof.
  intros A N0 N1 N2 N3. rewrite filterRecords_keeps.
  induction source as [|d l IH]; [reflexivity|]. simpl. rewrite IH.
  assert (K : keeps c d = false); [|rewrite K; reflexivity].
  unfold keeps, trendPredicate, trendFilterOf. rewrite A.
  assert (X : strict_eq t (VStr "all") = false).
  { destruct t; try reflexivity. simpl. apply bool_decide_eq_false. congruence. }
  assert (Y : strict_eq (VStr (baseTrend d.(trend_direction))) t = false).
  { destruct (strict_eq _ t) eqn:E; [|reflexivity].
    apply strict_eq_VStr in E.
    destruct (baseTrend_cases d.(trend_direction)) as [B|[B|B]]; rewrite B in E; congruence. }
  rewrite X, Y. simpl. apply andb_false_r.
Qed.

Lemma tally_filter (key : string) (f : Dispensary -> bool) (l : list Dispensary) :
  (forall d, f d = true -> baseTrend d.(trend_direction) = key) ->
  tally key (List.filter f l) = Z.of_nat (length (List.filter f l)).
Proof.
  intros F. unfold tally. rewrite filter_twice. do 2 f_equal.
  apply filter_ext. intros d. destruct (f d) eqn:E; [|reflexivity].
  simpl. apply bool_decide_eq_true. exact (F d E).
Qed.

Lemma tally_other (key : string) (f : Dispensary -> bool) (l : list Dispensary) :
  (forall d, f d = true -> baseTrend d.(trend_direction) <> key) ->
  tally key (List.filter f l) = 0%Z.
Proof.
  intros F. unfold tally. rewrite filter_twice.
  assert (E : List.filter (fun x => f x && bool_decide (baseTrend x.(trend_direction) = key)) l = []).
  { induction l as [|d l IH]; [reflexivity|]. simpl. rewrite IH.
    destruct (f d) eqn:E; [|reflexivity]. simpl.
    rewrite bool_decide_eq_false_2; [reflexivity | exact (F d E)]. }
  rewrite E. reflexivity.
Qed.

Lemma keeps_trend (c : Controls) (key : string) (d : Dispensary) :
  c.(active_trend) = Some (VStr key) -> key <> "all" ->
  keeps c d = true -> baseTrend d.(trend_direction) = key.
Proof.
  intros A N K. unfold keeps, trendPredicate, trendFilterOf in K. rewrite A in K.
  apply andb_true_iff in K as [_ K]. simpl in K.
  rewrite (bool_decide_eq_false_2 (key = "all") N) in K. simpl in K.
  apply bool_decide_eq_true in K. exact K.
Qed.

(** X12.  After a trend button is chosen, [calculateStats] counts every
    listed record in that bucket and none in the other two. *)
Theorem trend_filter_then_stats (source : list Dispensary) (c : Controls) (key : string) :
  c.(active_trend) = Some (VStr key) ->
  key = "up" \/ key = "down" \/ key = "stable" ->
  let shown := filterRecords source c in
  calculateStats shown !! key = Some (Z.of_nat (length shown)) /\
  (forall other, other = "up" \/ other = "down" \/ other = "stable" ->
     other <> key -> calculateStats shown !! other = Some 0%Z).
Proof.
  intros A K shown. unfold shown. rewrite filterRecords_keeps.
  assert (N : key <> "all") by (destruct K as [-> | [-> | ->]]; discriminate).
  split.
  - rewrite (calculateStats_tally _ key K). f_equal.
    apply tally_filter. intros d. apply keeps_trend; assumption.
  - intros other O D. rewrite (calculateStats_tally _ other O). f_equal.
    apply tally_other. intros d Kd E. apply D. rewrite <- E.
    exact (keeps_trend c key d A N Kd).
Qed.

Lemma tally_app (key : string) (l1 l2 : list Dispensary) :
  tally key (l1 ++ l2) = (tally key l1 + tally key l2)%Z.
Proof. unfold tally. rewrite List.filter_app, length_app. lia. Qed.

(** X13.  The counts of a list are the sums of the counts of its parts, do
    not depend on the order of the records, and are zero for no record. *)
Theorem stats_additive (l1 l2 : list Dispensary) (key : string) :
  key = "up" \/ key = "down" \/ key = "stable" ->
  (exists n1 n2,
      calculateStats l1 !! key = Some n1 /\ calculateStats l2 !! key = Some n2 /\
      calculateStats (l1 ++ l2) !! key = Some (n1 + n2)%Z) /\
  (forall l', Permutation l1 l' -> calculateStats l' !! key = calculateStats l1 !! key) /\
  calculateStats [] !! key = Some 0%Z.
Proof.
  intros K. split; [|split].
  - exists (tally key l1), (tally key l2).
    rewrite !(calculateStats_tally _ key K), tally_app. repeat split.
  - intros l' P. rewrite !(calculateStats_tally _ key K). f_equal.
    unfold tally. f_equal. symmetry. apply filter_length_perm. exact P.
  - rewrite (calculateStats_tally _ key K). reflexivity.
Qed.

Lemma filter_sublist {A : Type} (f : A -> bool) (l : list A) : sublist (List.filter f l) l.
Proof.
  induction l as [|x l IH]; simpl; [constructor|].
  destruct (f x); [apply sublist_skip | apply sublist_cons]; exact IH.
Qed.

(** X11.  Every application filters the whole source: what a later
    application gives does not depend on what an earlier one left; the
    document and the caches stay; the list is the source with records left
    out, in the order of the source. *)
Theorem filters_never_compound (st st' : State) (c : Controls) :
  applyFilters st c = Return st' ->
  (forall c', applyFilters st' c' = applyFilters st c') /\
  st'.(data) = st.(data) /\ st'.(geoCache) = st.(geoCache) /\
  st'.(geoCacheNorm) = st.(geoCacheNorm) /\
  (forall ds source, st.(data) = Some ds -> dataSource ds = Some source ->
     sublist st'.(filteredData) source).
Proof.
  intros A. unfold applyFilters in A.
  destruct (data st) as [ds|] eqn:D.
  - destruct (dataSource ds) as [source|] eqn:S; [|discriminate].
    injection A as <-. split; [|split; [|split; [|split]]]; try reflexivity.
    + intros c'. unfold applyFilters. simpl. rewrite D, S. reflexivity.
    + intros ds' source' [= <-]. rewrite S. intros [= <-].
      simpl. rewrite filterRecords_keeps. apply filter_sublist.
  - injection A as <-. split; [|split; [|split; [|split]]]; try reflexivity.
    + exact D.
    + intros ds source [=].
Qed.

End FilterFacts.

(** ** [loadData] *)

Section Load.
Context `{Rounding} `{Builtins}.

Lemma loadCache_data (s : State) (g : fetched (option GeoCache)) :
  data (loadCache s g) = data s.
Proof. destruct g as [m|[] status [[cache|]|m]]; reflexivity. Qed.

Lemma loadCache_filteredData (s : State) (g : fetched (option GeoCache)) :
  filteredData (loadCache s g) = filteredData s.
Proof. destruct g as [m|[] status [[cache|]|m]]; reflexivity. Qed.

(** X2.  Whatever becomes of the geocode cache, [loadData] leaves the same
    document, the same list and the same error text. *)
Theorem cache_is_optional (st : State) (main : fetched Dataset)
    (geo geo' : fetched (option GeoCache)) :
  (loadData st main geo).2 = (loadData st main geo').2 /\
  (loadData st main geo).1.(data) = (loadData st main geo').1.(data) /\
  (loadData st main geo).1.(filteredData) = (loadData st main geo').1.(filteredData).
Proof.
  unfold loadData. destruct main as [m|[] status [ds|m]]; try (repeat split; reflexivity).
  cbv zeta.
  destruct (locations_data ds) as [l|];
    [|destruct (dispensaries ds) as [l|]];
    repeat split; simpl; rewrite ?loadCache_data, ?loadCache_filteredData; reflexivity.
Qed.

(** X1.  A load that fails leaves the list and writes "Error: Failed to
    load dispensary data: " and the message of the error: the one of the
    rejection, or "HTTP error! status: " and the status.  A load that
    succeeds stores the document and lists its source, [locations.data]
    before [dispensaries]; applying no filter then changes nothing. *)
Theorem loadData_outcomes (st : State) (main : fetched Dataset)
    (geo : fetched (option GeoCache)) :
  let after := (loadData st main geo).1 in
  (forall text, (loadData st main geo).2 = Some text ->
     after.(filteredData) = st.(filteredData) /\
     exists message,
       text = "Error: Failed to load dispensary data: " +:+ message) /\
  ((loadData st main geo).2 = None ->
     exists status ds source,
       main = Response true status (Return ds) /\
       dataSource ds = Some source /\
       (forall l, ds.(locations_data) = Some l -> source = l) /\
       after.(data) = Some ds /\ after.(filteredData) = source /\
       applyFilters after inactive = Return after) /\
  (forall message,
     loadData st (Rejected message) geo =
       (st, Some ("Error: Failed to load dispensary data: " +:+ message))) /\
  (forall status body,
     loadData st (Response false status body) geo =
       (st, Some ("Error: Failed to load dispensary data: HTTP error! status: "
                  +:+ Z_to_string status))) /\
  (forall status message,
     loadData st (Response true status (Throw message)) geo =
       (st, Some ("Error: Failed to load dispensary data: " +:+ message))).
Proof.
  intros after. split; [|split; [|split; [|split]]]; try reflexivity.
  - unfold after, loadData. intros text.
    destruct main as [m|[] status [ds|m]]; cbv zeta; simpl;
      try (intros [= <-]; split; [reflexivity|]; eexists; reflexivity).
    destruct (locations_data ds) as [l|]; [discriminate|].
    destruct (dispensaries ds) as [l|]; [discriminate|].
    simpl. intros [= <-]. split; [rewrite loadCache_filteredData; reflexivity|]. eexists. reflexivity.
  - unfold after, loadData.
    destruct main as [m|[] status [ds|m]]; cbv zeta; simpl; try discriminate.
    unfold dataSource.
    destruct (locations_data ds) as [l|] eqn:E1.
    + intros _. exists status, ds, l.
      split; [reflexivity|]. split; [rewrite E1; reflexivity|]. split; [|split; [|split]].
      * intros l' E. rewrite E1 in E. injection E as <-. reflexivity.
      * simpl. rewrite loadCache_data. reflexivity.
      * reflexivity.
      * unfold applyFilters. simpl. rewrite loadCache_data.
        simpl. unfold dataSource. rewrite E1.
        unfold withFiltered. rewrite loadCache_data. reflexivity.
    + destruct (dispensaries ds) as [l|] eqn:E2; [|discriminate].
      intros _. exists status, ds, l.
      split; [reflexivity|]. split; [rewrite E1, E2; reflexivity|]. split; [|split; [|split]].
      * intros l' E. rewrite E1 in E. discriminate E.
      * simpl. rewrite loadCache_data. reflexivity.
      * reflexivity.
      * unfold applyFilters. simpl. rewrite loadCache_data.
        simpl. unfold dataSource. rewrite E1, E2.
        unfold withFiltered. rewrite loadCache_data. reflexivity.
Qed.

(** X3.  A document with neither list: the load fails after the document
    is stored, the list stays, and [populateFilters] and [applyFilters]
    then throw. *)
Theorem document_without_locations (st : State) (status : Z) (ds : Dataset)
    (geo : fetched (option GeoCache)) (regions : option (list string)) (c : Controls) :
  dataSource ds = None ->
  let after := (loadData st (Response true status (Return ds)) geo).1 in
  (loadData st (Response true status (Return ds)) geo).2 =
    Some "Error: Failed to load dispensary data: No dispensary locations found in data" /\
  after.(data) = Some ds /\
  after.(filteredData) = st.(filteredData) /\
  populateFilters after regions = (default [] regions, Throw "TypeError") /\
  applyFilters after c = Throw "TypeError".
Proof.
  intros D after. unfold after, loadData. cbv zeta.
  unfold dataSource in D.
  destruct (locations_data ds) as [l|] eqn:E1; [discriminate|].
  destruct (dispensaries ds) as [l|] eqn:E2; [discriminate|].
  simpl.
  set (s := loadCache _ geo).
  assert (Ds : data s = Some ds) by (unfold s; rewrite loadCache_data; reflexivity).
  split; [reflexivity|]. split; [exact Ds|]. split; [unfold s; rewrite loadCache_filteredData; reflexivity|].
  unfold populateFilters, applyFilters, dataSource. rewrite Ds, E1, E2. split; reflexivity.
Qed.

(** X5.  The index belongs to the cache: with a cache it is the index
    built from it, without one it is missing or empty.  This holds after
    the constructor and is kept by [loadData] and by [applyFilters]; so
    every entry of the index is an entry of the cache in use, under the
    canonical form of its key.  A cache document that is [null], or falsy
    otherwise, leaves no cache and an empty index, and every record is then
    placed by the explicit and the centroid tiers alone. *)
Theorem index_follows_cache (st : State) (main : fetched Dataset)
    (geo : fetched (option GeoCache)) (c : Controls) :
  indexed constructor /\
  (indexed st -> indexed (loadData st main geo).1) /\
  (indexed st -> forall st', applyFilters st c = Return st' -> indexed st') /\
  (indexed st -> forall index n e,
     st.(geoCacheNorm) = Some index -> index !! n = Some e ->
     exists cache k, st.(geoCache) = Some cache /\ In (k, e) cache /\ norm k = n) /\
  (forall status status' ds,
     let after :=
       (loadData st (Response true status (Return ds))
          (Response true status' (Return None))).1 in
     after.(geoCache) = None /\ after.(geoCacheNorm) = Some ∅ /\
     forall d, updateMap_position after d =
               centroidTier d (explicitTier d (VNull, VNull))).
Proof.
  assert (C : forall s g, indexed s -> indexed (loadCache s g)).
  { intros s g I. destruct g as [m|[] st' [[cache|]|m]]; try exact I.
    - reflexivity.
    - right. reflexivity. }
  split; [left; reflexivity|]. split; [|split; [|split]].
  - intros I. unfold loadData. destruct main as [m|[] status [ds|m]]; try exact I.
    cbv zeta.
    set (s := loadCache _ geo).
    assert (Is : indexed s) by (apply C; exact I).
    destruct (locations_data ds); [exact Is|]. destruct (dispensaries ds); exact Is.
  - intros I st'. unfold applyFilters. destruct (data st) as [ds|].
    + destruct (dataSource ds); [|discriminate]. intros [= <-]. exact I.
    + intros [= <-]. exact I.
  - unfold indexed. intros I index n e X L.
    destruct (geoCache st) as [cache|].
    + rewrite I in X. injection X as <-.
      destruct (index_sound cache n e L) as (k & Ik & Nk).
      exists cache, k. split; [reflexivity|]. split; assumption.
    + destruct I as [I|I]; rewrite I in X; [discriminate|].
      injection X as <-. rewrite lookup_empty in L. discriminate.
  - intros status status' ds after.
    assert (G : after.(geoCache) = None /\ after.(geoCacheNorm) = Some ∅).
    { unfold after, loadData. cbv zeta.
      destruct (locations_data ds); [split; reflexivity|].
      destruct (dispensaries ds); split; reflexivity. }
    destruct G as [G X]. split; [exact G|]. split; [exact X|].
    intros d. unfold updateMap_position, cacheTier. rewrite G. reflexivity.
Qed.

End Load.

(** ** [populateFilters] *)

Section SortUnique.
Context {A : Type} (R : A -> A -> Prop).

(** A list has one sorted arrangement when its elements are ordered
    antisymmetrically. *)
Lemma sorted_perm_eq (l1 l2 : list A) :
  StronglySorted R l1 -> StronglySorted R l2 -> Permutation l1 l2 ->
  (forall a b, In a l1 -> In b l1 -> R a b -> R b a -> a = b) ->
  l1 = l2.
Proof.
  intros S1. revert l2. induction S1 as [|a t1 S1 IH F1]; intros l2 S2 P Anti.
  - apply Permutation_nil in P. symmetry. exact P.
  - destruct S2 as [|b t2 S2 F2].
    + apply Permutation_sym, Permutation_nil in P. discriminate P.
    + assert (E : a = b).
      { assert (Ia : In a (b :: t2)) by (apply (Permutation_in _ P); left; reflexivity).
        assert (Ib : In b (a :: t1))
          by (apply (Permutation_in _ (Permutation_sym P)); left; reflexivity).
        destruct Ia as [Ia|Ia]; [symmetry; exact Ia|].
        destruct Ib as [Ib|Ib]; [exact Ib|].
        rewrite List.Forall_forall in F1, F2.
        apply Anti; [left; reflexivity | right; exact Ib | apply F1; exact Ib
                    | apply F2; exact Ia]. }
      subst b. f_equal. apply IH; [exact S2 | exact (Permutation_cons_inv P) |].
      intros x y Hx Hy. apply Anti; right; assumption.
Qed.

End SortUnique.

Section Cities.
Context `{Rounding} `{Builtins}.

Lemma uniqueInOrder_fold (l seen : list string) :
  List.NoDup seen ->
  let r := foldl (fun seen x => if bool_decide (x ∈ seen) then seen else seen ++ [x]) seen l in
  List.NoDup r /\ forall x, In x r <-> In x seen \/ In x l.
Proof.
  revert seen. induction l as [|y l IH]; intros seen N; simpl.
  - split; [exact N|]. intros x. tauto.
  - case_bool_decide as E.
    + destruct (IH seen N) as [N' M]. split; [exact N'|].
      intros x. rewrite M. apply list_elem_of_In in E.
      split; [tauto|]. intros [I|[<-|I]]; tauto.
    + assert (N2 : List.NoDup (seen ++ [y])).
      { apply NoDup_ListNoDup. apply NoDup_app. split; [apply NoDup_ListNoDup; exact N|].
        split; [|apply NoDup_singleton].
        intros x Hx Hy. apply list_elem_of_singleton in Hy. subst x. contradiction. }
      destruct (IH (seen ++ [y]) N2) as [N' M]. split; [exact N'|].
      intros x. rewrite M, in_app_iff. simpl. tauto.
Qed.

Lemma uniqueInOrder_spec (l : list string) :
  List.NoDup (uniqueInOrder l) /\ forall x, In x (uniqueInOrder l) <-> In x l.
Proof.
  destruct (uniqueInOrder_fold l [] (List.NoDup_nil _)) as [N M].
  split; [exact N|]. intros x. rewrite (M x). simpl. tauto.
Qed.

Lemma uniqueInOrder_In (l : list string) (x : string) : In x (uniqueInOrder l) <-> In x l.
Proof. apply uniqueInOrder_spec. Qed.

Lemma lex_total (a b : string) : before lexCompare a b \/ before lexCompare b a.
Proof. unfold before. rewrite !lexCompare_le. apply (total String.le). Qed.

Lemma lex_trans (a b c : string) :
  before lexCompare a b -> before lexCompare b c -> before lexCompare a c.
Proof. unfold before. rewrite !lexCompare_le. apply transitivity. Qed.

Lemma strictlyBefore_sorted (l : list string) :
  StronglySorted (before lexCompare) l -> List.NoDup l -> StronglySorted strictlyBefore l.
Proof.
  induction 1 as [|a l S IH F]; intros N; [constructor|].
  apply List.NoDup_cons_iff in N as [Na N].
  constructor; [exact (IH N)|].
  rewrite List.Forall_forall in F |- *. intros b Hb. split.
  - apply lexCompare_le. exact (F b Hb).
  - intros ->. contradiction.
Qed.

Lemma namedCity_spec (c : string) : namedCity c = true <-> trim c <> "".
Proof.
  unfold namedCity. rewrite andb_true_iff, negb_true_iff, bool_decide_eq_false, nonempty_iff.
  split; [tauto|]. intros T. split; [|exact T]. intros ->. apply T. reflexivity.
Qed.

Lemma cityOptions_perm (source : list Dispensary) :
  Permutation (cityOptions source)
    (List.filter namedCity (uniqueInOrder (List.map city source))).
Proof. apply sort_perm. Qed.

Lemma cityOptions_In (source : list Dispensary) (c : string) :
  In c (cityOptions source) <->
  (exists d, In d source /\ d.(city) = c) /\ trim c <> "".
Proof.
  split.
  - intros I. apply (Permutation_in _ (cityOptions_perm source)) in I.
    apply filter_In in I as [I N]. rewrite uniqueInOrder_In in I.
    apply in_map_iff in I as (d & E & I). split; [exists d; tauto|].
    apply namedCity_spec. exact N.
  - intros [(d & I & E) T].
    apply (Permutation_in _ (Permutation_sym (cityOptions_perm source))).
    apply filter_In. split; [|apply namedCity_spec; exact T].
    apply uniqueInOrder_In. apply in_map_iff. exists d. tauto.
Qed.

Lemma cityOptions_NoDup (source : list Dispensary) : List.NoDup (cityOptions source).
Proof.
  apply (Permutation_NoDup (Permutation_sym (cityOptions_perm source))).
  apply List.NoDup_filter. apply uniqueInOrder_spec.
Qed.

Lemma cityOptions_sorted (source : list Dispensary) :
  StronglySorted strictlyBefore (cityOptions source).
Proof.
  apply strictlyBefore_sorted; [|apply cityOptions_NoDup].
  apply sort_sorted; [exact lex_total | exact lex_trans].
Qed.

(** X8.  The city options are the names of the cities of the source that
    are not blank, each once, in ascending code-unit order; they do not
    depend on the order of the source. *)
Theorem city_options_sorted_unique (source : list Dispensary) :
  StronglySorted strictlyBefore (cityOptions source) /\
  (forall c, In c (cityOptions source) <->
     (exists d, In d source /\ d.(city) = c) /\ trim c <> "") /\
  (forall source', Permutation source source' ->
     cityOptions source' = cityOptions source) /\
  (forall st regions ds, st.(data) = Some ds -> dataSource ds = Some source ->
     populateFilters st regions = (default [] regions, Return (cityOptions source))).
Proof.
  split; [apply cityOptions_sorted|]. split; [apply cityOptions_In|]. split.
  - intros source' P. apply (sorted_perm_eq strictlyBefore).
    + apply cityOptions_sorted.
    + apply cityOptions_sorted.
    + apply Permutation.NoDup_Permutation; try apply cityOptions_NoDup.
      intros c. rewrite !cityOptions_In.
      split; intros [(d & I & E) T]; (split; [|exact T]); exists d; (split; [|exact E]).
      * exact (Permutation_in _ (Permutation_sym P) I).
      * exact (Permutation_in _ P I).
    + intros a b _ _ [L1 _] [L2 _]. exact (anti_symm String.le a b L1 L2).
  - intros st regions ds D S. unfold populateFilters. rewrite D, S. reflexivity.
Qed.

End Cities.

(** ** The radius of a marker *)

Section Radius.
Context `{Rounding} `{Builtins}.

Lemma lit_integral (z : Z) : (Z.abs z <= 2 ^ 53)%Z -> integral (lit (inject_Z z)) z.
Proof. apply lit_int. Qed.

Lemma add_integral (a b : number) (x y : Z) :
  integral a x -> integral b y -> (Z.abs (x + y) <= 2 ^ 53)%Z ->
  integral (js_add a b) (x + y).
Proof.
  intros (p & -> & P) (q & -> & Q) B. simpl.
  apply of_exact_int; [|exact B]. rewrite P, Q, inject_Z_plus. reflexivity.
Qed.

Lemma sub_integral (a b : number) (x y : Z) :
  integral a x -> integral b y -> (Z.abs (x - y) <= 2 ^ 53)%Z ->
  integral (js_sub a b) (x - y).
Proof.
  intros (p & -> & P) (q & -> & Q) B. rewrite js_sub_Num.
  apply of_exact_int; [|exact B]. rewrite P, Q, <- inject_Z_opp, <- inject_Z_plus. reflexivity.
Qed.

Lemma mul_integral (a b : number) (x y : Z) :
  integral a x -> integral b y -> (Z.abs (x * y) <= 2 ^ 53)%Z ->
  integral (js_mul a b) (x * y).
Proof.
  intros (p & -> & P) (q & -> & Q) B. simpl.
  apply of_exact_int; [|exact B]. rewrite P, Q, inject_Z_mult. reflexivity.
Qed.

Lemma of_exact_not_NaN (q : Q) : of_exact q <> NaN.
Proof.
  unfold of_exact. destruct (Qle_bool _ _); [destruct (Qle_bool 0 q)|]; discriminate.
Qed.

Lemma inf_signed_not_NaN (pos : bool) (q : Q) : ~ (q == 0)%Q -> inf_signed pos q <> NaN.
Proof.
  intros N. unfold inf_signed. rewrite (Qeq_bool_false _ _ N).
  destruct (Bool.eqb _ _); discriminate.
Qed.

Lemma div_not_NaN (a : number) (c : Q) :
  a <> NaN -> ~ (c == 0)%Q -> js_div a (Num c) <> NaN.
Proof.
  intros A C. destruct a as [| | |x]; simpl; try contradiction.
  - destruct (Qle_bool 0 c); discriminate.
  - destruct (Qle_bool 0 c); discriminate.
  - rewrite (Qeq_bool_false _ _ C). apply of_exact_not_NaN.
Qed.

Lemma mul_not_NaN (a : number) (c : Q) :
  a <> NaN -> ~ (c == 0)%Q -> js_mul a (Num c) <> NaN.
Proof.
  intros A C. destruct a as [| | |x]; simpl; try contradiction.
  - apply inf_signed_not_NaN. exact C.
  - apply inf_signed_not_NaN. exact C.
  - apply of_exact_not_NaN.
Qed.

Lemma add_not_NaN (x : Q) (b : number) : b <> NaN -> js_add (Num x) b <> NaN.
Proof.
  intros B. destruct b as [| | |y]; simpl; try contradiction; try discriminate.
  apply of_exact_not_NaN.
Qed.

(** [Math.min(hi, Math.max(lo, r))] *)
Lemma clamp_range (lo hi : Q) (r : number) :
  (lo <= hi)%Q -> r <> NaN ->
  exists z, Math_min [Num hi; Math_max [Num lo; r]] = Num z /\ (lo <= z /\ z <= hi)%Q.
Proof.
  intros L R. unfold Math_min, Math_max. simpl foldl.
  destruct r as [| | |q]; [contradiction| | |].
  - cbn. destruct (hi ?= hi)%Q eqn:E; try (exists hi; split; [reflexivity | lra]).
  - cbn. destruct (hi ?= lo)%Q eqn:E.
    + exists hi. split; [reflexivity | lra].
    + exists hi. split; [reflexivity | lra].
    + exists lo. split; [reflexivity | lra].
  - cbn. destruct (lo ?= q)%Q eqn:E.
    + cbn. destruct (hi ?= lo)%Q eqn:E2.
      * exists hi. split; [reflexivity | lra].
      * exists hi. split; [reflexivity | lra].
      * exists lo. split; [reflexivity | lra].
    + cbn. apply Qlt_alt in E. destruct (hi ?= q)%Q eqn:E2.
      * exists hi. split; [reflexivity | lra].
      * exists hi. split; [reflexivity | lra].
      * apply Qgt_alt in E2. exists q. split; [reflexivity | lra].
    + cbn. destruct (hi ?= lo)%Q eqn:E2.
      * exists hi. split; [reflexivity | lra].
      * exists hi. split; [reflexivity | lra].
      * exists lo. split; [reflexivity | lra].
Qed.

Lemma clamp_NaN (lo hi : Q) : Math_min [Num hi; Math_max [Num lo; NaN]] = NaN.
Proof. reflexivity. Qed.

(** X20.  The radius of a marker is between 4 and 15 whenever the average
    sales are a number, an infinity included, and is NaN when they are
    not. *)
Theorem marker_radius_clamped (sales : value) :
  (isNaN sales = true -> markerRadius sales = NaN) /\
  (isNaN sales = false ->
   exists r, markerRadius sales = Num r /\ (4 <= r /\ r <= 15)%Q).
Proof.
  unfold markerRadius, isNaN. cbv zeta.
  destruct (lit_integral 4 ltac:(lia)) as (lo & Elo & Hlo).
  destruct (lit_integral 15 ltac:(lia)) as (hi & Ehi & Hhi).
  destruct (lit_integral 1000000 ltac:(lia)) as (m & Em & Hm).
  change (lit (inject_Z 4)) with (lit 4) in Elo.
  change (lit (inject_Z 15)) with (lit 15) in Ehi.
  change (lit (inject_Z 1000000)) with (lit 1000000) in Em.
  destruct (sub_integral (lit 15) (lit 4) 15 4) as (w & Ew & Hw);
    [exists hi; split; assumption | exists lo; split; assumption | lia |].
  rewrite Ew, Em. rewrite Elo at 1. rewrite Ehi, Elo.
  split.
  - intros N. destruct (ToNumber sales); try discriminate. reflexivity.
  - intros N.
    assert (R : js_add (Num lo) (js_mul (js_div (ToNumber sales) (Num m)) (Num w)) <> NaN).
    { apply add_not_NaN, mul_not_NaN; [apply div_not_NaN|].
      - destruct (ToNumber sales); [discriminate N| | |]; discriminate.
      - rewrite Hm. discriminate.
      - rewrite Hw. discriminate. }
    destruct (clamp_range lo hi _ ltac:(rewrite Hlo, Hhi; discriminate) R) as (z & Ez & Bz).
    exists z. split; [exact Ez|]. rewrite Hlo, Hhi in Bz. exact Bz.
Qed.

End Radius.

(** ** The sparkline *)

Section Order.
Context `{Rounding} `{Builtins}.

Lemma NoDup_map_injective {A B : Type} (f : A -> B) (l : list A) (a b : A) :
  List.NoDup (List.map f l) -> In a l -> In b l -> f a = f b -> a = b.
Proof.
  induction l as [|x l IH]; simpl; [contradiction|].
  intros N Ia Ib E. apply List.NoDup_cons_iff in N as [Nx N].
  destruct Ia as [<-|Ia], Ib as [<-|Ib].
  - reflexivity.
  - exfalso. apply Nx. rewrite E. apply in_map. exact Ib.
  - exfalso. apply Nx. rewrite <- E. apply in_map. exact Ia.
  - exact (IH N Ia Ib E).
Qed.

Lemma goodPoint_valid (d : option MonthlyPoint) : goodPoint d = true -> validPoint d = true.
Proof. unfold goodPoint. intros G. apply andb_true_iff in G as [G _]. exact G. Qed.

(** X21.  With distinct months, the order of the points of [monthly_data]
    does not matter: the plotted values and the drawing are the same. *)
Theorem sparkline_order_independent (canvas : canvas_lookup)
    (series series' : list (option MonthlyPoint)) :
  Permutation series series' ->
  List.NoDup (monthKeys series) ->
  (forall a b, In a (monthKeys series) -> In b (monthKeys series) ->
     (localeCompare a b <=? 0)%Z = (lexCompare a b <=? 0)%Z) ->
  sparklineValues series' = sparklineValues series /\
  createMiniSparkline canvas series' = createMiniSparkline canvas series.
Proof.
  intros P N L.
  assert (K : Permutation (monthKeys series) (monthKeys series')).
  { unfold monthKeys. apply Permutation_map, filter_perm. exact P. }
  assert (V : sparklineValues series' = sparklineValues series).
  { rewrite (sparklineValues_lex series L).
    rewrite (sparklineValues_lex series').
    2:{ intros a b Ia Ib. apply L; apply (Permutation_in _ (Permutation_sym K)); assumption. }
    f_equal. apply (sorted_perm_eq (before byMonthLex)).
    - apply sort_sorted; [exact byMonthLex_total | exact byMonthLex_trans].
    - apply sort_sorted; [exact byMonthLex_total | exact byMonthLex_trans].
    - rewrite !sort_perm. apply filter_perm, Permutation_sym, P.
    - intros a b Ia Ib Rab Rba.
      apply (Permutation_in _ (sort_perm _ _)) in Ia, Ib.
      apply (Permutation_in _ (filter_perm goodPoint _ _ (Permutation_sym P))) in Ia, Ib.
      apply filter_In in Ia as [Ia Ga], Ib as [Ib Gb].
      apply (NoDup_map_injective monthOf (List.filter validPoint series)).
      + exact N.
      + apply filter_In. split; [exact Ia | exact (goodPoint_valid a Ga)].
      + apply filter_In. split; [exact Ib | exact (goodPoint_valid b Gb)].
      + apply byMonth_before in Rab, Rba. exact (anti_symm String.le _ _ Rab Rba). }
  split; [exact V|].
  unfold createMiniSparkline. rewrite V. reflexivity.
Qed.

End Order.

Section Spark.
Context `{Rounding} `{Builtins}.

Lemma div_ratio (a b : Q) (k : Z) :
  ~ (b == 0)%Q -> (a == inject_Z k * b)%Q -> (Z.abs k <= 2 ^ 53)%Z ->
  integral (js_div (Num a) (Num b)) k.
Proof.
  intros B E K. simpl. rewrite (Qeq_bool_false _ _ B).
  apply of_exact_int; [|exact K]. rewrite E. field. exact B.
Qed.

Lemma integral_Num (q : Q) (z : Z) : (q == inject_Z z)%Q -> integral (Num q) z.
Proof. intros E. exists q. split; [reflexivity | exact E]. Qed.

Lemma drawWidth_integral : integral (js_sub (lit 100) (js_mul (lit 5) (lit 2))) 90.
Proof.
  apply (sub_integral _ _ 100 10); [apply (lit_integral 100); lia| |lia].
  apply (mul_integral _ _ 5 2); [apply (lit_integral 5); lia | apply (lit_integral 2); lia | lia].
Qed.

Lemma drawHeight_integral : integral (js_sub (lit 40) (js_mul (lit 5) (lit 2))) 30.
Proof.
  apply (sub_integral _ _ 40 10); [apply (lit_integral 40); lia| |lia].
  apply (mul_integral _ _ 5 2); [apply (lit_integral 5); lia | apply (lit_integral 2); lia | lia].
Qed.

(** The vertex at the fraction [k] (0 or 1) of the width. *)
Lemma sparklineX_end (count index : nat) (k : Z) :
  (2 <= count)%nat -> (Z.of_nat count <= 2 ^ 32)%Z ->
  (Z.of_nat index = k * (Z.of_nat count - 1))%Z -> (0 <= k <= 1)%Z ->
  integral (sparklineX count index) (5 + k * 90).
Proof.
  intros C B E K. unfold sparklineX.
  apply add_integral; [apply (lit_integral 5); lia| |lia].
  apply mul_integral; [|exact drawWidth_integral|lia].
  destruct (sub_integral (of_int (Z.of_nat count)) (lit 1) (Z.of_nat count) 1)
    as (d & Ed & Hd);
    [apply integral_Num; reflexivity | apply (lit_integral 1); lia | lia |].
  rewrite Ed. apply div_ratio; [| |lia].
  - rewrite Hd. intros Z0. unfold Qeq in Z0. simpl in Z0. lia.
  - rewrite Hd, E, inject_Z_mult. reflexivity.
Qed.

Lemma sparklineY_max (minValue : number) (r : Q) (v : value) :
  js_sub (ToNumber v) minValue = Num r -> ~ (r == 0)%Q ->
  integral (sparklineY minValue (Num r) v) 5.
Proof.
  intros E R. unfold sparklineY. rewrite E.
  apply (add_integral _ _ 5 0); [apply (lit_integral 5); lia| |lia].
  apply (sub_integral _ _ 30 30); [exact drawHeight_integral| |lia].
  apply (mul_integral _ _ 1 30); [|exact drawHeight_integral|lia].
  apply div_ratio; [exact R| |lia]. ring.
Qed.

Lemma sparklineY_min (m r : Q) (v : value) :
  ToNumber v = Num m -> ~ (r == 0)%Q ->
  integral (sparklineY (Num m) (Num r) v) 35.
Proof.
  intros E R. unfold sparklineY. rewrite E.
  apply (add_integral _ _ 5 30); [apply (lit_integral 5); lia| |lia].
  apply (sub_integral _ _ 30 0); [exact drawHeight_integral| |lia].
  apply (mul_integral _ _ 0 30); [|exact drawHeight_integral|lia].
  destruct (of_exact_int (m + - m) 0 ltac:(ring) ltac:(lia)) as (z & Ez & Hz).
  rewrite js_sub_Num, Ez.
  apply div_ratio; [exact R| |lia]. rewrite Hz. ring.
Qed.

Lemma range_not_zero (r : Q) :
  ~ (r == 0)%Q -> num_eqb (Num r) (lit 0) = false.
Proof.
  intros R. destruct lit_zero as (z & Ez & Hz). rewrite Ez.
  unfold num_eqb. simpl. destruct (r ?= z)%Q eqn:C; try reflexivity.
  apply Qeq_alt in C. rewrite Hz in C. contradiction.
Qed.

(** The drawing of a series with at least two plotted values and a range
    that is finite and not zero. *)
Lemma createMiniSparkline_line (series : list (option MonthlyPoint)) (r : Q) :
  let values := sparklineValues series in
  let minValue := Math_min (List.map ToNumber values) in
  let maxValue := Math_max (List.map ToNumber values) in
  (2 <= length values)%nat ->
  js_sub maxValue minValue = Num r -> ~ (r == 0)%Q ->
  createMiniSparkline Context2D series =
    [ ClearRect (lit 0) (lit 0) (lit 100) (lit 40);
      StrokeStyle (sparklineColor values); LineWidth (lit 2); BeginPath ] ++
    imap (sparklineVertex (length values) minValue (Num r)) values ++
    [ Stroke; FillStyle (sparklineColor values);
      BeginPath;
      Arc (lit 5) (sparklineY minValue (Num r) (nth 0 values VUndefined)) (lit 2); Fill;
      BeginPath;
      Arc (js_add (lit 5) (js_sub (lit 100) (js_mul (lit 5) (lit 2))))
          (sparklineY minValue (Num r) (nth (length values - 1) values VUndefined))
          (lit 2);
      Fill ].
Proof.
  intros values minValue maxValue L E R.
  unfold createMiniSparkline. fold values. cbv zeta. fold minValue. fold maxValue.
  assert (C : (length values <? 2)%nat = false) by (apply Nat.ltb_ge; exact L).
  rewrite C, E, (range_not_zero r R). reflexivity.
Qed.

(** X22.  The line of a series with a range that is finite and not zero:
    one path of as many vertices as plotted values, from x = 5 to x = 95,
    in one of the three trend colors, and a dot on its first and on its
    last vertex. *)
Theorem sparkline_polyline (series : list (option MonthlyPoint)) (r : Q) :
  let values := sparklineValues series in
  let minValue := Math_min (List.map ToNumber values) in
  let maxValue := Math_max (List.map ToNumber values) in
  (2 <= length values)%nat ->
  (Z.of_nat (length values) <= 2 ^ 32)%Z ->
  js_sub maxValue minValue = Num r -> ~ (r == 0)%Q ->
  exists (c : string) (x0 xn p q : Q) (y0 yn : number) (middle : list canvas_op),
    createMiniSparkline Context2D series =
      [ ClearRect (lit 0) (lit 0) (lit 100) (lit 40);
        StrokeStyle c; LineWidth (lit 2); BeginPath; MoveTo (Num x0) y0 ] ++
      middle ++
      [ LineTo (Num xn) yn; Stroke; FillStyle c;
        BeginPath; Arc (Num p) y0 (lit 2); Fill;
        BeginPath; Arc (Num q) yn (lit 2); Fill ] /\
    (x0 == 5 /\ xn == 95 /\ p == 5 /\ q == 95)%Q /\
    length middle = (length values - 2)%nat /\
    Forall isLineTo middle /\
    (c = "#10b981" \/ c = "#ef4444" \/ c = "#f59e0b").
Proof.
  intros values minValue maxValue L B E R.
  rewrite (createMiniSparkline_line series r L E R). fold values. fold minValue.
  destruct values as [|v0 rest] eqn:V; [simpl in L; lia|].
  destruct (exists_last (l := rest)) as (mid & vn & ->); [intros ->; simpl in L; lia|].
  set (n := length (v0 :: mid ++ [vn])) in *.
  assert (N : n = S (S (length mid))) by (unfold n; simpl; rewrite length_app; simpl; lia).
  destruct (sparklineX_end n 0 0 L B ltac:(lia) ltac:(lia)) as (x0 & X0 & H0').
  destruct (sparklineX_end n (S (length mid + 0)) 1 L B ltac:(lia) ltac:(lia))
    as (xn & Xn & Hn).
  destruct (lit_integral 5 ltac:(lia)) as (p & P & Hp).
  change (lit (inject_Z 5)) with (lit 5) in P.
  destruct (add_integral (lit 5) (js_sub (lit 100) (js_mul (lit 5) (lit 2))) 5 90)
    as (q & Q & Hq); [exists p; split; assumption | exact drawWidth_integral | lia |].
  exists (sparklineColor (v0 :: mid ++ [vn])), x0, xn, p, q,
    (sparklineY minValue (Num r) v0), (sparklineY minValue (Num r) vn),
    (imap (sparklineVertex n minValue (Num r) ∘ S) mid).
  split; [|split; [|split; [|split]]].
  - rewrite imap_cons, imap_app. simpl imap.
    unfold sparklineVertex at 1.
    rewrite X0, Xn, Q, P.
    replace (n - 1)%nat with (length (v0 :: mid)) by (rewrite N; simpl; lia).
    change (v0 :: mid ++ [vn]) with ((v0 :: mid) ++ [vn]).
    rewrite nth_middle. simpl nth.
    simpl app. rewrite <- !app_assoc. reflexivity.
  - repeat split; assumption.
  - rewrite length_imap, N. lia.
  - apply List.Forall_forall. intros op I.
    apply list_elem_of_In, list_elem_of_lookup in I as (i & I).
    rewrite list_lookup_imap in I. destruct (mid !! i); [|discriminate].
    injection I as <-. eexists _, _. reflexivity.
  - unfold sparklineColor, colors. cbv zeta.
    repeat case_bool_decide; tauto.
Qed.

(** X23.  The vertical scale of the line: the vertex of a plotted value is
    the operation at its place in the path; the vertex of a maximal value
    is at y = 5, the top of the plot, the vertex of a minimal value at
    y = 35. *)
Theorem sparkline_extremes (series : list (option MonthlyPoint)) (r : Q)
    (i : nat) (v : value) :
  let values := sparklineValues series in
  let minValue := Math_min (List.map ToNumber values) in
  let maxValue := Math_max (List.map ToNumber values) in
  (2 <= length values)%nat ->
  js_sub maxValue minValue = Num r -> ~ (r == 0)%Q ->
  values !! i = Some v ->
  (exists x,
     let y := sparklineY minValue (Num r) v in
     createMiniSparkline Context2D series !! (4 + i)%nat = Some (MoveTo x y) \/
     createMiniSparkline Context2D series !! (4 + i)%nat = Some (LineTo x y)) /\
  (ToNumber v = maxValue -> integral (sparklineY minValue (Num r) v) 5) /\
  (ToNumber v = minValue -> integral (sparklineY minValue (Num r) v) 35).
Proof.
  intros values minValue maxValue L E R V.
  split; [|split].
  - rewrite (createMiniSparkline_line series r L E R). fold values. fold minValue.
    exists (sparklineX (length values) i). cbv zeta.
    rewrite lookup_app_r by (simpl length; lia).
    replace (4 + i - length [ClearRect (lit 0) (lit 0) (lit 100) (lit 40);
                             StrokeStyle (sparklineColor values);
                             LineWidth (lit 2); BeginPath])%nat with i by (simpl length; lia).
    rewrite lookup_app_l by (rewrite length_imap; apply lookup_lt_Some in V; exact V).
    rewrite list_lookup_imap, V. simpl.
    destruct i; [left | right]; reflexivity.
  - intros M. apply sparklineY_max; [|exact R]. rewrite M. exact E.
  - intros M.
    destruct minValue as [| | |m] eqn:Em;
      try (destruct maxValue; discriminate E).
    apply sparklineY_min; [exact M | exact R].
Qed.

End Spark.

(** ** From the load to the marker, from the select to the list *)

Section Pipeline.
Context `{Rounding} `{Builtins}.

Lemma loadData_caches (st : State) (status status' : Z) (ds : Dataset) (cache : GeoCache) :
  let after :=
    (loadData st (Response true status (Return ds))
       (Response true status' (Return (Some cache)))).1 in
  after.(geoCache) = Some cache /\ after.(geoCacheNorm) = Some (buildNormIndex cache).
Proof.
  unfold loadData. cbv zeta.
  destruct (locations_data ds); [split; reflexivity|].
  destruct (dispensaries ds); split; reflexivity.
Qed.

(** X24.  After a load that got the document and the cache, a record
    without finite explicit coordinates of which no candidate key has a
    usable exact entry is placed at the entry of the cache key that has the
    canonical form of its first candidate key with a usable entry in the
    index, when the keys of the cache have distinct canonical forms and the
    coordinates of the entry are finite. *)
Theorem loaded_cache_resolves (st : State) (status status' : Z) (ds : Dataset)
    (cache : GeoCache) (d : Dispensary) (pre post : list string) (key c : string)
    (e : GeoEntry) (x y : Q) :
  let after :=
    (loadData st (Response true status (Return ds))
       (Response true status' (Return (Some cache)))).1 in
  NoDup (List.map (fun p => norm p.1) cache) ->
  In (c, e) cache -> norm c = norm key ->
  e.(lat) = VNum (Num x) -> e.(lng) = VNum (Num y) ->
  hasExplicit d = false ->
  candidateKeys d = pre ++ key :: post ->
  Forall (fun k => usable (cache_get cache k) = None) (candidateKeys d) ->
  Forall (fun k => usable (buildNormIndex cache !! norm k) = None) pre ->
  updateMap_position after d = Some (VNum (Num x), VNum (Num y)).
Proof.
  intros after N I Nc La Ln E K U P.
  destruct (loadData_caches st status status' ds cache) as [C X]. fold after in C, X.
  apply position_of_cacheTier; [exact E|].
  apply (cacheTier_normalized after d cache (buildNormIndex cache) pre key post e x y
           C X K U P); [|exact La|exact Ln].
  rewrite <- Nc. exact (index_exact cache c e N I).
Qed.

(** X25.  Every option of the city select, chosen alone, lists at least one
    record, and lists exactly the records of the source of that city. *)
Theorem city_option_selects_records (source : list Dispensary) (name : string) :
  In name (cityOptions source) ->
  filterRecords source (selecting name) <> [] /\
  (forall d, In d (filterRecords source (selecting name)) <->
     In d source /\ d.(city) = name).
Proof.
  intros I. apply cityOptions_In in I as [(d & Id & Ed) T].
  assert (Ne : nonempty name = true).
  { apply nonempty_iff. intros ->. apply T. reflexivity. }
  assert (K : forall x, keeps (selecting name) x = bool_decide (x.(city) = name)).
  { intros x. unfold keeps, searchPredicate, regionPredicate, cityPredicate,
      trendPredicate, trendFilterOf. simpl. rewrite Ne. simpl.
    rewrite andb_true_r. reflexivity. }
  assert (M : forall x, In x (filterRecords source (selecting name)) <->
                        In x source /\ x.(city) = name).
  { intros x. rewrite filterRecords_keeps, filter_In, K, bool_decide_eq_true. tauto. }
  split; [|exact M].
  intros Z. assert (X : In d (filterRecords source (selecting name))) by (apply M; tauto).
  rewrite Z in X. contradiction.
Qed.

End Pipeline.

(** ** The properties at concrete inputs *)

Section CoverageExamples.
Import JS.Reference Samples MoreSamples.
#[local] Existing Instance binary64_rounding.
#[local] Existing Instance plain_builtins.

Lemma seededRandom_substitution_witness :
  seededRandom "12 Main St|Acme:lat" <> seededRandom "12 Main St|Acmf:lat".
Proof.
  apply (seededRandom_substitution "12 Main St|Acm" ":lat" "e" "f"). discriminate.
Defined.


Lemma blank_address_skips_cache_witness :
  updateMap_position (state (Some decoyCache)) blankAddress =
    updateMap_position (state None) blankAddress /\
  updateMap_position (state (Some decoyCache)) blankAddress =
    centroidTier blankAddress (explicitTier blankAddress (VNull, VNull)).
Proof.
  apply (blank_address_skips_cache (state (Some decoyCache)) (state None) blankAddress).
  left. reflexivity.
Defined.

Lemma partial_coordinates_ignored_witness :
  updateMap_position (state None) halfLocated =
    updateMap_position (state None) (withoutCoordinates halfLocated).
Proof.
  apply (partial_coordinates_ignored (state None) halfLocated). vm_compute. reflexivity.
Defined.


Lemma unknown_trend_filters_everything_witness :
  filterRecords [unlocated; southern] (trending VUndefined) = [].
Proof.
  apply (unknown_trend_filters_everything [unlocated; southern] (trending VUndefined)
           VUndefined); try reflexivity; discriminate.
Defined.

Lemma trend_filter_then_stats_witness :
  calculateStats (filterRecords [unlocated; southern] (trending (VStr "up"))) !! "up"
    = Some 1%Z /\
  calculateStats (filterRecords [unlocated; southern] (trending (VStr "up"))) !! "down"
    = Some 0%Z.
Proof.
  destruct (trend_filter_then_stats [unlocated; southern] (trending (VStr "up")) "up")
    as [U O]; [reflexivity | left; reflexivity |].
  split; [exact U|]. apply O; [right; left; reflexivity | discriminate].
Defined.

Lemma stats_additive_witness :
  calculateStats ([unlocated] ++ [southern; unlocated]) !! "up" = Some 2%Z.
Proof.
  destruct (stats_additive [unlocated] [southern; unlocated] "up")
    as ((n1 & n2 & E1 & E2 & E) & _ & _); [left; reflexivity|].
  rewrite E. vm_compute in E1, E2. injection E1 as <-. injection E2 as <-. reflexivity.
Defined.

Lemma filters_never_compound_witness :
  applyFilters (withFiltered loaded [southern]) searching = applyFilters loaded searching.
Proof.
  destruct (filters_never_compound loaded (withFiltered loaded [southern])
              (trending (VStr "down"))) as [F _]; [vm_compute; reflexivity|].
  apply F.
Defined.

Lemma document_without_locations_witness :
  (loadData constructor (Response true 200 (Return emptyDocument)) (Rejected "offline")).2 =
    Some "Error: Failed to load dispensary data: No dispensary locations found in data" /\
  applyFilters
    (loadData constructor (Response true 200 (Return emptyDocument)) (Rejected "offline")).1
    inactive = Throw "TypeError".
Proof.
  destruct (document_without_locations constructor 200 emptyDocument (Rejected "offline")
              None inactive) as (E & _ & _ & _ & A); [reflexivity|].
  split; [exact E | exact A].
Defined.

Lemma index_follows_cache_witness :
  indexed
    (loadData constructor (Response true 200 (Return emptyDocument))
       (Response true 200 (Return None))).1 /\
  geoCacheNorm
    (loadData constructor (Response true 200 (Return emptyDocument))
       (Response true 200 (Return None))).1 = Some ∅.
Proof.
  destruct (index_follows_cache constructor (Response true 200 (Return emptyDocument))
              (Response true 200 (Return None)) inactive) as (I & L & _ & _ & N).
  split; [exact (L I)|].
  destruct (N 200%Z 200%Z emptyDocument) as (_ & X & _). exact X.
Defined.

Lemma sparkline_order_independent_witness :
  sparklineValues risingSeriesReversed = sparklineValues risingSeries /\
  createMiniSparkline Context2D risingSeriesReversed =
    createMiniSparkline Context2D risingSeries.
Proof.
  apply (sparkline_order_independent Context2D risingSeries risingSeriesReversed).
  - apply perm_swap.
  - vm_compute. repeat constructor; simpl; intuition discriminate.
  - intros a b _ _. reflexivity.
Defined.

Lemma sparkline_polyline_witness :
  exists (c : string) (x0 xn p q : Q) (y0 yn : number) (middle : list canvas_op),
    createMiniSparkline Context2D risingSeries =
      [ ClearRect (lit 0) (lit 0) (lit 100) (lit 40);
        StrokeStyle c; LineWidth (lit 2); BeginPath; MoveTo (Num x0) y0 ] ++
      middle ++
      [ LineTo (Num xn) yn; Stroke; FillStyle c;
        BeginPath; Arc (Num p) y0 (lit 2); Fill;
        BeginPath; Arc (Num q) yn (lit 2); Fill ] /\
    (x0 == 5 /\ xn == 95 /\ p == 5 /\ q == 95)%Q /\
    length middle = (length (sparklineValues risingSeries) - 2)%nat /\
    Forall isLineTo middle /\
    (c = "#10b981" \/ c = "#ef4444" \/ c = "#f59e0b").
Proof.
  apply (sparkline_polyline risingSeries 200).
  - vm_compute. lia.
  - vm_compute. discriminate.
  - vm_compute. reflexivity.
  - discriminate.
Defined.

Lemma sparkline_extremes_witness :
  integral
    (sparklineY (Math_min (List.map ToNumber (sparklineValues risingSeries))) (Num 200)
       (VNum (Num 700))) 5.
Proof.
  destruct (sparkline_extremes risingSeries 200 1 (VNum (Num 700))) as (_ & T & _).
  - vm_compute. lia.
  - vm_compute. reflexivity.
  - discriminate.
  - vm_compute. reflexivity.
  - apply T. vm_compute. reflexivity.
Defined.

Lemma loaded_cache_resolves_witness :
  updateMap_position
    (loadData constructor (Response true 200 (Return emptyDocument))
       (Response true 200 (Return (Some shoutedCache)))).1 unlocated =
    Some (VNum (Num 35.6), VNum (Num (-105.9))).
Proof.
  pose proof (loaded_cache_resolves constructor 200 200 emptyDocument shoutedCache
                unlocated
                [] [ "12 Main St, Santa Fe 87507"; "12 Main St, Santa Fe 87507.0" ]
                "12 Main St, Santa Fe" "12 MAIN ST., SANTA FE" (entry 35.6 (-105.9))
                35.6%Q (-105.9)%Q) as W.
  cbv zeta in W.
  assert (K : candidateKeys unlocated =
              [ "12 Main St, Santa Fe"; "12 Main St, Santa Fe 87507";
                "12 Main St, Santa Fe 87507.0" ]) by (vm_compute; reflexivity).
  apply W.
  - apply NoDup_singleton.
  - left. reflexivity.
  - vm_compute. reflexivity.
  - reflexivity.
  - reflexivity.
  - vm_compute. reflexivity.
  - exact K.
  - rewrite K. repeat constructor.
  - constructor.
Defined.

Lemma city_option_selects_records_witness :
  filterRecords [unlocated; southern] (selecting "Santa Fe") <> [].
Proof.
  apply (city_option_selects_records [unlocated; southern] "Santa Fe").
  vm_compute. right. left. reflexivity.
Defined.

(** Values of the methods at concrete inputs, in binary64. *)

Example norm_example :
  norm "  123 MAIN St.,   Santa  Fe " = "123 main st santa fe".
Proof. vm_compute. reflexivity. Qed.

Example fnv1a_test_vectors :
  fnv1a "" = 2166136261%Z /\ fnv1a "a" = 3826002220%Z /\ fnv1a "foobar" = 3214735720%Z.
Proof. repeat split; vm_compute; reflexivity. Qed.

Example cityOptions_example :
  cityOptions [ record "1 A St" "Santa Fe" VUndefined VUndefined VUndefined;
                record "2 B St" "albuquerque" VUndefined VUndefined VUndefined;
                record "3 C St" "Santa Fe" VUndefined VUndefined VUndefined;
                record "4 D St" "  " VUndefined VUndefined VUndefined;
                record "5 E St" "Albuquerque" VUndefined VUndefined VUndefined ]
  = [ "Albuquerque"; "Santa Fe"; "albuquerque" ].
Proof. vm_compute. reflexivity. Qed.

Example loadData_not_found :
  loadData constructor (Response false 404 (Throw "")) (Rejected "") =
    (constructor,
     Some "Error: Failed to load dispensary data: HTTP error! status: 404").
Proof. vm_compute. reflexivity. Qed.

Example markerRadius_examples :
  List.map markerRadius
    [ VNum (Num 500000); VNum (Num 2000000); VNum (Num (-5)); VStr "250000";
      VNull; VUndefined ]
  = [ Num (19 # 2); Num 15; Num 4; Num (27 # 4); Num 4; NaN ].
Proof. vm_compute. reflexivity. Qed.

Example sparkline_rising :
  createMiniSparkline Context2D risingSeries =
    [ ClearRect (Num 0) (Num 0) (Num 100) (Num 40);
      StrokeStyle "#10b981"; LineWidth (Num 2); BeginPath;
      MoveTo (Num 5) (Num 35); LineTo (Num 95) (Num 5); Stroke;
      FillStyle "#10b981"; BeginPath; Arc (Num 5) (Num 35) (Num 2); Fill;
      BeginPath; Arc (Num 95) (Num 5) (Num 2); Fill ].
Proof. vm_compute. reflexivity. Qed.

End CoverageExamples.

End Coverage.
